(** * The gateway session context of CernVM-FS (cvmfs/session_context.cc)

    A shallow embedding of [upload::SessionContextBase] and
    [upload::SessionContext]: the batching of committed buckets into object
    packs, the rotation of a full pack, the hand-off of packs to the upload
    worker, the wire format of one upload and the final accounting done by
    [Finalize].

    The object pack, the bounded queue and the future of the repository are
    not part of the sources at hand; they are modelled from the description
    of their contracts and marked as such. *)

From Stdlib Require Import ZArith String Ascii List Lia Bool.
From Stdlib.Strings Require Import Byte.
From stdpp Require Import gmap list strings pretty.
From Equations Require Import Equations.

Local Open Scope Z_scope.

(** ** Machine integers *)

(** [uint64_t] arithmetic wraps modulo 2^64. *)
Definition u64 (x : Z) : Z := x mod 2 ^ 64.

(** [int64_t] as used by the atomic counters: two's complement wrap. *)
Definition s64 (x : Z) : Z := (x + 2 ^ 63) mod 2 ^ 64 - 2 ^ 63.

(** ** Outcomes of a call

    A call either returns, or leaves the contract of a collaborator, or
    stops on a failed [assert], or waits for ever on a queue or a future, or
    exhausts the recursion budget given to the model. *)

Inductive outcome (A : Type) : Type :=
| Ret (a : A)
| Undefined
| AssertFailed
| Blocked
| OutOfFuel.

Arguments Ret {A} a.
Arguments Undefined {A}.
Arguments AssertFailed {A}.
Arguments Blocked {A}.
Arguments OutOfFuel {A}.

#[export] Instance outcome_ret : MRet outcome := fun _ a => Ret a.

#[export] Instance outcome_bind : MBind outcome := fun _ _ k m =>
  match m with
  | Ret a => k a
  | Undefined => Undefined
  | AssertFailed => AssertFailed
  | Blocked => Blocked
  | OutOfFuel => OutOfFuel
  end.

Definition returns {A : Type} (m : outcome A) : Prop := exists a, m = Ret a.

(** ** Strings *)

(** The double quote character (code 34), escaped in the C++ literals. *)
Definition dq : string := String "034"%char EmptyString.

(** The receiver of a message cuts the body after [n] bytes. *)
Fixpoint split_at (n : nat) (s : string) : string * string :=
  match n, s with
  | O, _ => (EmptyString, s)
  | S _, EmptyString => (EmptyString, EmptyString)
  | S n', String c s' => let '(a, b) := split_at n' s' in (String c a, b)
  end.

(** The text after a given prefix, if the string starts with it. *)
Fixpoint strip_prefix (p s : string) : option string :=
  match p, s with
  | EmptyString, _ => Some s
  | String _ _, EmptyString => None
  | String a p', String b s' =>
      if Ascii.eqb a b then strip_prefix p' s' else None
  end.

(** The value of the first header line of the form [name: value]. *)
Fixpoint header_value (name : string) (headers : list string) : option string :=
  match headers with
  | [] => None
  | line :: headers' =>
      match strip_prefix (name +:+ ": ") line with
      | Some v => Some v
      | None => header_value name headers'
      end
  end.

(** ** Hashes *)

(** [shash::Any]: an opaque digest, here its raw bytes. *)
Definition Any : Type := list byte.

(** ** Object packs *)

Module ObjectPack.

(** Modelled from the spec: the class [ObjectPack] (pack.h, pack.cc) is
    missing.  A bucket handle is an opaque identity that survives the
    transfer of the bucket to another pack. *)
Abbreviation BucketHandle := positive.

(** Modelled from the spec: the content-type tag of a bucket (regular
    object, catalog, history, and others). *)
Inductive BucketContentType : Type :=
| kRegular
| kCatalog
| kHistory
| kOther (tag : N).

(** Modelled from the spec: a committed bucket: the bytes written to it and
    the type, hash and name attached by the commit. *)
Record Bucket : Type := mkBucket {
  handle : BucketHandle;
  content : list byte;
  content_type : BucketContentType;
  id : Any;
  name : string
}.

(** Modelled from the spec: a pack owns its open buckets (handle to the
    bytes written so far) and its committed buckets in commit order, and
    has a ceiling [limit_] on the committed size [size_]. *)
Record t : Type := mkPack {
  limit_ : Z;
  size_ : Z;
  open_buckets_ : gmap BucketHandle (list byte);
  buckets_ : list Bucket
}.

(** Modelled from the spec: [new ObjectPack(limit)], an empty pack. *)
Definition create (limit : Z) : t :=
  {| limit_ := limit; size_ := 0; open_buckets_ := ∅; buckets_ := [] |}.

Definition size (p : t) : Z := size_ p.

Definition GetNoObjects (p : t) : Z := Z.of_nat (length (buckets_ p)).

Definition bucket_size (c : list byte) : Z := Z.of_nat (length c).

(** Modelled from the spec: [NewBucket] opens an empty bucket under a
    fresh handle. The handle [hd] is the one the allocator hands out. *)
Definition NewBucket (hd : BucketHandle) (p : t) : t :=
  {| limit_ := limit_ p; size_ := size_ p;
     open_buckets_ := <[hd := []]> (open_buckets_ p);
     buckets_ := buckets_ p |}.

(** Modelled from the spec: [Write] appends to an open bucket; writing to
    a bucket that is not open in the pack is undefined. *)
Definition Write (hd : BucketHandle) (data : list byte) (p : t) : option t :=
  match open_buckets_ p !! hd with
  | None => None
  | Some c =>
      Some {| limit_ := limit_ p; size_ := size_ p;
              open_buckets_ := <[hd := c ++ data]> (open_buckets_ p);
              buckets_ := buckets_ p |}
  end.

(** Modelled from the spec: [CommitBucket] returns false, leaving the pack
    as it is, when the commit would push the committed size over the
    ceiling; otherwise it closes the bucket, records type, hash and name
    and adds the bucket's size to the committed size.  Committing a handle
    that is not open in the pack is outside the contract. *)
Definition CommitBucket (type : BucketContentType) (hash : Any)
    (hd : BucketHandle) (nm : string) (p : t) : option (bool * t) :=
  match open_buckets_ p !! hd with
  | None => None
  | Some c =>
      if limit_ p <? size_ p + bucket_size c then Some (false, p)
      else Some (true,
                 {| limit_ := limit_ p;
                    size_ := size_ p + bucket_size c;
                    open_buckets_ := delete hd (open_buckets_ p);
                    buckets_ := buckets_ p ++ [mkBucket hd c type hash nm] |})
  end.

(** Modelled from the spec: [TransferBucket] moves a still open bucket,
    with the bytes written so far, into [other] under the same handle. *)
Definition TransferBucket (hd : BucketHandle) (p other : t) : option (t * t) :=
  match open_buckets_ p !! hd with
  | None => None
  | Some c =>
      Some ({| limit_ := limit_ p; size_ := size_ p;
               open_buckets_ := delete hd (open_buckets_ p);
               buckets_ := buckets_ p |},
            {| limit_ := limit_ other; size_ := size_ other;
               open_buckets_ := <[hd := c]> (open_buckets_ other);
               buckets_ := buckets_ other |})
  end.

End ObjectPack.

(** ** External collaborators

    Hashing, encoding and the serialization format of a pack are used
    through their interfaces only. *)

Class Collaborators : Type := {
  (** [Base64] of util/string *)
  Base64 : string -> string;
  (** [StringifyInt] of util/string *)
  StringifyInt : Z -> string;
  (** [shash::Any::ToString(with_suffix)] *)
  AnyToString : Any -> bool -> string;
  (** [shash::HmacString(key, content, &any_digest)] *)
  HmacString : string -> string -> Any;
  (** the digest [ObjectPackProducer::GetDigest] computes for a pack *)
  PackDigest : ObjectPack.t -> Any;
  (** the byte stream [ObjectPackProducer] emits for a pack *)
  Serialize : ObjectPack.t -> list byte;
  (** [gateway::APIVersion()] of gateway_util *)
  APIVersion : Z;
  (** the macro [VERSION] of cvmfs_config.h *)
  VERSION : string;
  (** [ObjectPack::kDefaultLimit] *)
  kDefaultLimit : Z
}.

(** Modelled from the spec: [ObjectPackProducer] (pack.h) is missing; it
    streams the finite serialization of a pack from its start, a buffer at a
    time. *)
Record ObjectPackProducer : Type := mkProducer { pending : list byte }.

Definition ProduceNext (buf_size : nat) (p : ObjectPackProducer)
  : list byte * ObjectPackProducer :=
  (take buf_size (pending p), mkProducer (drop buf_size (pending p))).

Definition inspect {A : Type} (a : A) : {b : A | a = b} := exist _ a eq_refl.

(** [std::vector<unsigned char> buffer(4096)]: the size of the copy buffer. *)
Definition buffer_size : nat := 4096.

(** The loop of [DoUpload] that copies the serialized pack into [payload]:
    [do { nbytes = ProduceNext(...); copy } while (nbytes > 0)]. *)
Equations? copy_payload (serializer : ObjectPackProducer) (payload : list byte)
  : list byte by wf (length (pending serializer)) lt :=
  copy_payload serializer payload
    with inspect (0 <? length (fst (ProduceNext buffer_size serializer)))%nat := {
    | exist _ true more =>
        copy_payload (snd (ProduceNext buffer_size serializer))
                     (payload ++ fst (ProduceNext buffer_size serializer))
    | exist _ false _ => payload ++ fst (ProduceNext buffer_size serializer) }.
Proof.
  apply Nat.ltb_lt in more. unfold ProduceNext in *. cbn [fst snd pending] in *.
  rewrite length_take in more. rewrite length_drop. lia.
Qed.

(** ** Futures, jobs and the session context *)

(** Modelled from the spec: [Future<bool>] (util/future.h) is missing: a
    single-assignment cell.  A future is named by its address in the store
    [futures_] of the context; the cell holds [None] until it is set. *)
Definition Future : Type := nat.

(** [SessionContext::UploadJob] *)
Record UploadJob : Type := mkJob {
  pack : ObjectPack.t;
  result : Future
}.

(** The upload worker thread [worker_]: not started, inside [UploadLoop]
    with its local counter [jobs_processed], or returned. *)
Inductive WorkerThread : Type :=
| NotStarted
| Running (jobs_processed : Z)
| Exited.

(** The members of [SessionContextBase] and [SessionContext], followed by
    the two stores that stand for the free store: the futures allocated by
    [DispatchObjectPack] and the next bucket handle to hand out.

    Modelled from the spec: [FifoChannel] (util_concurrency.h) is missing;
    a channel is the list of its elements, oldest first.  The capacity of
    a channel is not part of the state: [Enqueue] is described for a
    channel that has room, and [has_room] below says when that is the
    case. *)
Record SessionContext : Type := mkContext {
  upload_results_ : list Future;
  api_url_ : string;
  session_token_ : string;
  key_id_ : string;
  secret_ : string;
  drop_lease_ : bool;
  queue_was_flushed_ : list bool;
  max_pack_size_ : Z;
  active_handles_ : list ObjectPack.BucketHandle;
  current_pack_ : option ObjectPack.t;
  objects_dispatched_ : Z;
  bytes_committed_ : Z;
  bytes_dispatched_ : Z;
  upload_jobs_ : list UploadJob;
  worker_terminate_ : Z;
  worker_ : WorkerThread;
  futures_ : list (option bool);
  next_handle_ : ObjectPack.BucketHandle
}.

(** Field updates. *)
Definition set_upload_results (v : list Future) (s : SessionContext) :=
  mkContext v (api_url_ s) (session_token_ s) (key_id_ s) (secret_ s)
    (drop_lease_ s) (queue_was_flushed_ s) (max_pack_size_ s)
    (active_handles_ s) (current_pack_ s) (objects_dispatched_ s)
    (bytes_committed_ s) (bytes_dispatched_ s) (upload_jobs_ s)
    (worker_terminate_ s) (worker_ s) (futures_ s) (next_handle_ s).

Definition set_queue_was_flushed (v : list bool) (s : SessionContext) :=
  mkContext (upload_results_ s) (api_url_ s) (session_token_ s) (key_id_ s)
    (secret_ s) (drop_lease_ s) v (max_pack_size_ s)
    (active_handles_ s) (current_pack_ s) (objects_dispatched_ s)
    (bytes_committed_ s) (bytes_dispatched_ s) (upload_jobs_ s)
    (worker_terminate_ s) (worker_ s) (futures_ s) (next_handle_ s).

Definition set_active_handles (v : list ObjectPack.BucketHandle)
    (s : SessionContext) :=
  mkContext (upload_results_ s) (api_url_ s) (session_token_ s) (key_id_ s)
    (secret_ s) (drop_lease_ s) (queue_was_flushed_ s) (max_pack_size_ s)
    v (current_pack_ s) (objects_dispatched_ s)
    (bytes_committed_ s) (bytes_dispatched_ s) (upload_jobs_ s)
    (worker_terminate_ s) (worker_ s) (futures_ s) (next_handle_ s).

Definition set_current_pack (v : option ObjectPack.t) (s : SessionContext) :=
  mkContext (upload_results_ s) (api_url_ s) (session_token_ s) (key_id_ s)
    (secret_ s) (drop_lease_ s) (queue_was_flushed_ s) (max_pack_size_ s)
    (active_handles_ s) v (objects_dispatched_ s)
    (bytes_committed_ s) (bytes_dispatched_ s) (upload_jobs_ s)
    (worker_terminate_ s) (worker_ s) (futures_ s) (next_handle_ s).

Definition set_objects_dispatched (v : Z) (s : SessionContext) :=
  mkContext (upload_results_ s) (api_url_ s) (session_token_ s) (key_id_ s)
    (secret_ s) (drop_lease_ s) (queue_was_flushed_ s) (max_pack_size_ s)
    (active_handles_ s) (current_pack_ s) v
    (bytes_committed_ s) (bytes_dispatched_ s) (upload_jobs_ s)
    (worker_terminate_ s) (worker_ s) (futures_ s) (next_handle_ s).

Definition set_bytes_committed (v : Z) (s : SessionContext) :=
  mkContext (upload_results_ s) (api_url_ s) (session_token_ s) (key_id_ s)
    (secret_ s) (drop_lease_ s) (queue_was_flushed_ s) (max_pack_size_ s)
    (active_handles_ s) (current_pack_ s) (objects_dispatched_ s)
    v (bytes_dispatched_ s) (upload_jobs_ s)
    (worker_terminate_ s) (worker_ s) (futures_ s) (next_handle_ s).

Definition set_bytes_dispatched (v : Z) (s : SessionContext) :=
  mkContext (upload_results_ s) (api_url_ s) (session_token_ s) (key_id_ s)
    (secret_ s) (drop_lease_ s) (queue_was_flushed_ s) (max_pack_size_ s)
    (active_handles_ s) (current_pack_ s) (objects_dispatched_ s)
    (bytes_committed_ s) v (upload_jobs_ s)
    (worker_terminate_ s) (worker_ s) (futures_ s) (next_handle_ s).

Definition set_upload_jobs (v : list UploadJob) (s : SessionContext) :=
  mkContext (upload_results_ s) (api_url_ s) (session_token_ s) (key_id_ s)
    (secret_ s) (drop_lease_ s) (queue_was_flushed_ s) (max_pack_size_ s)
    (active_handles_ s) (current_pack_ s) (objects_dispatched_ s)
    (bytes_committed_ s) (bytes_dispatched_ s) v
    (worker_terminate_ s) (worker_ s) (futures_ s) (next_handle_ s).

Definition set_worker_terminate (v : Z) (s : SessionContext) :=
  mkContext (upload_results_ s) (api_url_ s) (session_token_ s) (key_id_ s)
    (secret_ s) (drop_lease_ s) (queue_was_flushed_ s) (max_pack_size_ s)
    (active_handles_ s) (current_pack_ s) (objects_dispatched_ s)
    (bytes_committed_ s) (bytes_dispatched_ s) (upload_jobs_ s)
    v (worker_ s) (futures_ s) (next_handle_ s).

Definition set_worker (v : WorkerThread) (s : SessionContext) :=
  mkContext (upload_results_ s) (api_url_ s) (session_token_ s) (key_id_ s)
    (secret_ s) (drop_lease_ s) (queue_was_flushed_ s) (max_pack_size_ s)
    (active_handles_ s) (current_pack_ s) (objects_dispatched_ s)
    (bytes_committed_ s) (bytes_dispatched_ s) (upload_jobs_ s)
    (worker_terminate_ s) v (futures_ s) (next_handle_ s).

Definition set_futures (v : list (option bool)) (s : SessionContext) :=
  mkContext (upload_results_ s) (api_url_ s) (session_token_ s) (key_id_ s)
    (secret_ s) (drop_lease_ s) (queue_was_flushed_ s) (max_pack_size_ s)
    (active_handles_ s) (current_pack_ s) (objects_dispatched_ s)
    (bytes_committed_ s) (bytes_dispatched_ s) (upload_jobs_ s)
    (worker_terminate_ s) (worker_ s) v (next_handle_ s).

Definition set_next_handle (v : ObjectPack.BucketHandle) (s : SessionContext) :=
  mkContext (upload_results_ s) (api_url_ s) (session_token_ s) (key_id_ s)
    (secret_ s) (drop_lease_ s) (queue_was_flushed_ s) (max_pack_size_ s)
    (active_handles_ s) (current_pack_ s) (objects_dispatched_ s)
    (bytes_committed_ s) (bytes_dispatched_ s) (upload_jobs_ s)
    (worker_terminate_ s) (worker_ s) (futures_ s) v.

(** The lease credentials of a context. *)
Definition credentials (s : SessionContext) : string * string * string * string :=
  (api_url_ s, session_token_ s, key_id_ s, secret_ s).

(** [new Future<bool>()] *)
Definition Future_new (s : SessionContext) : Future * SessionContext :=
  (length (futures_ s), set_futures (futures_ s ++ [None]) s).

(** The value of a future, if it has been set. *)
Definition Future_value (f : Future) (s : SessionContext) : option bool :=
  match futures_ s !! f with
  | Some v => v
  | None => None
  end.

(** [Future::Set]: only an allocated future that holds no value yet may be
    set. *)
Definition Future_Set (f : Future) (v : bool) (s : SessionContext)
  : outcome SessionContext :=
  match futures_ s !! f with
  | Some None => Ret (set_futures (<[f := Some v]> (futures_ s)) s)
  | _ => Undefined
  end.

(** ** The transport *)

(** The options [DoUpload] sets on the libcurl handle.  Strings are handed
    to libcurl as text without an embedded NUL byte. *)
Record CurlRequest : Type := mkRequest {
  HTTPHEADER : list string;
  NOPROGRESS : Z;
  USERAGENT : string;
  MAXREDIRS : Z;
  CUSTOMREQUEST : string;
  TCP_KEEPALIVE : Z;
  URL : string;
  POSTFIELDSIZE_LARGE : Z;
  POSTFIELDS : string
}.

(** ** The write callback *)

(** The C string that starts at an address: the bytes found there up to the
    first NUL byte. *)
Fixpoint c_string (memory : list byte) : list byte :=
  match memory with
  | [] => []
  | b :: memory' => if Byte.eqb b x00 then [] else b :: c_string memory'
  end.

(** [RecvCB(buffer, size, nmemb, userp)]: [memory] is what is found from the
    address [buffer] on, [my_buffer] the string [userp] points to.  The
    product is taken in [size_t]. *)
Definition RecvCB (memory : list byte) (size nmemb : Z) (my_buffer : string)
  : Z * string :=
  if u64 (size * nmemb) <? 1 then (0, my_buffer)
  else
    let my_buffer := string_of_list_byte (c_string memory) in
    (Z.of_nat (String.length my_buffer), my_buffer).

(** A chunk of the response body as libcurl hands it to the write
    callback: the bytes of the chunk, and the bytes that lie behind them in
    the receive buffer.  libcurl does not terminate a chunk with a NUL
    byte: what lies behind it is whatever the buffer holds. *)
Record Chunk : Type := mkChunk {
  chunk_data : list byte;
  chunk_behind : list byte
}.

(** What libcurl, the network and the gateway do for one upload: whether
    [curl_easy_init] yields a handle, and for a request the chunks in which
    the response body arrives together with the [CURLcode] of the transfer
    when the write callback takes every chunk. *)
Record Curl : Type := mkCurl {
  curl_easy_init : bool;
  transfer : CurlRequest -> Z * list Chunk
}.

Definition CURLE_WRITE_ERROR : Z := 23.

(** The delivery of the response body (libcurl, CURLOPT_WRITEFUNCTION): the
    callback is called once for each chunk with the address of the chunk,
    size 1, the length of the chunk and the pointer set with
    CURLOPT_WRITEDATA; when it returns another count than the length of the
    chunk the transfer is aborted with [CURLE_WRITE_ERROR]. *)
Fixpoint deliver (WRITEFUNCTION : list byte -> Z -> Z -> string -> Z * string)
    (chunks : list Chunk) (code : Z) (userp : string) : Z * string :=
  match chunks with
  | [] => (code, userp)
  | chunk :: chunks' =>
      let nmemb := Z.of_nat (length (chunk_data chunk)) in
      let '(taken, userp) :=
        WRITEFUNCTION (chunk_data chunk ++ chunk_behind chunk) 1 nmemb userp in
      if taken =? nmemb then deliver WRITEFUNCTION chunks' code userp
      else (CURLE_WRITE_ERROR, userp)
  end.

(** [curl_easy_perform] on a handle with the given request, write callback
    and callback data: the [CURLcode] and what the callback data holds
    afterwards. *)
Definition curl_easy_perform (curl : Curl) (request : CurlRequest)
    (WRITEFUNCTION : list byte -> Z -> Z -> string -> Z * string)
    (WRITEDATA : string) : Z * string :=
  let '(code, chunks) := transfer curl request in
  deliver WRITEFUNCTION chunks code WRITEDATA.

(** The reply the gateway sends for an accepted payload. *)
Definition status_ok : string :=
  "{" +:+ dq +:+ "status" +:+ dq +:+ ":" +:+ dq +:+ "ok" +:+ dq +:+ "}".

Section Session.

Context `{Collaborators}.

(** *** [SessionContext::DoUpload] *)

Definition json_body (s : SessionContext) (job : UploadJob) : string :=
  "{" +:+ dq +:+ "session_token" +:+ dq +:+ " : " +:+ dq +:+ session_token_ s +:+
  dq +:+ ", " +:+ dq +:+ "payload_digest" +:+ dq +:+ " : " +:+ dq +:+
  Base64 (AnyToString (PackDigest (pack job)) false) +:+
  dq +:+ ", " +:+ dq +:+ "api_version" +:+ dq +:+ " : " +:+ dq +:+
  StringifyInt APIVersion +:+ dq +:+ "}".

Definition hmac (s : SessionContext) (job : UploadJob) : Any :=
  HmacString (secret_ s) (json_body s job).

Definition payload (job : UploadJob) : list byte :=
  copy_payload (mkProducer (Serialize (pack job))) [].

Definition payload_text (s : SessionContext) (job : UploadJob) : string :=
  json_body s job +:+ Base64 (string_of_list_byte (payload job)).

Definition auth_header (s : SessionContext) (job : UploadJob) : list string :=
  [ "Authorization: " +:+ key_id_ s +:+ " " +:+
      Base64 (AnyToString (hmac s job) false);
    "Message-Size: " +:+
      StringifyInt (Z.of_nat (String.length (json_body s job))) ].

(** The request as it stands when [curl_easy_perform] is called. *)
Definition request (s : SessionContext) (job : UploadJob) : CurlRequest :=
  {| HTTPHEADER := auth_header s job;
     NOPROGRESS := 1;
     USERAGENT := "cvmfs/" +:+ VERSION;
     MAXREDIRS := 50;
     CUSTOMREQUEST := "POST";
     TCP_KEEPALIVE := 1;
     URL := api_url_ s +:+ "/payloads";
     POSTFIELDSIZE_LARGE := Z.of_nat (String.length (payload_text s job));
     POSTFIELDS := payload_text s job |}.

Definition DoUpload (curl : Curl) (s : SessionContext) (job : UploadJob) : bool :=
  if negb (curl_easy_init curl) then false
  else
    let '(ret, reply) := curl_easy_perform curl (request s job) RecvCB "" in
    let ok := String.eqb reply status_ok in
    ok && (ret =? 0).

(** *** [SessionContextBase] *)

(** The constructor.  The three counters and the members of the derived
    class are not initialised by it.  It builds [upload_results_] and
    [upload_jobs_] with a maximal length of 1000 and [queue_was_flushed_]
    with a maximal length of 1: see [has_room]. *)
Definition SessionContext_new
    (objects_dispatched bytes_committed bytes_dispatched worker_terminate : Z)
  : SessionContext :=
  {| upload_results_ := [];
     api_url_ := ""; session_token_ := ""; key_id_ := ""; secret_ := "";
     drop_lease_ := true;
     queue_was_flushed_ := [];
     max_pack_size_ := kDefaultLimit;
     active_handles_ := [];
     current_pack_ := None;
     objects_dispatched_ := objects_dispatched;
     bytes_committed_ := bytes_committed;
     bytes_dispatched_ := bytes_dispatched;
     upload_jobs_ := [];
     worker_terminate_ := worker_terminate;
     worker_ := NotStarted;
     futures_ := [];
     next_handle_ := 1%positive |}.

Definition NumJobsSubmitted (s : SessionContext) : Z := objects_dispatched_ s.

Definition ShouldTerminate (s : SessionContext) : bool :=
  negb (worker_terminate_ s =? 0).

(** [pthread_create] is the value returned by the system call. *)
Definition InitializeDerived (pthread_create : Z) (s : SessionContext)
  : bool * SessionContext :=
  let s := set_worker_terminate 0 s in
  let s := set_upload_jobs [] s in
  let s := if pthread_create =? 0 then set_worker (Running 0) s else s in
  (pthread_create =? 0, s).

(** [lock_initialized] tells whether the four calls that set up
    [current_pack_mtx_] all returned 0. *)
Definition Initialize (lock_initialized : bool) (pthread_create : Z)
    (api_url session_token key_id secret : string) (drop_lease : bool)
    (max_pack_size : Z) (s : SessionContext) : bool * SessionContext :=
  if negb lock_initialized then (false, s)
  else
    let s :=
      {| upload_results_ := [];
         api_url_ := api_url; session_token_ := session_token;
         key_id_ := key_id; secret_ := secret;
         drop_lease_ := drop_lease;
         queue_was_flushed_ := [true];
         max_pack_size_ := max_pack_size;
         active_handles_ := active_handles_ s;
         current_pack_ := current_pack_ s;
         objects_dispatched_ := 0;
         bytes_committed_ := 0;
         bytes_dispatched_ := 0;
         upload_jobs_ := upload_jobs_ s;
         worker_terminate_ := worker_terminate_ s;
         worker_ := worker_ s;
         futures_ := futures_ s;
         next_handle_ := next_handle_ s |} in
    let ret := match current_pack_ s with Some _ => false | None => true end in
    let '(derived, s) := InitializeDerived pthread_create s in
    (derived && ret, s).

(** [DispatchObjectPack] and [Dispatch] for channels that have room: the
    job is put at the end of [upload_jobs_], its future at the end of
    [upload_results_].  On a full channel [Enqueue] waits, for ever in the
    case of [upload_results_]: see [has_room]. *)
Definition DispatchObjectPack (p : ObjectPack.t) (s : SessionContext)
  : Future * SessionContext :=
  let '(future, s) := Future_new s in
  let job := {| pack := p; result := future |} in
  (future, set_upload_jobs (upload_jobs_ s ++ [job]) s).

Definition Dispatch (s : SessionContext) : SessionContext :=
  match current_pack_ s with
  | None => s
  | Some p =>
      let s := set_objects_dispatched (s64 (objects_dispatched_ s + 1)) s in
      let s := set_bytes_dispatched
                 (u64 (bytes_dispatched_ s + ObjectPack.size p)) s in
      let '(future, s) := DispatchObjectPack p s in
      set_upload_results (upload_results_ s ++ [future]) s
  end.

Definition NewBucket (s : SessionContext)
  : ObjectPack.BucketHandle * SessionContext :=
  let p := match current_pack_ s with
           | Some p => p
           | None => ObjectPack.create (max_pack_size_ s)
           end in
  let hd := next_handle_ s in
  let s := set_next_handle (Pos.succ hd) s in
  let s := set_current_pack (Some (ObjectPack.NewBucket hd p)) s in
  (hd, set_active_handles (active_handles_ s ++ [hd]) s).

(** A producer appends to one of its open buckets, which lives in the
    current pack. *)
Definition WriteBucket (hd : ObjectPack.BucketHandle) (data : list byte)
    (s : SessionContext) : outcome SessionContext :=
  match current_pack_ s with
  | None => Undefined
  | Some p =>
      match ObjectPack.Write hd data p with
      | None => Undefined
      | Some p' => Ret (set_current_pack (Some p') s)
      end
  end.

(** The loop over [active_handles_] in the branch of a full pack. *)
Fixpoint transfer_buckets (handles : list ObjectPack.BucketHandle)
    (p new_pack : ObjectPack.t) : option (ObjectPack.t * ObjectPack.t) :=
  match handles with
  | [] => Some (p, new_pack)
  | hd :: handles' =>
      match ObjectPack.TransferBucket hd p new_pack with
      | None => None
      | Some (p', new_pack') => transfer_buckets handles' p' new_pack'
      end
  end.

(** [fuel] bounds the depth of the recursive call. *)
Fixpoint CommitBucket (fuel : nat) (type : ObjectPack.BucketContentType)
    (hash : Any) (hd : ObjectPack.BucketHandle) (nm : string)
    (force_dispatch : bool) (s : SessionContext)
  : outcome (bool * SessionContext) :=
  match fuel with
  | O => OutOfFuel
  | S fuel' =>
      match current_pack_ s with
      | None => Ret (false, s)
      | Some p =>
          let size0 := ObjectPack.size p in
          match ObjectPack.CommitBucket type hash hd nm p with
          | None => Undefined
          | Some (true, p') =>
              let s := set_current_pack (Some p') s in
              let s := set_active_handles
                         (filter (fun h => h ≠ hd) (active_handles_ s)) s in
              let size1 := ObjectPack.size p' in
              let s := set_bytes_committed
                         (u64 (bytes_committed_ s + (size1 - size0))) s in
              let s := if force_dispatch
                       then set_current_pack None (Dispatch s) else s in
              Ret (true, s)
          | Some (false, p') =>
              let new_pack := ObjectPack.create (max_pack_size_ s) in
              match transfer_buckets (active_handles_ s) p' new_pack with
              | None => Undefined
              | Some (p'', new_pack') =>
                  let s := set_current_pack (Some p'') s in
                  let s := Dispatch s in
                  let s := set_current_pack (Some new_pack') s in
                  '(_, s) ← CommitBucket fuel' type hash hd nm false s;
                  Ret (true, s)
              end
          end
      end
  end.

(** *** The upload worker *)

(** The inner loop of [UploadLoop].  [queued] is the content of
    [upload_jobs_]; [net] gives the behaviour of the transport for the
    n-th job.  The value of [DoUpload] is not used. *)
Fixpoint UploadLoop_jobs (net : Z -> Curl) (queued : list UploadJob)
    (jobs_processed : Z) (s : SessionContext)
  : outcome (Z * SessionContext) :=
  if jobs_processed <? NumJobsSubmitted s then
    match queued with
    | [] => Blocked
    | job :: queued' =>
        let s := set_upload_jobs queued' s in
        let _ := DoUpload (net jobs_processed) s job in
        s ← Future_Set (result job) true s;
        UploadLoop_jobs net queued' (s64 (jobs_processed + 1)) s
    end
  else Ret (jobs_processed, s).

(** One pass of the outer loop of [UploadLoop], from the test of
    [ShouldTerminate] on. *)
Definition UploadLoop (net : Z -> Curl) (s : SessionContext)
  : outcome SessionContext :=
  match worker_ s with
  | Running jobs_processed =>
      if ShouldTerminate s then Ret (set_worker Exited s)
      else
        '(jobs_processed, s) ← UploadLoop_jobs net (upload_jobs_ s) jobs_processed s;
        let s := match queue_was_flushed_ s with
                 | [] => set_queue_was_flushed [true] s
                 | _ :: _ => s
                 end in
        Ret (set_worker (Running jobs_processed) s)
  | NotStarted | Exited => Ret s
  end.

(** [Future::Get] waits until the future is set: a caller that finds it
    unset lets the worker make a pass first. *)
Definition Future_Get (net : Z -> Curl) (f : Future) (s : SessionContext)
  : outcome (bool * SessionContext) :=
  match Future_value f s with
  | Some v => Ret (v, s)
  | None =>
      s ← UploadLoop net s;
      match Future_value f s with
      | Some v => Ret (v, s)
      | None => Blocked
      end
  end.

Definition FinalizeDerived (s : SessionContext) : bool * SessionContext :=
  let s := set_worker_terminate 1 s in
  (* pthread_join: the worker sees the flag and returns *)
  let s := match worker_ s with
           | Running _ => set_worker Exited s
           | NotStarted | Exited => s
           end in
  (true, s).

Definition DropLease (s : SessionContext) : bool * SessionContext := (true, s).

(** [WaitForUpload]: [Dequeue] on an empty [queue_was_flushed_] waits for
    the worker to signal. *)
Definition WaitForUpload (net : Z -> Curl) (s : SessionContext)
  : outcome SessionContext :=
  match upload_results_ s with
  | [] => Ret s
  | _ :: _ =>
      s ← (match queue_was_flushed_ s with
           | [] => UploadLoop net s
           | _ :: _ => Ret s
           end);
      match queue_was_flushed_ s with
      | [] => Blocked
      | _ :: flushed => Ret (set_queue_was_flushed flushed s)
      end
  end.

(** The loop of [Finalize] that collects the results; [queue] is the
    content of [upload_results_]. *)
Fixpoint collect_results (net : Z -> Curl) (queue : list Future)
    (results : bool) (jobs_finished : Z) (s : SessionContext)
  : outcome (bool * Z * SessionContext) :=
  match queue with
  | [] =>
      if jobs_finished <? NumJobsSubmitted s then Blocked
      else Ret (results, jobs_finished, s)
  | future :: queue' =>
      let s := set_upload_results queue' s in
      '(v, s) ← Future_Get net future s;
      collect_results net queue' (v && results) (s64 (jobs_finished + 1)) s
  end.

(** The first block of [Finalize]: a last pack with objects is dispatched. *)
Definition dispatch_last_pack (s : SessionContext) : SessionContext :=
  match current_pack_ s with
  | Some p =>
      if 0 <? ObjectPack.GetNoObjects p
      then set_current_pack None (Dispatch s) else s
  | None => s
  end.

Definition Finalize (net : Z -> Curl) (s : SessionContext)
  : outcome (bool * SessionContext) :=
  match active_handles_ s with
  | _ :: _ => AssertFailed
  | [] =>
      let s := dispatch_last_pack s in
      '(results, jobs_finished, s) ← collect_results net (upload_results_ s) true 0 s;
      let s := if drop_lease_ s then snd (DropLease s) else s in
      let '(derived, s) := FinalizeDerived s in
      Ret (derived && (bytes_committed_ s =? bytes_dispatched_ s) && results, s)
  end.

End Session.

(** ** Invariants of a running session *)

(** The members that only the producer side writes. *)
Definition accounts (s : SessionContext) :=
  (credentials s, drop_lease_ s, max_pack_size_ s, active_handles_ s,
   current_pack_ s, objects_dispatched_ s, bytes_committed_ s,
   bytes_dispatched_ s, worker_terminate_ s, next_handle_ s).

(** The worker is inside its loop, has one queued job for each dispatched
    pack it has not processed, and the futures of the queued jobs are
    distinct and not set. *)
Record worker_ready (s : SessionContext) : Prop := {
  ready_running :
    exists jobs_processed,
      worker_ s = Running jobs_processed /\ 0 <= jobs_processed /\
      jobs_processed + Z.of_nat (length (upload_jobs_ s)) = objects_dispatched_ s;
  ready_no_wrap : objects_dispatched_ s < 2 ^ 63;
  ready_flag : worker_terminate_ s = 0;
  ready_unset :
    forall job, job ∈ upload_jobs_ s -> futures_ s !! result job = Some None;
  ready_distinct : NoDup (map result (upload_jobs_ s))
}.

(** Every dispatched pack has its future in [upload_results_]: first those
    of the jobs the worker has completed, then those of the queued jobs. *)
Record session_ready (s : SessionContext) : Prop := {
  ready_worker : worker_ready s;
  ready_count : objects_dispatched_ s = Z.of_nat (length (upload_results_ s));
  ready_results :
    exists completed,
      upload_results_ s = completed ++ map result (upload_jobs_ s) /\
      forall f, f ∈ completed -> is_Some (Future_value f s)
}.

(** Whether the future holds the value true. *)
Definition succeeded (s : SessionContext) (f : Future) : bool :=
  bool_decide (Future_value f s = Some true).

(** The active handles are distinct and are exactly the buckets open in the
    current pack. *)
Definition handles_open (s : SessionContext) : Prop :=
  NoDup (active_handles_ s) /\
  match current_pack_ s with
  | Some p =>
      forall hd, hd ∈ active_handles_ s <->
                 is_Some (ObjectPack.open_buckets_ p !! hd)
  | None => active_handles_ s = []
  end.

(** ** The capacity of the channels

    [upload_results_] and [upload_jobs_] are built with a maximal length of
    1000.  [Enqueue] waits while the channel holds that many elements.  The
    worker takes the jobs out of [upload_jobs_]; the results are taken out
    of [upload_results_] by [Finalize] alone, so that a [Dispatch] with 1000
    results pending does not return.  [Dispatch] above is the call that
    finds room in both channels. *)
Definition channel_capacity : Z := 1000.

Definition has_room (s : SessionContext) : Prop :=
  Z.of_nat (length (upload_results_ s)) < channel_capacity /\
  Z.of_nat (length (upload_jobs_ s)) < channel_capacity.

(** ** Sequences of calls on a session *)

Inductive Op : Type :=
| ONewBucket
| OWrite (hd : ObjectPack.BucketHandle) (data : list byte)
| OCommitBucket (type : ObjectPack.BucketContentType) (hash : Any)
    (hd : ObjectPack.BucketHandle) (nm : string) (force_dispatch : bool)
| OWaitForUpload
| OUploadLoop
| OFinalize.

Section Calls.

Context `{Collaborators}.

Definition exec (fuel : nat) (net : Z -> Curl) (op : Op) (s : SessionContext)
  : outcome SessionContext :=
  match op with
  | ONewBucket => Ret (snd (NewBucket s))
  | OWrite hd data => WriteBucket hd data s
  | OCommitBucket type hash hd nm force_dispatch =>
      '(_, s) ← CommitBucket fuel type hash hd nm force_dispatch s; Ret s
  | OWaitForUpload => WaitForUpload net s
  | OUploadLoop => UploadLoop net s
  | OFinalize => '(_, s) ← Finalize net s; Ret s
  end.

Fixpoint run (fuel : nat) (net : Z -> Curl) (ops : list Op)
    (s : SessionContext) : outcome SessionContext :=
  match ops with
  | [] => Ret s
  | op :: ops' => s ← exec fuel net op s; run fuel net ops' s
  end.

End Calls.

(** The committed buckets of the packs waiting in [upload_jobs_], and those
    together with the buckets committed to the current pack. *)
Definition dispatched_objects (s : SessionContext) : list ObjectPack.Bucket :=
  concat (map (fun job => ObjectPack.buckets_ (pack job)) (upload_jobs_ s)).

Definition committed_objects (s : SessionContext) : list ObjectPack.Bucket :=
  dispatched_objects s ++
  match current_pack_ s with
  | Some p => ObjectPack.buckets_ p
  | None => []
  end.

(** ** The packs handed to the transport

    The jobs for which the inner loop of [UploadLoop] calls [DoUpload], in
    the order of the calls; the worker deletes the pack of a job after the
    call. *)
Fixpoint UploadLoop_jobs_uploads (queued : list UploadJob) (jobs_processed : Z)
    (s : SessionContext) : list UploadJob :=
  if jobs_processed <? NumJobsSubmitted s then
    match queued with
    | [] => []
    | job :: queued' =>
        let s := set_upload_jobs queued' s in
        job ::
        match Future_Set (result job) true s with
        | Ret s => UploadLoop_jobs_uploads queued' (s64 (jobs_processed + 1)) s
        | _ => []
        end
    end
  else [].

Definition UploadLoop_uploads (s : SessionContext) : list UploadJob :=
  match worker_ s with
  | Running jobs_processed =>
      if ShouldTerminate s then []
      else UploadLoop_jobs_uploads (upload_jobs_ s) jobs_processed s
  | NotStarted | Exited => []
  end.

(** The jobs handed to [DoUpload] during a call of the producers or a pass
    of the worker ([WaitForUpload] lets the worker make a pass when it finds
    no token). *)
Definition exec_uploads (op : Op) (s : SessionContext) : list UploadJob :=
  match op with
  | OUploadLoop => UploadLoop_uploads s
  | OWaitForUpload =>
      match upload_results_ s, queue_was_flushed_ s with
      | _ :: _, [] => UploadLoop_uploads s
      | _, _ => []
      end
  | _ => []
  end.

Section Uploads.

Context `{Collaborators}.

Fixpoint run_uploads (fuel : nat) (net : Z -> Curl) (ops : list Op)
    (s : SessionContext) : list UploadJob :=
  match ops with
  | [] => []
  | op :: ops' =>
      exec_uploads op s ++
      match exec fuel net op s with
      | Ret s' => run_uploads fuel net ops' s'
      | _ => []
      end
  end.

End Uploads.

(** The committed buckets of a list of jobs. *)
Definition objects_of (jobs : list UploadJob) : list ObjectPack.Bucket :=
  concat (map (fun job => ObjectPack.buckets_ (pack job)) jobs).

(** ** The reference account of the producers' calls

    What rotation safety promises, written without packs: the buckets that
    are open with the bytes written to each, the objects committed so far in
    commit order, and the next handle.  A call is accepted when its handle is
    open, when the committed bucket is no larger than the ceiling, and when a
    forced dispatch leaves no other bucket open. *)
Record Ledger : Type := mkLedger {
  ledger_open : gmap ObjectPack.BucketHandle (list byte);
  ledger_committed : list ObjectPack.Bucket;
  ledger_next : ObjectPack.BucketHandle
}.

Definition ledger_step (ceiling : Z) (op : Op) (l : Ledger) : option Ledger :=
  match op with
  | ONewBucket =>
      Some {| ledger_open := <[ledger_next l := []]> (ledger_open l);
              ledger_committed := ledger_committed l;
              ledger_next := Pos.succ (ledger_next l) |}
  | OWrite hd data =>
      match ledger_open l !! hd with
      | None => None
      | Some c =>
          Some {| ledger_open := <[hd := c ++ data]> (ledger_open l);
                  ledger_committed := ledger_committed l;
                  ledger_next := ledger_next l |}
      end
  | OCommitBucket type hash hd nm force_dispatch =>
      match ledger_open l !! hd with
      | None => None
      | Some c =>
          if ceiling <? ObjectPack.bucket_size c then None
          else if force_dispatch &&
                  negb (bool_decide (delete hd (ledger_open l) = ∅))
          then None
          else
            Some {| ledger_open := delete hd (ledger_open l);
                    ledger_committed :=
                      ledger_committed l ++
                      [ObjectPack.mkBucket hd c type hash nm];
                    ledger_next := ledger_next l |}
      end
  | OWaitForUpload | OUploadLoop | OFinalize => None
  end.

Fixpoint ledger_run (ceiling : Z) (ops : list Op) (l : Ledger) : option Ledger :=
  match ops with
  | [] => Some l
  | op :: ops' =>
      match ledger_step ceiling op l with
      | None => None
      | Some l' => ledger_run ceiling ops' l'
      end
  end.

(** The account of a schedule: the calls of the producers with passes of
    the worker and calls of [WaitForUpload] between them, which change
    nothing in the account. *)
Definition schedule_step (ceiling : Z) (op : Op) (l : Ledger) : option Ledger :=
  match op with
  | OWaitForUpload | OUploadLoop => Some l
  | _ => ledger_step ceiling op l
  end.

Fixpoint schedule_run (ceiling : Z) (ops : list Op) (l : Ledger) : option Ledger :=
  match ops with
  | [] => Some l
  | op :: ops' =>
      match schedule_step ceiling op l with
      | None => None
      | Some l' => schedule_run ceiling ops' l'
      end
  end.



(** The session holds what the account says. *)
Record accounts_for (s : SessionContext) (l : Ledger) : Prop := {
  af_committed : committed_objects s = ledger_committed l;
  af_next : next_handle_ s = ledger_next l;
  af_active : NoDup (active_handles_ s);
  af_handles : forall hd, hd ∈ active_handles_ s <-> is_Some (ledger_open l !! hd);
  af_open :
    match current_pack_ s with
    | Some p => ObjectPack.open_buckets_ p = ledger_open l
    | None => ledger_open l = ∅
    end
}.

(** The handles of an account are below the next handle, and no handle is
    both open and committed or committed twice. *)
Record ledger_wf (l : Ledger) : Prop := {
  lw_open : forall hd, is_Some (ledger_open l !! hd) -> (hd < ledger_next l)%positive;
  lw_committed :
    forall b, b ∈ ledger_committed l ->
              (ObjectPack.handle b < ledger_next l)%positive /\
              ledger_open l !! ObjectPack.handle b = None;
  lw_distinct : NoDup (map ObjectPack.handle (ledger_committed l))
}.

(** ** Sample collaborators and transports *)

(** Transparent stand-ins for the encoders and hashes, to run the model. *)
Definition sample_collaborators : Collaborators :=
  {| Base64 := fun s => "b64(" +:+ s +:+ ")";
     StringifyInt := fun z => pretty z;
     AnyToString := fun a _ => string_of_list_byte a;
     HmacString := fun k c => list_byte_of_string (k +:+ "/" +:+ c);
     PackDigest := fun p => [];
     Serialize := fun p =>
       concat (map ObjectPack.content (ObjectPack.buckets_ p));
     APIVersion := 2;
     VERSION := "2.5";
     kDefaultLimit := 200 * 1024 * 1024 |}.

(** A gateway that accepts every payload: the ok status arrives in one
    chunk, and a NUL byte happens to lie behind it. *)
Definition accepting : Z -> Curl :=
  fun _ => mkCurl true
             (fun _ => (0, [mkChunk (list_byte_of_string status_ok) [x00]])).

(** A transport that cannot connect: [CURLE_COULDNT_CONNECT] and no reply. *)
Definition refused : Z -> Curl := fun _ => mkCurl true (fun _ => (7, [])).

(** A session initialised with a ceiling of 100 bytes. *)
Definition sample_session : SessionContext :=
  snd (Initialize true 0 "https://gw/api/v1" "token" "key" "secret" true 100
         (@SessionContext_new sample_collaborators 0 0 0 0)).

Definition bytes_of (n : nat) : list byte := repeat x00 n.

(** ** The states a commit leads to *)

(** The pack after the commit of the open bucket [hd] with bytes [c]. *)
Definition committed_pack (type : ObjectPack.BucketContentType) (hash : Any)
    (hd : ObjectPack.BucketHandle) (nm : string) (c : list byte)
    (p : ObjectPack.t) : ObjectPack.t :=
  {| ObjectPack.limit_ := ObjectPack.limit_ p;
     ObjectPack.size_ := ObjectPack.size_ p + ObjectPack.bucket_size c;
     ObjectPack.open_buckets_ := delete hd (ObjectPack.open_buckets_ p);
     ObjectPack.buckets_ :=
       ObjectPack.buckets_ p ++ [ObjectPack.mkBucket hd c type hash nm] |}.

(** The session after a commit that the current pack [p] accepted. *)
Definition after_commit (type : ObjectPack.BucketContentType) (hash : Any)
    (hd : ObjectPack.BucketHandle) (nm : string) (c : list byte)
    (p : ObjectPack.t) (s : SessionContext) : SessionContext :=
  set_bytes_committed
    (u64 (bytes_committed_ s +
          (ObjectPack.size (committed_pack type hash hd nm c p) - ObjectPack.size p)))
    (set_active_handles (filter (fun h => h ≠ hd) (active_handles_ s))
       (set_current_pack (Some (committed_pack type hash hd nm c p)) s)).

(** The session after the rotation of the full pack [p]: the pack, without
    its open buckets, is dispatched and a new pack holds the open buckets. *)
Definition after_rotation (p : ObjectPack.t) (s : SessionContext) : SessionContext :=
  set_current_pack
    (Some (ObjectPack.mkPack (max_pack_size_ s) 0 (ObjectPack.open_buckets_ p) []))
    (Dispatch
       (set_current_pack
          (Some (ObjectPack.mkPack (ObjectPack.limit_ p) (ObjectPack.size_ p) ∅
                   (ObjectPack.buckets_ p))) s)).

(** The bytes of the bucket [hd] if it is open in the current pack. *)
Definition open_bucket (s : SessionContext) (hd : ObjectPack.BucketHandle)
  : option (list byte) :=
  match current_pack_ s with
  | Some p => ObjectPack.open_buckets_ p !! hd
  | None => None
  end.

(** ** Sample sessions *)

(** The sample session after a sequence of calls. *)
Definition state_after (ops : list Op) : SessionContext :=
  match @run sample_collaborators 2 accepting ops sample_session with
  | Ret s => s
  | _ => sample_session
  end.

Definition commit (hd : ObjectPack.BucketHandle) (force_dispatch : bool) : Op :=
  OCommitBucket ObjectPack.kRegular [] hd "" force_dispatch.

(** Two objects of 40 bytes are committed under the ceiling of 100 bytes
    and a third bucket of 40 bytes is open. *)
Definition third_bucket_open : list Op :=
  [ ONewBucket; OWrite 1 (bytes_of 40); commit 1 false;
    ONewBucket; OWrite 2 (bytes_of 40); commit 2 false;
    ONewBucket; OWrite 3 (bytes_of 40) ].

(** The pack holds 60 bytes and a bucket of 150 bytes, larger than the
    ceiling of 100 bytes, is open. *)
Definition oversize_bucket_open : list Op :=
  [ ONewBucket; OWrite 1 (bytes_of 60); commit 1 false;
    ONewBucket; OWrite 2 (bytes_of 150) ].

(** Two buckets are opened and the first is committed with a forced
    dispatch. *)
Definition forced_dispatch : list Op :=
  [ ONewBucket; ONewBucket; OWrite 1 (bytes_of 10); commit 1 true ].

(** A bucket is opened and partly written; two commits of 60 bytes follow,
    the second one rotating the pack; then the first bucket is written to
    again and committed. *)
Definition rotation_with_open_bucket : list Op :=
  [ ONewBucket; OWrite 1 [x61; x62; x63];
    ONewBucket; OWrite 2 (bytes_of 60); commit 2 false;
    ONewBucket; OWrite 3 (bytes_of 60); commit 3 false;
    OWrite 1 [x64; x65]; commit 1 false ].

(** The account of a sequence of calls on the sample session. *)
Definition ledger_after (ops : list Op) : Ledger :=
  match ledger_run 100 ops (mkLedger ∅ [] 1) with
  | Some l => l
  | None => mkLedger ∅ [] 1
  end.

(** A whole session: the calls above, then a wait for the upload, a pass of
    the worker, and [Finalize]. *)
Definition whole_session : list Op :=
  rotation_with_open_bucket ++ [OWaitForUpload; OUploadLoop; OFinalize].

(** Three objects of 40 bytes are committed under the ceiling of 100 bytes. *)
Definition three_commits : list Op := third_bucket_open ++ [commit 3 false].

(** What the readiness of a session depends on. *)
Definition worker_view (s : SessionContext) :=
  (upload_results_ s, upload_jobs_ s, objects_dispatched_ s,
   worker_terminate_ s, worker_ s, futures_ s).


(** ** The books of a session *)

(** The committed size of the current pack, 0 without a pack. *)
Definition pack_size (s : SessionContext) : Z :=
  match current_pack_ s with
  | Some p => ObjectPack.size p
  | None => 0
  end.

(** The sum of the sizes of committed buckets. *)
Definition bucket_sizes (buckets : list ObjectPack.Bucket) : Z :=
  foldr (fun b n => ObjectPack.bucket_size (ObjectPack.content b) + n) 0 buckets.

(** The byte counters agree with the packs: what was committed is what was
    dispatched plus what the current pack holds, and the size of the current
    pack is the size of its committed buckets. *)
Record books_balanced (s : SessionContext) : Prop := {
  bb_committed : bytes_committed_ s = u64 (bytes_dispatched_ s + pack_size s);
  bb_range : 0 <= bytes_dispatched_ s < 2 ^ 64;
  bb_pack :
    match current_pack_ s with
    | Some p => ObjectPack.size_ p = bucket_sizes (ObjectPack.buckets_ p)
    | None => True
    end
}.

(** No future waiting in [upload_results_] holds false. *)
Definition no_failed_result (s : SessionContext) : Prop :=
  forall f, f ∈ upload_results_ s -> Future_value f s <> Some false.

(** The calls made by the producers. *)
Definition producer_op (op : Op) : bool :=
  match op with
  | ONewBucket | OWrite _ _ | OCommitBucket _ _ _ _ _ => true
  | OWaitForUpload | OUploadLoop | OFinalize => false
  end.

(** The calls of [rotation_with_open_bucket], a wait for the upload and a
    pass of the worker. *)
Definition busy_session : list Op :=
  rotation_with_open_bucket ++ [OWaitForUpload; OUploadLoop].

(** Whether a future holding a value holds true: the value of a future never
    becomes false between the two states. *)
Definition never_false (s s' : SessionContext) : Prop :=
  forall f, Future_value f s <> Some false -> Future_value f s' <> Some false.

(** What only the worker, [WaitForUpload] and the two lifecycle calls
    write. *)
Definition idle_view (s : SessionContext) :=
  (queue_was_flushed_ s, worker_ s, worker_terminate_ s).

(** The current pack of the sample session after [third_bucket_open]. *)
Definition third_bucket_pack : ObjectPack.t :=
  ObjectPack.mkPack 100 80 {[ 3%positive := bytes_of 40 ]}
    [ ObjectPack.mkBucket 1 (bytes_of 40) ObjectPack.kRegular [] "";
      ObjectPack.mkBucket 2 (bytes_of 40) ObjectPack.kRegular [] "" ].

(** A session whose worker thread could not be created ([EAGAIN]) and which
    is used regardless: one object of 10 bytes is committed. *)
Definition unstarted_session : SessionContext :=
  snd (Initialize true 11 "https://gw/api/v1" "token" "key" "secret" true 100
         (@SessionContext_new sample_collaborators 0 0 0 0)).

Definition stalled_session : SessionContext :=
  match @run sample_collaborators 2 accepting
          [ONewBucket; OWrite 1 (bytes_of 10); commit 1 false] unstarted_session with
  | Ret s => s
  | _ => unstarted_session
  end.

(** What the write callback finds at the address of a chunk that holds the
    ok status: the chunk, a NUL byte and whatever follows. *)
Definition status_ok_chunk : list byte :=
  list_byte_of_string status_ok ++ [x00; x41].

(** Two buckets are open and 10 bytes are written to the first. *)
Definition two_buckets_open : list Op :=
  [ ONewBucket; ONewBucket; OWrite 1 (bytes_of 10) ].

(** The current pack of the sample session after [two_buckets_open]. *)
Definition two_buckets_pack : ObjectPack.t :=
  ObjectPack.mkPack 100 0 {[ 1%positive := bytes_of 10; 2%positive := [] ]} [].

(** Three objects of 60 bytes are committed under the ceiling of 100 bytes;
    the worker makes a pass after the second commit, which has dispatched
    the pack of the first object, and the producer waits for the upload
    after the third. *)
Definition worker_between_commits : list Op :=
  [ ONewBucket; OWrite 1 (bytes_of 60); commit 1 false;
    ONewBucket; OWrite 2 (bytes_of 60); commit 2 false;
    OUploadLoop;
    ONewBucket; OWrite 3 (bytes_of 60); commit 3 false;
    OWaitForUpload ].

(** The account of a schedule on the sample session. *)
Definition schedule_after (ops : list Op) : Ledger :=
  match schedule_run 100 ops (mkLedger ∅ [] 1) with
  | Some l => l
  | None => mkLedger ∅ [] 1
  end.
(** * Properties *)

(** ** Strings and the copy loop *)

Lemma string_length_app (a b : string) :
  String.length (a +:+ b) = (String.length a + String.length b)%nat.
Proof. induction a as [|c a IH]; simpl; [reflexivity | f_equal; exact IH]. Qed.

Lemma split_at_app (a b : string) :
  split_at (String.length a) (a +:+ b) = (a, b).
Proof.
  induction a as [|c a IH]; simpl.
  - destruct b; reflexivity.
  - rewrite IH. reflexivity.
Qed.

Lemma strip_prefix_app (p s : string) : strip_prefix p (p +:+ s) = Some s.
Proof.
  induction p as [|c p IH]; simpl.
  - destruct s; reflexivity.
  - rewrite Ascii.eqb_refl. exact IH.
Qed.

Lemma buffer_size_pos : (0 < buffer_size)%nat.
Proof. apply Nat.ltb_lt. vm_compute. reflexivity. Qed.

(** The copy loop appends the whole serialization, whatever the number of
    buffers it takes. *)
Lemma copy_payload_all (p : ObjectPackProducer) (acc : list byte) :
  copy_payload p acc = acc ++ pending p.
Proof.
  funelim (copy_payload p acc).
  - rewrite H. cbn [ProduceNext fst snd pending].
    rewrite <- app_assoc, take_drop. reflexivity.
  - clear Heqcall H. apply Nat.ltb_ge in e.
    cbn [ProduceNext fst snd pending] in *.
    rewrite length_take in e. pose proof buffer_size_pos.
    destruct (pending serializer) as [|b l];
      [reflexivity | cbn [length] in e; lia].
Qed.

Section WireProtocol.

Context `{Collaborators}.

Lemma payload_is_serialization (job : UploadJob) :
  payload job = Serialize (pack job).
Proof. unfold payload. rewrite copy_payload_all. reflexivity. Qed.

(** [DoUpload] returns true exactly when a curl handle was obtained,
    [curl_easy_perform] returned 0 and the write callback left the ok
    status, and nothing else, in [reply]. *)
Lemma DoUpload_compares_reply (curl : Curl) (s : SessionContext) (job : UploadJob) :
  DoUpload curl s job = true <->
  curl_easy_init curl = true /\
  curl_easy_perform curl (request s job) RecvCB "" = (0, status_ok).
Proof.
  unfold DoUpload. destruct (curl_easy_init curl); cbn [negb].
  - destruct (curl_easy_perform curl (request s job) RecvCB "") as [ret reply].
    rewrite andb_true_iff, String.eqb_eq, Z.eqb_eq.
    split.
    + intros [-> ->]. split; reflexivity.
    + intros [_ [= -> ->]]. split; reflexivity.
  - split; [discriminate | intros [? _]; discriminate].
Qed.

(** C5 (failing input): the gateway answers with the 15 bytes of the ok
    status and the transfer returns 0.  When the body arrives in one chunk
    [DoUpload] returns true.  When the same body arrives in two chunks of
    10 and 5 bytes the write callback takes both, [reply] holds the second
    chunk alone and [DoUpload] returns false; and a body of 19 bytes whose
    last chunk is the ok status makes [DoUpload] return true.  The ok
    status followed by a space, in one chunk, gives false. *)
Theorem ok_response_in_two_chunks_rejected (s : SessionContext) (job : UploadJob) :
  let body := list_byte_of_string status_ok in
  let gateway := fun chunks => mkCurl true (fun _ => (0, chunks)) in
  length body = 15%nat /\
  DoUpload (gateway [mkChunk body [x00]]) s job = true /\
  curl_easy_perform
    (gateway [mkChunk (take 10 body) [x00]; mkChunk (drop 10 body) [x00]])
    (request s job) RecvCB ""
    = (0, dq +:+ "ok" +:+ dq +:+ "}") /\
  DoUpload (gateway [mkChunk (take 10 body) [x00]; mkChunk (drop 10 body) [x00]])
    s job = false /\
  DoUpload (gateway [mkChunk (list_byte_of_string "junk") [x00]; mkChunk body [x00]])
    s job = true /\
  DoUpload (gateway [mkChunk (list_byte_of_string (status_ok +:+ " ")) [x00]])
    s job = false.
Proof.
  cbv zeta. unfold DoUpload, curl_easy_perform. cbn [curl_easy_init transfer negb].
  repeat (split; [vm_compute; reflexivity |]). vm_compute. reflexivity.
Qed.

(** C6: the Authorization header carries the key id, a space and the
    base64 text of the HMAC of the envelope under the session secret; the
    Message-Size header carries the length of the envelope, while the
    announced size of the body also counts the encoded pack. *)
Theorem upload_headers (s : SessionContext) (job : UploadJob) :
  HTTPHEADER (request s job) =
    [ "Authorization: " +:+ key_id_ s +:+ " " +:+
        Base64 (AnyToString (HmacString (secret_ s) (json_body s job)) false);
      "Message-Size: " +:+
        StringifyInt (Z.of_nat (String.length (json_body s job))) ] /\
  header_value "Authorization" (HTTPHEADER (request s job)) =
    Some (key_id_ s +:+ " " +:+
          Base64 (AnyToString (HmacString (secret_ s) (json_body s job)) false)) /\
  header_value "Message-Size" (HTTPHEADER (request s job)) =
    Some (StringifyInt (Z.of_nat (String.length (json_body s job)))) /\
  POSTFIELDSIZE_LARGE (request s job) =
    Z.of_nat (String.length (json_body s job)) +
    Z.of_nat (String.length (Base64 (string_of_list_byte (Serialize (pack job))))).
Proof.
  split; [reflexivity | split; [| split]].
  - cbn [request HTTPHEADER auth_header header_value].
    change ("Authorization" +:+ ": ") with "Authorization: ".
    rewrite strip_prefix_app. reflexivity.
  - cbn [request HTTPHEADER auth_header header_value].
    change ("Message-Size" +:+ ": ") with "Message-Size: ".
    rewrite strip_prefix_app. reflexivity.
  - cbn [request POSTFIELDSIZE_LARGE]. unfold payload_text.
    rewrite string_length_app, payload_is_serialization. lia.
Qed.

(** C7: the body of the POST is the envelope directly followed by the
    base64 text of the serialized pack; cutting the body after as many
    bytes as the envelope has gives back the two parts. *)
Theorem upload_body (s : SessionContext) (job : UploadJob) :
  POSTFIELDS (request s job) =
    json_body s job +:+ Base64 (string_of_list_byte (Serialize (pack job))) /\
  POSTFIELDSIZE_LARGE (request s job) =
    Z.of_nat (String.length (POSTFIELDS (request s job))) /\
  split_at (String.length (json_body s job)) (POSTFIELDS (request s job)) =
    (json_body s job, Base64 (string_of_list_byte (Serialize (pack job)))).
Proof.
  cbn [request POSTFIELDS POSTFIELDSIZE_LARGE]. unfold payload_text.
  rewrite payload_is_serialization, split_at_app. repeat split.
Qed.

End WireProtocol.

(** ** The assertion of [Finalize] *)

Section Asserts.

Context `{Collaborators}.

Lemma UploadLoop_jobs_no_assert net queued : forall jp s,
  UploadLoop_jobs net queued jp s <> AssertFailed.
Proof.
  induction queued as [|job queued IH]; intros jp s; cbn [UploadLoop_jobs].
  - destruct (jp <? NumJobsSubmitted s); discriminate.
  - destruct (jp <? NumJobsSubmitted _); [| discriminate].
    destruct (Future_Set _ _ _) as [s'| | | |] eqn:E; cbn; try discriminate.
    + apply IH.
    + unfold Future_Set in E. repeat case_match; discriminate.
Qed.

Lemma UploadLoop_no_assert net s : UploadLoop net s <> AssertFailed.
Proof.
  unfold UploadLoop. destruct (worker_ s); try discriminate.
  destruct (ShouldTerminate s); [discriminate |].
  pose proof (UploadLoop_jobs_no_assert net (upload_jobs_ s) jobs_processed s).
  destruct (UploadLoop_jobs _ _ _ _) as [[jp s']| | | |]; cbn; congruence.
Qed.

Lemma Future_Get_no_assert net f s : Future_Get net f s <> AssertFailed.
Proof.
  unfold Future_Get. destruct (Future_value f s); [discriminate |].
  pose proof (UploadLoop_no_assert net s).
  destruct (UploadLoop net s) as [s'| | | |]; cbn; try congruence.
  destruct (Future_value f s'); discriminate.
Qed.

Lemma collect_results_no_assert net queue : forall results jf s,
  collect_results net queue results jf s <> AssertFailed.
Proof.
  induction queue as [|f queue IH]; intros results jf s; cbn [collect_results].
  - destruct (jf <? NumJobsSubmitted s); discriminate.
  - pose proof (Future_Get_no_assert net f (set_upload_results queue s)).
    destruct (Future_Get _ _ _) as [[v s']| | | |]; cbn;
      [apply IH | congruence ..].
Qed.

(** C8: [Finalize] stops on its assertion exactly when a handle is still
    active; with an empty set of active handles the assertion does not
    fire. *)
Theorem Finalize_requires_no_active_handles net s :
  Finalize net s = AssertFailed <-> active_handles_ s <> [].
Proof.
  unfold Finalize. destruct (active_handles_ s) as [|hd handles].
  - split; [| congruence]. intros E. exfalso.
    pose proof (collect_results_no_assert net
                  (upload_results_ (dispatch_last_pack s)) true 0
                  (dispatch_last_pack s)) as N.
    destruct (collect_results _ _ _ _ _) as [[[r jf] s']| | | |];
      cbn in E; congruence.
  - split; [discriminate | reflexivity].
Qed.
End Asserts.

(** ** The worker and the results collected by [Finalize] *)

Lemma accounts_fields (s s' : SessionContext) :
  accounts s' = accounts s ->
  credentials s' = credentials s /\ drop_lease_ s' = drop_lease_ s /\
  objects_dispatched_ s' = objects_dispatched_ s /\
  bytes_committed_ s' = bytes_committed_ s /\
  bytes_dispatched_ s' = bytes_dispatched_ s.
Proof. unfold accounts. intros E. repeat split; congruence. Qed.

Lemma s64_small (x : Z) : - 2 ^ 63 <= x < 2 ^ 63 -> s64 x = x.
Proof. intros Hx. unfold s64. rewrite Z.mod_small; lia. Qed.

Section Worker.
Context `{Collaborators}.

Lemma Future_Set_inv f v s s' :
  Future_Set f v s = Ret s' ->
  futures_ s !! f = Some None /\
  s' = set_futures (<[f := Some v]> (futures_ s)) s.
Proof.
  unfold Future_Set. destruct (futures_ s !! f) as [[b|]|]; try discriminate.
  intros [= <-]. split; reflexivity.
Qed.

Lemma Future_Set_unset f v s :
  futures_ s !! f = Some None ->
  Future_Set f v s = Ret (set_futures (<[f := Some v]> (futures_ s)) s).
Proof. unfold Future_Set. intros ->. reflexivity. Qed.

Lemma Future_value_insert f g v s :
  futures_ s !! g = Some None ->
  Future_value f (set_futures (<[g := Some v]> (futures_ s)) s) =
  if decide (f = g) then Some v else Future_value f s.
Proof.
  intros Hg. unfold Future_value. cbn.
  destruct (decide (f = g)) as [->|Hne].
  - rewrite list_lookup_insert_eq; [reflexivity |].
    apply lookup_lt_Some in Hg. exact Hg.
  - rewrite list_lookup_insert_ne by congruence. reflexivity.
Qed.

(** What a run of the inner loop leaves untouched, and that a future once
    set keeps its value. *)
Lemma UploadLoop_jobs_inv net queued : forall jp s jp' s',
  UploadLoop_jobs net queued jp s = Ret (jp', s') ->
  accounts s' = accounts s /\ upload_results_ s' = upload_results_ s /\
  worker_ s' = worker_ s /\ queue_was_flushed_ s' = queue_was_flushed_ s /\
  (forall f v, Future_value f s = Some v -> Future_value f s' = Some v).
Proof.
  induction queued as [|job queued IH]; intros jp s jp' s'; cbn [UploadLoop_jobs].
  - destruct (jp <? NumJobsSubmitted s); [discriminate |].
    intros [= <- <-]. repeat split; auto.
  - destruct (jp <? NumJobsSubmitted _).
    2:{ intros [= <- <-]. repeat split; auto. }
    destruct (Future_Set _ _ _) as [s1| | | |] eqn:E; cbn; try discriminate.
    apply Future_Set_inv in E as [Hunset ->]. cbn in Hunset.
    intros E. apply IH in E as (Ha & Hr & Hw & Hq & Hm).
    repeat split; try assumption.
    intros f v Hf. apply Hm.
    rewrite (Future_value_insert f (result job) true (set_upload_jobs queued s))
      by exact Hunset.
    destruct (decide (f = result job)) as [->|Hne]; [| exact Hf].
    unfold Future_value in Hf. rewrite Hunset in Hf. discriminate.
Qed.

(** With a queued job for each unprocessed pack the inner loop processes
    all of them and sets their futures to true. *)
Lemma UploadLoop_jobs_ready net queued : forall jp s,
  0 <= jp ->
  jp + Z.of_nat (length queued) = objects_dispatched_ s ->
  objects_dispatched_ s < 2 ^ 63 ->
  NoDup (map result queued) ->
  (forall job, job ∈ queued -> futures_ s !! result job = Some None) ->
  upload_jobs_ s = queued ->
  exists s',
    UploadLoop_jobs net queued jp s = Ret (objects_dispatched_ s, s') /\
    upload_jobs_ s' = [] /\
    (forall job, job ∈ queued -> Future_value (result job) s' = Some true).
Proof.
  induction queued as [|job queued IH]; intros jp s Hjp Hn Hw Hd Hu Hq;
    cbn [UploadLoop_jobs].
  - cbn in Hn. unfold NumJobsSubmitted.
    replace (jp <? objects_dispatched_ s) with false
      by (symmetry; apply Z.ltb_ge; lia).
    exists s. split; [f_equal; f_equal; lia |]. split; [exact Hq |].
    intros job Hin. inversion Hin.
  - cbn [length] in Hn. unfold NumJobsSubmitted. cbn.
    replace (jp <? objects_dispatched_ s) with true
      by (symmetry; apply Z.ltb_lt; lia).
    assert (Hj : futures_ s !! result job = Some None)
      by (apply Hu; left).
    rewrite (Future_Set_unset (result job) true (set_upload_jobs queued s))
      by exact Hj.
    cbn. inversion Hd as [|? ? Hnotin Hd']; subst.
    set (s1 := set_futures _ _).
    destruct (IH (s64 (jp + 1)) s1) as (s' & Hrun & Hjobs & Hset).
    + rewrite s64_small; lia.
    + rewrite s64_small by lia. cbn. lia.
    + exact Hw.
    + exact Hd'.
    + intros job' Hin. cbn. rewrite list_lookup_insert_ne.
      * apply Hu. right. exact Hin.
      * intros Heq. apply Hnotin. rewrite Heq.
        apply list_elem_of_In, in_map, list_elem_of_In. exact Hin.
    + reflexivity.
    + exists s'. split; [exact Hrun |]. split; [exact Hjobs |].
      intros job' Hin. apply list_elem_of_In in Hin. destruct Hin as [<-|Hin].
      * apply UploadLoop_jobs_inv in Hrun as (_ & _ & _ & _ & Hm).
        apply Hm. subst s1.
        rewrite (Future_value_insert _ (result job) true (set_upload_jobs queued s))
          by exact Hj.
        rewrite decide_True; reflexivity.
      * apply Hset. apply list_elem_of_In. exact Hin.
Qed.

Lemma UploadLoop_inv net s s' :
  UploadLoop net s = Ret s' ->
  accounts s' = accounts s /\ upload_results_ s' = upload_results_ s /\
  (forall f v, Future_value f s = Some v -> Future_value f s' = Some v).
Proof.
  unfold UploadLoop. destruct (worker_ s) as [|jp|].
  - intros [= <-]. auto.
  - destruct (ShouldTerminate s); [intros [= <-]; auto |].
    destruct (UploadLoop_jobs _ _ _ _) as [[jp' s1]| | | |] eqn:E;
      cbn; try discriminate.
    apply UploadLoop_jobs_inv in E as (Ha & Hr & _ & _ & Hm).
    intros [= <-].
    destruct (queue_was_flushed_ s1); cbn; repeat split; auto.
  - intros [= <-]. auto.
Qed.

(** A pass of the worker in a ready session completes every queued job. *)
Lemma UploadLoop_ready net s :
  worker_ready s ->
  exists s',
    UploadLoop net s = Ret s' /\ worker_ready s' /\ upload_jobs_ s' = [] /\
    (forall job, job ∈ upload_jobs_ s -> Future_value (result job) s' = Some true).
Proof.
  intros [(jp & Hw & Hjp & Hn) Hwrap Hflag Hunset Hdist].
  destruct (UploadLoop_jobs_ready net (upload_jobs_ s) jp s)
    as (s1 & Hrun & Hjobs & Hset); try assumption; [reflexivity |].
  pose proof Hrun as Hinv.
  apply UploadLoop_jobs_inv in Hinv as (Ha & Hr & Hw1 & Hq & Hm).
  unfold UploadLoop. rewrite Hw. unfold ShouldTerminate. rewrite Hflag. cbn.
  rewrite Hrun. cbn.
  eexists. split; [reflexivity |].
  injection Ha as Hc Hdl Hmp Hah Hcp Hod Hbc Hbd Hwt Hnh.
  split; [| split].
  - destruct (queue_was_flushed_ s1); split; cbn; rewrite ?Hjobs; cbn;
      try (exists (objects_dispatched_ s); repeat split; lia);
      try lia; try congruence;
      try (intros job Hin; inversion Hin); try constructor.
  - destruct (queue_was_flushed_ s1); cbn; exact Hjobs.
  - intros job Hin. destruct (queue_was_flushed_ s1); cbn; apply Hset, Hin.
Qed.

Lemma succeeded_value f v s : Future_value f s = Some v -> succeeded s f = v.
Proof.
  intros E. unfold succeeded. rewrite E. destruct v.
  - apply bool_decide_eq_true. reflexivity.
  - apply bool_decide_eq_false. discriminate.
Qed.

Lemma Future_Get_set net f v s :
  Future_value f s = Some v -> Future_Get net f s = Ret (v, s).
Proof. unfold Future_Get. intros ->. reflexivity. Qed.

(** Collecting results whose futures are all set takes no step of the
    worker. *)
Lemma collect_results_set net queue : forall results jf s,
  (forall f, f ∈ queue -> is_Some (Future_value f s)) ->
  0 <= jf ->
  jf + Z.of_nat (length queue) = objects_dispatched_ s ->
  objects_dispatched_ s < 2 ^ 63 ->
  upload_results_ s = queue ->
  exists s',
    collect_results net queue results jf s =
      Ret (forallb (succeeded s') queue && results, objects_dispatched_ s, s') /\
    upload_results_ s' = [] /\ accounts s' = accounts s /\
    futures_ s' = futures_ s.
Proof.
  induction queue as [|f queue IH]; intros results jf s Hset Hjf Hn Hw Hq;
    cbn [collect_results].
  - cbn in Hn. unfold NumJobsSubmitted.
    replace (jf <? objects_dispatched_ s) with false
      by (symmetry; apply Z.ltb_ge; lia).
    exists s. cbn. repeat split; [do 3 f_equal; lia | exact Hq].
  - cbn [length] in Hn.
    destruct (Hset f) as [v Hv]; [left |].
    rewrite (Future_Get_set net f v (set_upload_results queue s)) by exact Hv.
    cbn.
    destruct (IH (v && results) (s64 (jf + 1)) (set_upload_results queue s))
      as (s' & Hrun & Hr & Ha & Hf).
    + intros g Hg. apply Hset. right. exact Hg.
    + rewrite s64_small; lia.
    + rewrite s64_small by lia. cbn. lia.
    + exact Hw.
    + reflexivity.
    + exists s'. cbn in Hrun. rewrite Hrun. repeat split; try assumption.
      do 3 f_equal. cbn [forallb].
      assert (E : succeeded s' f = v).
      { apply succeeded_value. unfold Future_value in *. rewrite Hf. exact Hv. }
      rewrite E. destruct v, (forallb _ _), results; reflexivity.
Qed.

Lemma worker_ready_results s queue :
  worker_ready s -> worker_ready (set_upload_results queue s).
Proof. intros [? ? ? ? ?]. split; assumption. Qed.

(** In a ready session [Finalize] collects one result for each
    dispatched pack, letting the worker complete the queued jobs. *)
Lemma collect_results_ready net completed : forall results jf s,
  worker_ready s ->
  (forall f, f ∈ completed -> is_Some (Future_value f s)) ->
  0 <= jf ->
  jf + Z.of_nat (length (completed ++ map result (upload_jobs_ s)))
    = objects_dispatched_ s ->
  upload_results_ s = completed ++ map result (upload_jobs_ s) ->
  exists s',
    collect_results net (completed ++ map result (upload_jobs_ s)) results jf s =
      Ret (forallb (succeeded s') (completed ++ map result (upload_jobs_ s))
             && results,
           objects_dispatched_ s, s') /\
    upload_results_ s' = [] /\ accounts s' = accounts s /\
    (forall f v, Future_value f s = Some v -> Future_value f s' = Some v) /\
    (forall f, f ∈ completed ++ map result (upload_jobs_ s) ->
               is_Some (Future_value f s')).
Proof.
  induction completed as [|f completed IH]; intros results jf s Hready Hset Hjf Hn Hq.
  - cbn [app] in *. destruct (upload_jobs_ s) as [|job queued] eqn:Hjobs.
    + destruct (collect_results_set net [] results jf s)
        as (s' & Hrun & Hr & Ha & Hf); try assumption.
      * apply Hready.
      * exists s'. repeat split; try assumption.
        -- intros f v Hv. unfold Future_value in *. rewrite Hf. exact Hv.
        -- intros f Hin. inversion Hin.
    + cbn [map collect_results]. cbn [map length] in Hn.
      set (s1 := set_upload_results (map result queued) s).
      assert (Hready1 : worker_ready s1) by (apply worker_ready_results, Hready).
      assert (Hunset : Future_value (result job) s1 = None).
      { unfold Future_value. cbn.
        rewrite (ready_unset s Hready job); [reflexivity |].
        rewrite Hjobs. left. }
      destruct (UploadLoop_ready net s1 Hready1) as (s2 & Hpass & Hready2 & Hempty & Hdone).
      pose proof Hpass as Hinv.
      apply UploadLoop_inv in Hinv as (Ha2 & Hr2 & Hm2).
      unfold Future_Get. rewrite Hunset, Hpass. cbn.
      assert (Hjob : Future_value (result job) s2 = Some true).
      { apply Hdone. cbn. rewrite Hjobs. left. }
      rewrite Hjob. cbn.
      assert (Hod : objects_dispatched_ s2 = objects_dispatched_ s)
        by (apply accounts_fields in Ha2; tauto).
      destruct (collect_results_set net (map result queued) results
                  (s64 (jf + 1)) s2)
        as (s' & Hrun & Hr & Ha & Hf).
      * intros f Hf. exists true. apply list_elem_of_In, in_map_iff in Hf.
        destruct Hf as (j & <- & Hj). apply Hdone. cbn. rewrite Hjobs.
        right. apply list_elem_of_In. exact Hj.
      * pose proof (ready_no_wrap s Hready). rewrite s64_small; lia.
      * pose proof (ready_no_wrap s Hready). rewrite s64_small by lia. lia.
      * rewrite Hod. apply Hready.
      * rewrite Hr2. reflexivity.
      * exists s'. rewrite Hrun, Hod. repeat split.
        -- do 3 f_equal. cbn [forallb].
           assert (E : succeeded s' (result job) = true).
           { apply succeeded_value. unfold Future_value in *. rewrite Hf. exact Hjob. }
           rewrite E. reflexivity.
        -- exact Hr.
        -- rewrite Ha, Ha2. reflexivity.
        -- intros f v Hv. unfold Future_value in *. rewrite Hf. apply Hm2. exact Hv.
        -- intros f Hin. exists true. unfold Future_value in *. rewrite Hf.
           apply list_elem_of_In in Hin. destruct Hin as [<-|Hin]; [exact Hjob |].
           apply in_map_iff in Hin. destruct Hin as (j & <- & Hj).
           apply Hdone. cbn. rewrite Hjobs. right. apply list_elem_of_In. exact Hj.
  - cbn [app collect_results]. cbn [app length] in Hn.
    destruct (Hset f) as [v Hv]; [left |].
    set (s1 := set_upload_results (completed ++ map result (upload_jobs_ s)) s).
    rewrite (Future_Get_set net f v s1) by exact Hv. cbn.
    destruct (IH (v && results) (s64 (jf + 1)) s1)
      as (s' & Hrun & Hr & Ha & Hm & Hall).
    + apply worker_ready_results, Hready.
    + intros g Hg. apply Hset. right. exact Hg.
    + pose proof (ready_no_wrap s Hready). rewrite s64_small; lia.
    + pose proof (ready_no_wrap s Hready). rewrite s64_small by lia. cbn. lia.
    + reflexivity.
    + exists s'. cbn in Hrun. rewrite Hrun. repeat split; try assumption.
      * do 3 f_equal. cbn [forallb].
        assert (E : succeeded s' f = v) by (apply succeeded_value, Hm, Hv).
        rewrite E. destruct v, (forallb _ _), results; reflexivity.
      * intros g Hg. apply list_elem_of_In in Hg. destruct Hg as [<-|Hg].
        -- exists v. apply Hm, Hv.
        -- apply Hall. apply list_elem_of_In. exact Hg.
Qed.

Lemma Dispatch_ready s :
  session_ready s -> objects_dispatched_ s < 2 ^ 63 - 1 ->
  session_ready (Dispatch s).
Proof.
  intros [[(jp & Hw & Hjp & Hn) Hwrap Hflag Hunset Hdist] Hcount
          (completed & Hres & Hset)] Hroom.
  unfold Dispatch. destruct (current_pack_ s) as [p|].
  2:{ split; [split |..]; eauto. }
  assert (Hfresh : forall job, job ∈ upload_jobs_ s ->
                               (result job < length (futures_ s))%nat).
  { intros job Hin. eapply lookup_lt_Some, Hunset, Hin. }
  cbn. split; [split |..]; cbn.
  - exists jp. rewrite length_app. cbn. rewrite s64_small by lia.
    repeat split; [exact Hw | exact Hjp | lia].
  - rewrite s64_small by lia. lia.
  - exact Hflag.
  - intros job Hin. apply list_elem_of_In, in_app_iff in Hin.
    destruct Hin as [Hin|[<-|[]]]; cbn.
    + apply list_elem_of_In in Hin. rewrite lookup_app_l by (apply Hfresh, Hin).
      apply Hunset, Hin.
    + apply (list_lookup_middle (futures_ s) [] None). reflexivity.
  - rewrite map_app. cbn. apply NoDup_app. split; [exact Hdist |]. split.
    + intros f Hin Hf. apply list_elem_of_In in Hf. destruct Hf as [<-|[]].
      apply list_elem_of_In, in_map_iff in Hin. destruct Hin as (job & Hf & Hin).
      apply list_elem_of_In, Hfresh in Hin. lia.
    + apply NoDup_singleton.
  - rewrite s64_small by lia. rewrite length_app. cbn. lia.
  - exists completed. rewrite Hres, map_app, app_assoc. split; [reflexivity |].
    intros f Hin. destruct (Hset f Hin) as [v Hv]. exists v.
    unfold Future_value in *.
    destruct (futures_ s !! f) as [o|] eqn:E; [| discriminate].
    cbn. erewrite lookup_app_l_Some by exact E. exact Hv.
Qed.

Lemma dispatch_last_pack_ready s :
  session_ready s -> objects_dispatched_ s < 2 ^ 63 - 1 ->
  session_ready (dispatch_last_pack s).
Proof.
  intros Hready Hroom. unfold dispatch_last_pack.
  destruct (current_pack_ s) as [p|] eqn:Hp; [| exact Hready].
  destruct (0 <? ObjectPack.GetNoObjects p); [| exact Hready].
  destruct (Dispatch_ready s Hready Hroom)
    as [[? ? ? ? ?] ? ?].
  split; [split |..]; assumption.
Qed.

Lemma dispatch_last_pack_committed s :
  bytes_committed_ (dispatch_last_pack s) = bytes_committed_ s /\
  active_handles_ (dispatch_last_pack s) = active_handles_ s /\
  drop_lease_ (dispatch_last_pack s) = drop_lease_ s.
Proof.
  unfold dispatch_last_pack, Dispatch.
  destruct (current_pack_ s) as [p|]; [| auto].
  destruct (0 <? ObjectPack.GetNoObjects p); cbn; auto.
Qed.

Lemma dispatch_last_pack_pending s :
  (length (upload_results_ s) <= length (upload_results_ (dispatch_last_pack s)))%nat.
Proof.
  unfold dispatch_last_pack, Dispatch. destruct (current_pack_ s) as [p|]; [| lia].
  destruct (0 <? ObjectPack.GetNoObjects p); [| lia].
  cbn. rewrite length_app. lia.
Qed.

(** C2: in a ready session without active handles, when the results to
    collect (the one of the last pack included) do not exceed the capacity
    of [upload_results_], [Finalize] returns; it collects one result for
    each dispatched pack and empties [upload_results_]; it returns true
    exactly when every collected result is true, the bytes committed equal
    the bytes dispatched and [FinalizeDerived] returned true; when the two
    byte counts differ it returns false. *)
Theorem Finalize_accounting net s :
  session_ready s ->
  active_handles_ s = [] ->
  Z.of_nat (length (upload_results_ (dispatch_last_pack s))) <= channel_capacity ->
  let drained := upload_results_ (dispatch_last_pack s) in
  exists (b : bool) (s1 s' : SessionContext),
    Finalize net s = Ret (b, s') /\
    Z.of_nat (length drained) = NumJobsSubmitted s' /\
    upload_results_ s' = [] /\
    (forall f, f ∈ drained -> is_Some (Future_value f s')) /\
    bytes_committed_ s' = bytes_committed_ s /\
    bytes_dispatched_ s' = bytes_dispatched_ (dispatch_last_pack s) /\
    s' = snd (FinalizeDerived s1) /\
    (b = true <->
       (forall f, f ∈ drained -> Future_value f s' = Some true) /\
       bytes_committed_ s' = bytes_dispatched_ s' /\
       fst (FinalizeDerived s1) = true) /\
    (bytes_committed_ s' <> bytes_dispatched_ s' -> b = false).
Proof.
  intros Hready Hact Hcap drained.
  assert (Hroom : objects_dispatched_ s < 2 ^ 63 - 1).
  { destruct Hready as [_ Hcount _]. pose proof (dispatch_last_pack_pending s).
    unfold channel_capacity in Hcap. lia. }
  pose proof (dispatch_last_pack_ready s Hready Hroom) as Hready'.
  destruct (dispatch_last_pack_committed s) as (Hbc & Hah & Hdl).
  subst drained. set (s0 := dispatch_last_pack s) in *.
  destruct Hready' as [Hworker Hcount (completed & Hres & Hset)].
  destruct (collect_results_ready net completed true 0 s0 Hworker Hset)
    as (s2 & Hrun & Hempty & Ha & Hm & Hall); [lia | | exact Hres |].
  { rewrite <- Hres. lia. }
  rewrite <- Hres in Hrun, Hall.
  apply accounts_fields in Ha as (_ & Hdl2 & Hod & Hbc2 & Hbd).
  set (s3 := if drop_lease_ s2 then snd (DropLease s2) else s2).
  assert (Hs3 : s3 = s2) by (subst s3; destruct (drop_lease_ s2); reflexivity).
  exists (fst (FinalizeDerived s3) && (bytes_committed_ s2 =? bytes_dispatched_ s2)
            && forallb (succeeded s2) (upload_results_ s0)),
         s3, (snd (FinalizeDerived s3)).
  assert (Hval : forall f, Future_value f (snd (FinalizeDerived s3)) = Future_value f s2).
  { intros f. rewrite Hs3. unfold FinalizeDerived, Future_value. cbn.
    destruct (worker_ s2); reflexivity. }
  assert (Hfields : bytes_committed_ (snd (FinalizeDerived s3)) = bytes_committed_ s2 /\
                    bytes_dispatched_ (snd (FinalizeDerived s3)) = bytes_dispatched_ s2 /\
                    upload_results_ (snd (FinalizeDerived s3)) = upload_results_ s2 /\
                    objects_dispatched_ (snd (FinalizeDerived s3)) = objects_dispatched_ s2).
  { rewrite Hs3. unfold FinalizeDerived. cbn. destruct (worker_ s2); cbn; auto. }
  destruct Hfields as (Fbc & Fbd & Fur & Fod).
  split.
  { unfold Finalize. rewrite Hact. fold s0. rewrite Hrun. clear Hs3. subst s3.
    cbn. destruct (drop_lease_ s2); cbn; destruct (worker_ s2); cbn;
      rewrite ?andb_true_r; reflexivity. }
  rewrite Fbc, Fbd. unfold NumJobsSubmitted. rewrite Fod, Fur.
  split; [congruence |]. split; [exact Hempty |].
  split; [intros f Hin; rewrite Hval; apply Hall, Hin |].
  split; [congruence |]. split; [congruence |]. split; [reflexivity |].
  split; [split |].
  - intros Hb. apply andb_true_iff in Hb as [Hb Hfa].
    apply andb_true_iff in Hb as [Hfd Heq]. apply Z.eqb_eq in Heq.
    split; [| split; [exact Heq | exact Hfd]].
    intros f Hin. rewrite Hval. rewrite forallb_forall in Hfa.
    apply list_elem_of_In, Hfa in Hin.
    apply bool_decide_eq_true in Hin. exact Hin.
  - intros (Hfa & Heq & Hfd). rewrite Hfd. apply Z.eqb_eq in Heq. rewrite Heq. cbn.
    apply forallb_forall. intros f Hin. apply bool_decide_eq_true.
    rewrite <- Hval. apply Hfa, list_elem_of_In, Hin.
  - intros Hne. apply Z.eqb_neq in Hne. rewrite Hne, andb_false_r. reflexivity.
Qed.
End Worker.

(** ** Rotation of a full pack *)

Lemma ObjectPack_eq (p : ObjectPack.t) limit size open buckets :
  ObjectPack.limit_ p = limit -> ObjectPack.size_ p = size ->
  ObjectPack.open_buckets_ p = open -> ObjectPack.buckets_ p = buckets ->
  p = ObjectPack.mkPack limit size open buckets.
Proof. destruct p; cbn; intros; subst; reflexivity. Qed.

(** The transfer loop moves every listed bucket and nothing else. *)
Lemma transfer_buckets_spec handles : forall p other,
  NoDup handles ->
  (forall hd, hd ∈ handles -> is_Some (ObjectPack.open_buckets_ p !! hd)) ->
  exists p' other',
    transfer_buckets handles p other = Some (p', other') /\
    ObjectPack.limit_ p' = ObjectPack.limit_ p /\
    ObjectPack.size_ p' = ObjectPack.size_ p /\
    ObjectPack.buckets_ p' = ObjectPack.buckets_ p /\
    ObjectPack.limit_ other' = ObjectPack.limit_ other /\
    ObjectPack.size_ other' = ObjectPack.size_ other /\
    ObjectPack.buckets_ other' = ObjectPack.buckets_ other /\
    (forall hd, ObjectPack.open_buckets_ p' !! hd =
                if decide (hd ∈ handles) then None
                else ObjectPack.open_buckets_ p !! hd) /\
    (forall hd, ObjectPack.open_buckets_ other' !! hd =
                if decide (hd ∈ handles) then ObjectPack.open_buckets_ p !! hd
                else ObjectPack.open_buckets_ other !! hd).
Proof.
  induction handles as [|h handles IH]; intros p other Hnd Hopen.
  - exists p, other. cbn. repeat split; intros hd;
      rewrite decide_False by (apply not_elem_of_nil); reflexivity.
  - apply NoDup_cons in Hnd as [Hnotin Hnd].
    destruct (Hopen h) as [c Hc]; [left |].
    cbn [transfer_buckets]. unfold ObjectPack.TransferBucket. rewrite Hc.
    set (p1 := ObjectPack.mkPack _ _ (delete h _) _).
    set (o1 := ObjectPack.mkPack _ _ (<[h := c]> _) _).
    destruct (IH p1 o1 Hnd) as (p' & other' & Ht & ? & ? & ? & ? & ? & ? & Hp & Ho).
    { intros hd Hin. cbn. rewrite lookup_delete_ne; [apply Hopen; right; exact Hin |].
      intros ->. contradiction. }
    exists p', other'. split; [exact Ht |]. repeat split; try assumption.
    + intros hd. rewrite Hp. cbn.
      destruct (decide (hd ∈ handles)) as [Hin|Hout].
      * rewrite decide_True by (right; exact Hin). reflexivity.
      * destruct (decide (hd = h)) as [->|Hne].
        -- rewrite decide_True by left. apply lookup_delete_eq.
        -- rewrite decide_False by (intros Hin; apply elem_of_cons in Hin; tauto).
           apply lookup_delete_ne. congruence.
    + intros hd. rewrite Ho. cbn.
      destruct (decide (hd ∈ handles)) as [Hin|Hout].
      * rewrite decide_True by (right; exact Hin).
        apply lookup_delete_ne. intros ->. contradiction.
      * destruct (decide (hd = h)) as [->|Hne].
        -- rewrite decide_True by left. rewrite lookup_insert_eq. symmetry. exact Hc.
        -- rewrite decide_False by (intros Hin; apply elem_of_cons in Hin; tauto).
           apply lookup_insert_ne. congruence.
Qed.

(** When the active handles are the open buckets of the pack, the transfer
    empties the pack of open buckets and the new pack receives them all. *)
Lemma transfer_active_buckets (s : SessionContext) (p : ObjectPack.t) :
  handles_open s -> current_pack_ s = Some p ->
  transfer_buckets (active_handles_ s) p (ObjectPack.create (max_pack_size_ s)) =
    Some (ObjectPack.mkPack (ObjectPack.limit_ p) (ObjectPack.size_ p) ∅
            (ObjectPack.buckets_ p),
          ObjectPack.mkPack (max_pack_size_ s) 0 (ObjectPack.open_buckets_ p) []).
Proof.
  intros [Hnd Hdom] Hp. rewrite Hp in Hdom.
  destruct (transfer_buckets_spec (active_handles_ s) p
              (ObjectPack.create (max_pack_size_ s)) Hnd)
    as (p' & other' & Ht & ? & ? & ? & ? & ? & ? & Hp' & Ho').
  { intros hd Hin. apply Hdom, Hin. }
  rewrite Ht. f_equal. f_equal; apply ObjectPack_eq; try assumption.
  - apply map_eq. intros hd. rewrite Hp', lookup_empty.
    destruct (decide (hd ∈ active_handles_ s)) as [Hin|Hout]; [reflexivity |].
    apply eq_None_not_Some. intros Hs. apply Hout, Hdom, Hs.
  - apply map_eq. intros hd. rewrite Ho'.
    destruct (decide (hd ∈ active_handles_ s)) as [Hin|Hout]; [reflexivity |].
    cbn. rewrite lookup_empty. symmetry.
    apply eq_None_not_Some. intros Hs. apply Hout, Hdom, Hs.
Qed.

Lemma ObjectPack_CommitBucket_fits type hash hd nm p c :
  ObjectPack.open_buckets_ p !! hd = Some c ->
  ObjectPack.size_ p + ObjectPack.bucket_size c <= ObjectPack.limit_ p ->
  ObjectPack.CommitBucket type hash hd nm p =
    Some (true, committed_pack type hash hd nm c p).
Proof.
  intros Hc Hfit. unfold ObjectPack.CommitBucket. rewrite Hc.
  replace (_ <? _) with false by (symmetry; apply Z.ltb_ge; lia). reflexivity.
Qed.

Lemma ObjectPack_CommitBucket_full type hash hd nm p c :
  ObjectPack.open_buckets_ p !! hd = Some c ->
  ObjectPack.limit_ p < ObjectPack.size_ p + ObjectPack.bucket_size c ->
  ObjectPack.CommitBucket type hash hd nm p = Some (false, p).
Proof.
  intros Hc Hfull. unfold ObjectPack.CommitBucket. rewrite Hc.
  replace (_ <? _) with true by (symmetry; apply Z.ltb_lt; lia). reflexivity.
Qed.

Lemma Dispatch_fields (s : SessionContext) :
  credentials (Dispatch s) = credentials s /\
  drop_lease_ (Dispatch s) = drop_lease_ s /\
  max_pack_size_ (Dispatch s) = max_pack_size_ s /\
  active_handles_ (Dispatch s) = active_handles_ s /\
  current_pack_ (Dispatch s) = current_pack_ s /\
  bytes_committed_ (Dispatch s) = bytes_committed_ s /\
  next_handle_ (Dispatch s) = next_handle_ s /\
  worker_terminate_ (Dispatch s) = worker_terminate_ s /\
  worker_ (Dispatch s) = worker_ s.
Proof. unfold Dispatch. destruct (current_pack_ s) eqn:E; cbn; rewrite ?E; tauto. Qed.

Lemma after_rotation_fields (p : ObjectPack.t) (s : SessionContext) :
  credentials (after_rotation p s) = credentials s /\
  max_pack_size_ (after_rotation p s) = max_pack_size_ s /\
  active_handles_ (after_rotation p s) = active_handles_ s /\
  current_pack_ (after_rotation p s) =
    Some (ObjectPack.mkPack (max_pack_size_ s) 0 (ObjectPack.open_buckets_ p) []) /\
  bytes_committed_ (after_rotation p s) = bytes_committed_ s /\
  next_handle_ (after_rotation p s) = next_handle_ s.
Proof. unfold after_rotation, Dispatch. cbn. tauto. Qed.

Lemma after_commit_fields type hash hd nm c p s :
  credentials (after_commit type hash hd nm c p s) = credentials s /\
  max_pack_size_ (after_commit type hash hd nm c p s) = max_pack_size_ s /\
  active_handles_ (after_commit type hash hd nm c p s) =
    filter (fun h => h ≠ hd) (active_handles_ s) /\
  current_pack_ (after_commit type hash hd nm c p s) =
    Some (committed_pack type hash hd nm c p) /\
  next_handle_ (after_commit type hash hd nm c p s) = next_handle_ s.
Proof. unfold after_commit. cbn. tauto. Qed.

Lemma forced_dispatch_fields (s : SessionContext) :
  max_pack_size_ (set_current_pack None (Dispatch s)) = max_pack_size_ s /\
  active_handles_ (set_current_pack None (Dispatch s)) = active_handles_ s /\
  current_pack_ (set_current_pack None (Dispatch s)) = None /\
  next_handle_ (set_current_pack None (Dispatch s)) = next_handle_ s.
Proof.
  destruct (Dispatch_fields s) as (_ & _ & Dmax & Dact & _ & _ & Dnext & _).
  repeat split; [rewrite <- Dmax | rewrite <- Dact | rewrite <- Dnext]; reflexivity.
Qed.

Lemma after_rotation_handles_open (p : ObjectPack.t) (s : SessionContext) :
  handles_open s -> current_pack_ s = Some p -> handles_open (after_rotation p s).
Proof.
  intros [Hnd Hdom] Hp. rewrite Hp in Hdom.
  destruct (after_rotation_fields p s) as (_ & _ & Ha & Hc & _).
  unfold handles_open. rewrite Ha, Hc. split; [exact Hnd | exact Hdom].
Qed.

Section Commit.

Variables (type : ObjectPack.BucketContentType) (hash : Any)
          (hd : ObjectPack.BucketHandle) (nm : string).

(** The commit fits into the current pack. *)
Lemma CommitBucket_fits fuel force_dispatch s p c :
  current_pack_ s = Some p ->
  ObjectPack.open_buckets_ p !! hd = Some c ->
  ObjectPack.size_ p + ObjectPack.bucket_size c <= ObjectPack.limit_ p ->
  CommitBucket (S fuel) type hash hd nm force_dispatch s =
    Ret (true,
         if force_dispatch
         then set_current_pack None (Dispatch (after_commit type hash hd nm c p s))
         else after_commit type hash hd nm c p s).
Proof.
  intros Hp Hc Hfit. cbn [CommitBucket]. rewrite Hp.
  rewrite (ObjectPack_CommitBucket_fits type hash hd nm p c Hc Hfit).
  reflexivity.
Qed.

(** The commit is rejected by the current pack: the session rotates and
    calls itself on the new pack. *)
Lemma CommitBucket_full fuel force_dispatch s p c :
  current_pack_ s = Some p ->
  handles_open s ->
  ObjectPack.open_buckets_ p !! hd = Some c ->
  ObjectPack.limit_ p < ObjectPack.size_ p + ObjectPack.bucket_size c ->
  CommitBucket (S fuel) type hash hd nm force_dispatch s =
    '(_, s') ← CommitBucket fuel type hash hd nm false (after_rotation p s);
    Ret (true, s').
Proof.
  intros Hp Hopen Hc Hfull. cbn [CommitBucket]. rewrite Hp.
  rewrite (ObjectPack_CommitBucket_full type hash hd nm p c Hc Hfull).
  rewrite (transfer_active_buckets s p Hopen Hp). reflexivity.
Qed.

(** A bucket that fits an empty pack is committed after one rotation. *)
Lemma CommitBucket_rotates fuel force_dispatch s p c :
  current_pack_ s = Some p ->
  handles_open s ->
  ObjectPack.open_buckets_ p !! hd = Some c ->
  ObjectPack.limit_ p < ObjectPack.size_ p + ObjectPack.bucket_size c ->
  ObjectPack.bucket_size c <= max_pack_size_ s ->
  CommitBucket (S (S fuel)) type hash hd nm force_dispatch s =
    Ret (true,
         after_commit type hash hd nm c
           (ObjectPack.mkPack (max_pack_size_ s) 0 (ObjectPack.open_buckets_ p) [])
           (after_rotation p s)).
Proof.
  intros Hp Hopen Hc Hfull Hsmall.
  rewrite (CommitBucket_full _ _ s p c Hp Hopen Hc Hfull).
  destruct (after_rotation_fields p s) as (_ & _ & _ & Hcur & _).
  rewrite (CommitBucket_fits fuel false (after_rotation p s) _ c Hcur);
    [reflexivity | exact Hc | cbn; lia].
Qed.

(** A bucket larger than the ceiling is rejected by every new pack. *)
Lemma oversize_never_returns fuel : forall force_dispatch s p c,
  current_pack_ s = Some p ->
  handles_open s ->
  ObjectPack.open_buckets_ p !! hd = Some c ->
  ObjectPack.limit_ p < ObjectPack.size_ p + ObjectPack.bucket_size c ->
  max_pack_size_ s < ObjectPack.bucket_size c ->
  CommitBucket fuel type hash hd nm force_dispatch s = OutOfFuel.
Proof.
  induction fuel as [|fuel IH]; intros force_dispatch s p c Hp Hopen Hc Hfull Hbig.
  - reflexivity.
  - rewrite (CommitBucket_full _ _ s p c Hp Hopen Hc Hfull).
    destruct (after_rotation_fields p s) as (_ & Hmax & _ & Hcur & _).
    rewrite (IH false (after_rotation p s) _ c Hcur).
    + reflexivity.
    + apply after_rotation_handles_open; assumption.
    + exact Hc.
    + cbn. lia.
    + rewrite Hmax. exact Hbig.
Qed.

Lemma CommitBucket_true fuel : forall force_dispatch s b s',
  CommitBucket fuel type hash hd nm force_dispatch s = Ret (b, s') ->
  b = false -> current_pack_ s = None /\ s' = s.
Proof.
  destruct fuel as [|fuel]; intros force_dispatch s b s'; [discriminate |].
  cbn [CommitBucket]. destruct (current_pack_ s) as [p|].
  - destruct (ObjectPack.CommitBucket _ _ _ _ _) as [[[] p']|]; try discriminate.
    + intros [= <- <-]. discriminate.
    + destruct (transfer_buckets _ _ _) as [[p'' np]|]; [| discriminate].
      destruct (CommitBucket fuel _ _ _ _ _ _) as [[b' s1]| | | |]; cbn;
        try discriminate.
      intros [= <- <-]. discriminate.
  - intros [= <- <-]. auto.
Qed.

End Commit.

(** ** Room in the channels *)

Lemma Dispatch_pending s :
  (length (upload_results_ (Dispatch s)) <= length (upload_results_ s) + 1)%nat /\
  (length (upload_jobs_ (Dispatch s)) <= length (upload_jobs_ s) + 1)%nat.
Proof.
  unfold Dispatch. destruct (current_pack_ s); [| lia].
  cbn. rewrite !length_app. cbn. lia.
Qed.

Lemma set_current_pack_pending v s :
  upload_results_ (set_current_pack v s) = upload_results_ s /\
  upload_jobs_ (set_current_pack v s) = upload_jobs_ s.
Proof. split; reflexivity. Qed.

Lemma after_commit_pending type hash hd nm c p s :
  upload_results_ (after_commit type hash hd nm c p s) = upload_results_ s /\
  upload_jobs_ (after_commit type hash hd nm c p s) = upload_jobs_ s.
Proof. split; reflexivity. Qed.

Lemma after_rotation_pending p s :
  (length (upload_results_ (after_rotation p s)) <= length (upload_results_ s) + 1)%nat /\
  (length (upload_jobs_ (after_rotation p s)) <= length (upload_jobs_ s) + 1)%nat.
Proof.
  unfold after_rotation.
  destruct (set_current_pack_pending
              (Some (ObjectPack.mkPack (max_pack_size_ s) 0 (ObjectPack.open_buckets_ p) []))
              (Dispatch (set_current_pack
                 (Some (ObjectPack.mkPack (ObjectPack.limit_ p) (ObjectPack.size_ p) ∅
                          (ObjectPack.buckets_ p))) s))) as [-> ->].
  apply (Dispatch_pending (set_current_pack _ s)).
Qed.

(** The commit of an open bucket that is no larger than the ceiling returns
    true with any fuel of 2 or more, and puts at most one more element into
    each channel. *)
Lemma CommitBucket_accepted type hash hd nm force_dispatch s p c :
  current_pack_ s = Some p ->
  handles_open s ->
  ObjectPack.open_buckets_ p !! hd = Some c ->
  ObjectPack.bucket_size c <= max_pack_size_ s ->
  exists s',
    (forall fuel,
       CommitBucket (S (S fuel)) type hash hd nm force_dispatch s = Ret (true, s')) /\
    (length (upload_results_ s') <= length (upload_results_ s) + 1)%nat /\
    (length (upload_jobs_ s') <= length (upload_jobs_ s) + 1)%nat.
Proof.
  intros Hp Hopen Hc Hsmall.
  destruct (Z_lt_le_dec (ObjectPack.limit_ p)
              (ObjectPack.size_ p + ObjectPack.bucket_size c)) as [Hfull|Hfit].
  - eexists. split; [| split].
    + intros fuel.
      apply (CommitBucket_rotates type hash hd nm fuel force_dispatch s p c);
        assumption.
    + rewrite (proj1 (after_commit_pending _ _ _ _ _ _ _)).
      apply after_rotation_pending.
    + rewrite (proj2 (after_commit_pending _ _ _ _ _ _ _)).
      apply after_rotation_pending.
  - eexists. split; [| split].
    + intros fuel.
      apply (CommitBucket_fits type hash hd nm (S fuel) force_dispatch s p c);
        assumption.
    + destruct force_dispatch.
      * rewrite (proj1 (set_current_pack_pending _ _)).
        pose proof (proj1 (Dispatch_pending (after_commit type hash hd nm c p s))) as Hd.
        rewrite (proj1 (after_commit_pending _ _ _ _ _ _ _)) in Hd. exact Hd.
      * rewrite (proj1 (after_commit_pending _ _ _ _ _ _ _)). lia.
    + destruct force_dispatch.
      * rewrite (proj2 (set_current_pack_pending _ _)).
        pose proof (proj2 (Dispatch_pending (after_commit type hash hd nm c p s))) as Hd.
        rewrite (proj2 (after_commit_pending _ _ _ _ _ _ _)) in Hd. exact Hd.
      * rewrite (proj2 (after_commit_pending _ _ _ _ _ _ _)). lia.
Qed.

(** ** Rotation safety *)

Lemma accounts_for_handles_open s l : accounts_for s l -> handles_open s.
Proof.
  intros [_ _ Hnd Hh Ho]. split; [exact Hnd |].
  destruct (current_pack_ s) as [p|].
  - intros hd. rewrite Ho. apply Hh.
  - destruct (active_handles_ s) as [|hd handles]; [reflexivity |].
    assert (Hin : hd ∈ hd :: handles) by left.
    apply Hh in Hin. rewrite Ho, lookup_empty in Hin. destruct Hin; discriminate.
Qed.


Lemma committed_objects_after_commit type hash hd nm c p s :
  current_pack_ s = Some p ->
  committed_objects (after_commit type hash hd nm c p s) =
  committed_objects s ++ [ObjectPack.mkBucket hd c type hash nm].
Proof.
  intros Hp. unfold committed_objects, after_commit, dispatched_objects. cbn.
  rewrite Hp. rewrite app_assoc. reflexivity.
Qed.

Lemma committed_objects_after_rotation p s :
  current_pack_ s = Some p ->
  committed_objects (after_rotation p s) = committed_objects s.
Proof.
  intros Hp. unfold committed_objects at 1. unfold after_rotation at 2. cbn.
  rewrite app_nil_r. unfold after_rotation, dispatched_objects, committed_objects.
  cbn. rewrite Hp, map_app, concat_app. cbn. rewrite app_nil_r. reflexivity.
Qed.



Lemma committed_objects_forced s p :
  current_pack_ s = Some p ->
  committed_objects (set_current_pack None (Dispatch s)) = committed_objects s.
Proof.
  intros Hp. unfold committed_objects, dispatched_objects, Dispatch.
  rewrite Hp. cbn. rewrite app_nil_r, map_app, concat_app. cbn.
  rewrite app_nil_r. reflexivity.
Qed.

Section Safety.

Context `{Collaborators}.
Variable net : Z -> Curl.

Lemma NewBucket_accounts s l :
  accounts_for s l -> ledger_wf l ->
  exists l',
    ledger_step (max_pack_size_ s) ONewBucket l = Some l' /\
    accounts_for (snd (NewBucket s)) l' /\ ledger_wf l' /\
    max_pack_size_ (snd (NewBucket s)) = max_pack_size_ s.
Proof.
  intros [Hc Hn Hnd Hh Ho] [Lo Lc Ld]. eexists. split; [reflexivity |].
  assert (Hfresh : ledger_open l !! ledger_next l = None).
  { apply eq_None_not_Some. intros Hs. apply Lo in Hs. lia. }
  split; [split | split; [split |]]; cbn.
  - unfold committed_objects, dispatched_objects, NewBucket in *. cbn.
    rewrite <- Hc. destruct (current_pack_ s); reflexivity.
  - rewrite Hn. reflexivity.
  - apply NoDup_app. split; [exact Hnd |]. split; [| apply NoDup_singleton].
    intros hd Hin Hhd. apply list_elem_of_In in Hhd. destruct Hhd as [<-|[]].
    apply Hh in Hin. rewrite Hn, Hfresh in Hin. destruct Hin; discriminate.
  - intros hd. rewrite elem_of_app, Hh, Hn, list_elem_of_singleton.
    rewrite lookup_insert_is_Some.
    destruct (decide (ledger_next l = hd)); intuition congruence.
  - rewrite Hn. destruct (current_pack_ s); cbn; rewrite Ho; reflexivity.
  - intros hd Hs. apply lookup_insert_is_Some in Hs as [<-|[_ Hs]]; [lia |].
    apply Lo in Hs. lia.
  - intros b Hb. destruct (Lc b Hb) as [Hlt Hnone]. split; [lia |].
    rewrite lookup_insert_ne by lia. exact Hnone.
  - exact Ld.
  - reflexivity.
Qed.


Lemma WriteBucket_accounts s l l' hd data :
  accounts_for s l -> ledger_wf l ->
  ledger_step (max_pack_size_ s) (OWrite hd data) l = Some l' ->
  exists s',
    WriteBucket hd data s = Ret s' /\
    accounts_for s' l' /\ ledger_wf l' /\
    max_pack_size_ s' = max_pack_size_ s.
Proof.
  intros [Hc Hn Hnd Hh Ho] [Lo Lc Ld]. cbn [ledger_step].
  destruct (ledger_open l !! hd) as [c|] eqn:Hhd; [| discriminate].
  intros [= <-].
  destruct (current_pack_ s) as [p|] eqn:Hp.
  2:{ rewrite Ho, lookup_empty in Hhd. discriminate. }
  unfold WriteBucket, ObjectPack.Write. rewrite Hp, Ho, Hhd. eexists. split; [reflexivity |].
  assert (Hsome : forall h, is_Some (<[hd := c ++ data]> (ledger_open l) !! h)
                            <-> is_Some (ledger_open l !! h)).
  { intros h. rewrite lookup_insert_is_Some.
    destruct (decide (hd = h)) as [<-|Hne]; [rewrite Hhd |]; intuition eauto. }
  split; [split | split; [split |]]; cbn.
  - unfold committed_objects, dispatched_objects in *. cbn. rewrite <- Hc, Hp.
    reflexivity.
  - exact Hn.
  - exact Hnd.
  - intros h. rewrite Hsome. apply Hh.
  - reflexivity.
  - intros h Hs. apply Lo, Hsome, Hs.
  - intros b Hb. destruct (Lc b Hb) as [Hlt Hnone]. split; [exact Hlt |].
    rewrite lookup_insert_ne; [exact Hnone | congruence].
  - exact Ld.
  - reflexivity.
Qed.

Lemma CommitBucket_accounts fuel s l l' type hash hd nm force_dispatch :
  accounts_for s l -> ledger_wf l ->
  ledger_step (max_pack_size_ s)
    (OCommitBucket type hash hd nm force_dispatch) l = Some l' ->
  exists s',
    CommitBucket (S (S fuel)) type hash hd nm force_dispatch s = Ret (true, s') /\
    accounts_for s' l' /\ ledger_wf l' /\
    max_pack_size_ s' = max_pack_size_ s.
Proof.
  intros Hacc Hwf. pose proof (accounts_for_handles_open s l Hacc) as Hopen.
  destruct Hacc as [Hc Hn Hnd Hh Ho]. destruct Hwf as [Lo Lc Ld].
  cbn [ledger_step].
  destruct (ledger_open l !! hd) as [c|] eqn:Hhd; [| discriminate].
  destruct (max_pack_size_ s <? ObjectPack.bucket_size c) eqn:Hsize; [discriminate |].
  apply Z.ltb_ge in Hsize.
  destruct (force_dispatch && _) eqn:Hforce; [discriminate |].
  intros [= <-].
  destruct (current_pack_ s) as [p|] eqn:Hp.
  2:{ rewrite Ho, lookup_empty in Hhd. discriminate. }
  assert (Hpc : ObjectPack.open_buckets_ p !! hd = Some c) by (rewrite Ho; exact Hhd).
  assert (Hwf' : ledger_wf
            {| ledger_open := delete hd (ledger_open l);
               ledger_committed :=
                 ledger_committed l ++ [ObjectPack.mkBucket hd c type hash nm];
               ledger_next := ledger_next l |}).
  { split; cbn.
    - intros h Hs. apply lookup_delete_is_Some in Hs as [_ Hs]. apply Lo, Hs.
    - intros b Hb. apply elem_of_app in Hb as [Hb|Hb].
      + destruct (Lc b Hb) as [Hlt Hnone]. split; [exact Hlt |].
        rewrite lookup_delete_ne; [exact Hnone | congruence].
      + apply list_elem_of_singleton in Hb as ->. cbn. split.
        * apply Lo. rewrite Hhd. eauto.
        * apply lookup_delete_eq.
    - rewrite map_app. cbn. apply NoDup_app. split; [exact Ld |].
      split; [| apply NoDup_singleton].
      intros h Hin Hh'. apply list_elem_of_singleton in Hh' as ->.
      apply list_elem_of_fmap in Hin as (b & -> & Hb).
      destruct (Lc b Hb) as [_ Hnone]. congruence. }
  assert (Hfilter : forall h, h ∈ filter (fun h => h ≠ hd) (active_handles_ s) <->
                              is_Some (delete hd (ledger_open l) !! h)).
  { intros h. rewrite list_elem_of_filter, Hh, lookup_delete_is_Some.
    intuition congruence. }
  destruct (Z_lt_le_dec (ObjectPack.limit_ p)
              (ObjectPack.size_ p + ObjectPack.bucket_size c)) as [Hfull|Hfit].
  - (* the pack is full: rotation *)
    rewrite (CommitBucket_rotates type hash hd nm fuel force_dispatch s p c
               Hp Hopen Hpc Hfull Hsize).
    eexists. split; [reflexivity |].
    destruct (after_rotation_fields p s) as (_ & Hmax & Hact & Hcur & _ & Hnext).
    set (np := ObjectPack.mkPack _ 0 _ []) in *.
    destruct (after_commit_fields type hash hd nm c np (after_rotation p s))
      as (_ & Hmax' & Hact' & Hcur' & Hnext').
    split; [split | split; [exact Hwf' |]]; cbn [ledger_committed ledger_open ledger_next].
    + rewrite committed_objects_after_commit by exact Hcur.
      rewrite committed_objects_after_rotation by exact Hp. rewrite Hc. reflexivity.
    + congruence.
    + rewrite Hact', Hact. apply NoDup_filter, Hnd.
    + rewrite Hact', Hact. exact Hfilter.
    + rewrite Hcur'. cbn. rewrite Ho. reflexivity.
    + congruence.
  - (* the bucket fits *)
    rewrite (CommitBucket_fits type hash hd nm (S fuel) force_dispatch s p c
               Hp Hpc Hfit).
    eexists. split; [reflexivity |].
    destruct (after_commit_fields type hash hd nm c p s)
      as (_ & Hmax' & Hact' & Hcur' & Hnext').
    destruct force_dispatch; cbn [andb negb] in Hforce.
    + apply negb_false_iff, bool_decide_eq_true in Hforce.
      destruct (forced_dispatch_fields (after_commit type hash hd nm c p s))
        as (Dmax & Dact & Dcur & Dnext).
      split; [split | split; [exact Hwf' |]];
        cbn [ledger_committed ledger_open ledger_next].
      * rewrite (committed_objects_forced _ (committed_pack type hash hd nm c p))
          by exact Hcur'.
        rewrite committed_objects_after_commit by exact Hp. rewrite Hc. reflexivity.
      * congruence.
      * rewrite Dact, Hact'. apply NoDup_filter, Hnd.
      * rewrite Dact, Hact'. exact Hfilter.
      * rewrite Dcur. exact Hforce.
      * congruence.
    + split; [split | split; [exact Hwf' |]];
        cbn [ledger_committed ledger_open ledger_next].
      * rewrite committed_objects_after_commit by exact Hp. rewrite Hc. reflexivity.
      * congruence.
      * rewrite Hact'. apply NoDup_filter, Hnd.
      * rewrite Hact'. exact Hfilter.
      * rewrite Hcur'. cbn. rewrite Ho. reflexivity.
      * congruence.
Qed.


(** A sequence of calls accepted by the account runs to its end on the
    session, which then holds what the account says. *)
Lemma run_accounts fuel ops : forall s l l',
  accounts_for s l -> ledger_wf l ->
  ledger_run (max_pack_size_ s) ops l = Some l' ->
  exists s',
    run (S (S fuel)) net ops s = Ret s' /\
    accounts_for s' l' /\ ledger_wf l' /\
    max_pack_size_ s' = max_pack_size_ s.
Proof.
  induction ops as [|op ops IH]; intros s l l' Hacc Hwf Hrun.
  - injection Hrun as <-. exists s. auto.
  - cbn [ledger_run] in Hrun.
    destruct (ledger_step (max_pack_size_ s) op l) as [l1|] eqn:Hstep;
      [| discriminate].
    assert (Hexec : exists s1, exec (S (S fuel)) net op s = Ret s1 /\
                               accounts_for s1 l1 /\ ledger_wf l1 /\
                               max_pack_size_ s1 = max_pack_size_ s).
    { destruct op; try discriminate.
      - destruct (NewBucket_accounts s l Hacc Hwf) as (l2 & Hl2 & ? & ? & ?).
        rewrite Hl2 in Hstep. injection Hstep as <-.
        exists (snd (NewBucket s)). auto.
      - apply (WriteBucket_accounts s l l1 hd data Hacc Hwf Hstep).
      - destruct (CommitBucket_accounts fuel s l l1 type hash hd nm force_dispatch
                    Hacc Hwf Hstep) as (s1 & Hs1 & ? & ? & ?).
        exists s1. cbn [exec]. rewrite Hs1. auto. }
    destruct Hexec as (s1 & Hs1 & Hacc1 & Hwf1 & Hmax1).
    rewrite <- Hmax1 in Hrun.
    destruct (IH s1 l1 l' Hacc1 Hwf1 Hrun) as (s' & Hs' & Hacc' & Hwf' & Hmax').
    exists s'. cbn [run]. rewrite Hs1.
    split; [exact Hs' |]. split; [exact Hacc' |]. split; [exact Hwf' |].
    rewrite Hmax'. exact Hmax1.
Qed.


Lemma fresh_session_accounts s :
  current_pack_ s = None -> active_handles_ s = [] -> upload_jobs_ s = [] ->
  accounts_for s (mkLedger ∅ [] (next_handle_ s)) /\
  ledger_wf (mkLedger ∅ [] (next_handle_ s)).
Proof.
  intros Hp Ha Hj. split; split; cbn.
  - unfold committed_objects, dispatched_objects. rewrite Hp, Hj. reflexivity.
  - reflexivity.
  - rewrite Ha. constructor.
  - intros hd. rewrite Ha, lookup_empty. split.
    + intros Hin. inversion Hin.
    + intros [? ?]. discriminate.
  - rewrite Hp. reflexivity.
  - intros hd [? Hs]. rewrite lookup_empty in Hs. discriminate.
  - intros b Hb. inversion Hb.
  - constructor.
Qed.

End Safety.

(** ** What [CommitBucket] returns *)

Lemma state_after_accounted (ops : list Op) (l : Ledger) :
  ledger_run 100 ops (mkLedger ∅ [] 1) = Some l ->
  @run sample_collaborators 2 accepting ops sample_session = Ret (state_after ops) /\
  accounts_for (state_after ops) l /\ ledger_wf l.
Proof.
  intros Hrun.
  destruct (fresh_session_accounts sample_session) as [Hacc Hwf];
    try reflexivity.
  destruct (@run_accounts sample_collaborators accepting 0 ops sample_session _ l
              Hacc Hwf Hrun) as (s' & Hs' & Hacc' & Hwf' & _).
  unfold state_after. rewrite Hs'. auto.
Qed.

Lemma third_bucket_open_handles : handles_open (state_after third_bucket_open).
Proof.
  eapply accounts_for_handles_open, state_after_accounted.
  vm_compute. reflexivity.
Qed.

Lemma oversize_bucket_open_handles : handles_open (state_after oversize_bucket_open).
Proof.
  eapply accounts_for_handles_open, state_after_accounted.
  vm_compute. reflexivity.
Qed.

Section CommitResult.

Variables (type : ObjectPack.BucketContentType) (hash : Any)
          (hd : ObjectPack.BucketHandle) (nm : string).

(** C9 (as amended): with a current pack whose open buckets are the active
    handles and with room in both channels, the commit of an open bucket
    that is no larger than the ceiling returns true, whether or not it
    triggers a rotation, and leaves no channel above its capacity; a commit
    that returns false found no current pack; and without a current pack
    the commit returns false and changes nothing. *)
Theorem CommitBucket_returns_true fuel force_dispatch s c :
  handles_open s ->
  open_bucket s hd = Some c ->
  ObjectPack.bucket_size c <= max_pack_size_ s ->
  has_room s ->
  (exists s',
     CommitBucket (S (S fuel)) type hash hd nm force_dispatch s = Ret (true, s') /\
     Z.of_nat (length (upload_results_ s')) <= channel_capacity /\
     Z.of_nat (length (upload_jobs_ s')) <= channel_capacity) /\
  (forall n s0 b s',
     CommitBucket n type hash hd nm force_dispatch s0 = Ret (b, s') ->
     b = false -> current_pack_ s0 = None) /\
  (forall n s0,
     current_pack_ s0 = None ->
     CommitBucket (S n) type hash hd nm force_dispatch s0 = Ret (false, s0)).
Proof.
  intros Hopen Hc Hsmall [Hresults Hjobs]. unfold open_bucket in Hc.
  destruct (current_pack_ s) as [p|] eqn:Hp; [| discriminate].
  split; [| split].
  - destruct (CommitBucket_accepted type hash hd nm force_dispatch s p c
                Hp Hopen Hc Hsmall) as (s' & Hrun & Hr & Hj).
    exists s'. split; [apply Hrun |]. unfold channel_capacity in *. lia.
  - intros n s0 b s' Hrun Hb.
    apply (CommitBucket_true type hash hd nm n force_dispatch s0 b s' Hrun Hb).
  - intros n s0 Hnone. cbn [CommitBucket]. rewrite Hnone. reflexivity.
Qed.

End CommitResult.

Lemma CommitBucket_returns_true_witness :
  handles_open (state_after third_bucket_open) /\
  open_bucket (state_after third_bucket_open) 3 = Some (bytes_of 40) /\
  ObjectPack.bucket_size (bytes_of 40) <= max_pack_size_ (state_after third_bucket_open) /\
  has_room (state_after third_bucket_open) /\
  exists s', CommitBucket 2 ObjectPack.kRegular [] 3 "" false
               (state_after third_bucket_open) = Ret (true, s') /\
             Z.of_nat (length (upload_results_ s')) <= channel_capacity /\
             Z.of_nat (length (upload_jobs_ s')) <= channel_capacity.
Proof.
  assert (Ho : open_bucket (state_after third_bucket_open) 3 = Some (bytes_of 40))
    by (vm_compute; reflexivity).
  assert (Hs : ObjectPack.bucket_size (bytes_of 40)
               <= max_pack_size_ (state_after third_bucket_open))
    by (vm_compute; discriminate).
  assert (Hroom : has_room (state_after third_bucket_open))
    by (split; vm_compute; reflexivity).
  split; [exact third_bucket_open_handles |]. split; [exact Ho |]. split; [exact Hs |].
  split; [exact Hroom |].
  exact (proj1 (CommitBucket_returns_true ObjectPack.kRegular [] 3 "" 0 false
                  (state_after third_bucket_open) (bytes_of 40)
                  third_bucket_open_handles Ho Hs Hroom)).
Defined.

(** A pack was created by [NewBucket], yet after the forced dispatch the
    commit of the second bucket returns false; and with a current pack in
    place the commit of a bucket larger than the ceiling never returns. *)
Lemma CommitBucket_false_after_forced_dispatch :
  (current_pack_ (state_after forced_dispatch) = None /\
   active_handles_ (state_after forced_dispatch) = [2%positive] /\
   CommitBucket 2 ObjectPack.kRegular [] 2 "" false (state_after forced_dispatch)
     = Ret (false, state_after forced_dispatch)) /\
  (current_pack_ (state_after oversize_bucket_open) <> None /\
   ~ exists fuel r,
       CommitBucket fuel ObjectPack.kRegular [] 2 "" false
         (state_after oversize_bucket_open) = Ret r).
Proof.
  split; [split; [| split]; vm_compute; reflexivity |].
  split; [vm_compute; discriminate |].
  intros (fuel & r & Hr).
  destruct (current_pack_ (state_after oversize_bucket_open)) as [p|] eqn:Hp;
    [| vm_compute in Hp; discriminate].
  rewrite (oversize_never_returns ObjectPack.kRegular [] 2 "" fuel false
             (state_after oversize_bucket_open) p (bytes_of 150)) in Hr.
  - discriminate.
  - exact Hp.
  - exact oversize_bucket_open_handles.
  - vm_compute in Hp. injection Hp as <-. vm_compute. reflexivity.
  - vm_compute in Hp. injection Hp as <-. vm_compute. reflexivity.
  - vm_compute. reflexivity.
Qed.

(** ** The lease credentials *)

Section Credentials.

Context `{Collaborators}.
Variable net : Z -> Curl.

Lemma accounts_credentials s s' : accounts s' = accounts s -> credentials s' = credentials s.
Proof. intros E. apply accounts_fields in E. tauto. Qed.

Lemma credentials_set_current_pack v s :
  credentials (set_current_pack v s) = credentials s.
Proof. reflexivity. Qed.

Lemma NewBucket_credentials s : credentials (snd (NewBucket s)) = credentials s.
Proof. reflexivity. Qed.

Lemma WriteBucket_credentials hd data s s' :
  WriteBucket hd data s = Ret s' -> credentials s' = credentials s.
Proof.
  unfold WriteBucket. destruct (current_pack_ s) as [p|]; [| discriminate].
  destruct (ObjectPack.Write hd data p); [| discriminate].
  intros [= <-]. reflexivity.
Qed.

Lemma CommitBucket_credentials fuel : forall type hash hd nm force_dispatch s b s',
  CommitBucket fuel type hash hd nm force_dispatch s = Ret (b, s') ->
  credentials s' = credentials s.
Proof.
  induction fuel as [|fuel IH]; intros type hash hd nm force_dispatch s b s';
    [discriminate |].
  cbn [CommitBucket]. destruct (current_pack_ s) as [p|]; [| intros [= _ <-]; reflexivity].
  destruct (ObjectPack.CommitBucket type hash hd nm p) as [[[] p']|];
    [| | discriminate].
  - intros [= _ <-]. destruct force_dispatch; [| reflexivity].
    rewrite credentials_set_current_pack.
    match goal with |- context [Dispatch ?x] =>
      rewrite (proj1 (Dispatch_fields x)) end.
    reflexivity.
  - destruct (transfer_buckets _ _ _) as [[p'' np]|]; [| discriminate].
    match goal with |- context [CommitBucket fuel _ _ _ _ _ ?x] =>
      destruct (CommitBucket fuel type hash hd nm false x) as [[b1 s1]| | | |] eqn:E
    end; cbn; try discriminate.
    intros [= _ <-]. apply IH in E. rewrite E.
    rewrite credentials_set_current_pack.
    match goal with |- context [Dispatch ?x] =>
      rewrite (proj1 (Dispatch_fields x)) end.
    reflexivity.
Qed.

Lemma WaitForUpload_credentials s s' :
  WaitForUpload net s = Ret s' -> credentials s' = credentials s.
Proof.
  unfold WaitForUpload. destruct (upload_results_ s); [intros [= <-]; reflexivity |].
  destruct (queue_was_flushed_ s) as [|b q] eqn:Hq; cbn.
  - destruct (UploadLoop net s) as [s1| | | |] eqn:E; cbn; try discriminate.
    apply UploadLoop_inv in E as (Ha & _).
    destruct (queue_was_flushed_ s1); [discriminate |].
    intros [= <-]. rewrite <- (accounts_credentials _ _ Ha). reflexivity.
  - rewrite Hq. intros [= <-]. reflexivity.
Qed.

Lemma Future_Get_inv f s v s' :
  Future_Get net f s = Ret (v, s') ->
  accounts s' = accounts s /\ upload_results_ s' = upload_results_ s.
Proof.
  unfold Future_Get. destruct (Future_value f s); [intros [= _ <-]; auto |].
  destruct (UploadLoop net s) as [s1| | | |] eqn:E; cbn; try discriminate.
  apply UploadLoop_inv in E as (Ha & Hr & _).
  destruct (Future_value f s1); [| discriminate].
  intros [= _ <-]. auto.
Qed.

Lemma collect_results_inv queue : forall results jf s r jf' s',
  collect_results net queue results jf s = Ret (r, jf', s') ->
  accounts s' = accounts s.
Proof.
  induction queue as [|f queue IH]; intros results jf s r jf' s'; cbn [collect_results].
  - destruct (jf <? NumJobsSubmitted s); [discriminate |]. intros [= _ _ <-]. reflexivity.
  - destruct (Future_Get net f (set_upload_results queue s)) as [[v s1]| | | |] eqn:E;
      cbn; try discriminate.
    apply Future_Get_inv in E as (Ha & _).
    intros E. apply IH in E. rewrite E, Ha. reflexivity.
Qed.

Lemma dispatch_last_pack_credentials s :
  credentials (dispatch_last_pack s) = credentials s.
Proof.
  unfold dispatch_last_pack. destruct (current_pack_ s) as [p|]; [| reflexivity].
  destruct (0 <? ObjectPack.GetNoObjects p); [| reflexivity].
  rewrite credentials_set_current_pack. apply Dispatch_fields.
Qed.

Lemma Finalize_credentials s b s' :
  Finalize net s = Ret (b, s') -> credentials s' = credentials s.
Proof.
  unfold Finalize. destruct (active_handles_ s); [| discriminate].
  destruct (collect_results net _ true 0 (dispatch_last_pack s))
    as [[[r jf] s1]| | | |] eqn:E; cbn; try discriminate.
  apply collect_results_inv, accounts_credentials in E.
  rewrite dispatch_last_pack_credentials in E.
  intros [= _ <-]. rewrite <- E.
  destruct (drop_lease_ s1); cbn; destruct (worker_ s1); reflexivity.
Qed.

Lemma exec_credentials fuel op s s' :
  exec fuel net op s = Ret s' -> credentials s' = credentials s.
Proof.
  destruct op; cbn [exec].
  - intros [= <-]. apply NewBucket_credentials.
  - apply WriteBucket_credentials.
  - destruct (CommitBucket fuel type hash hd nm force_dispatch s)
      as [[b s1]| | | |] eqn:E; cbn; try discriminate.
    intros [= <-]. apply (CommitBucket_credentials _ _ _ _ _ _ _ _ _ E).
  - apply WaitForUpload_credentials.
  - intros E. apply UploadLoop_inv in E as (Ha & _).
    apply accounts_credentials, Ha.
  - destruct (Finalize net s) as [[b s1]| | | |] eqn:E; cbn; try discriminate.
    intros [= <-]. apply (Finalize_credentials _ _ _ E).
Qed.

Lemma run_credentials fuel ops : forall s s',
  run fuel net ops s = Ret s' -> credentials s' = credentials s.
Proof.
  induction ops as [|op ops IH]; intros s s'; cbn [run].
  - intros [= <-]. reflexivity.
  - destruct (exec fuel net op s) as [s1| | | |] eqn:E; cbn; try discriminate.
    intros Hrun. apply IH in Hrun. apply exec_credentials in E. congruence.
Qed.

Lemma Initialize_credentials lock pthread_create api_url session_token key_id
    secret drop_lease max_pack_size s0 s :
  Initialize lock pthread_create api_url session_token key_id secret drop_lease
    max_pack_size s0 = (true, s) ->
  credentials s = (api_url, session_token, key_id, secret).
Proof.
  unfold Initialize. destruct lock; cbn [negb]; [| discriminate].
  unfold InitializeDerived. cbn.
  destruct (pthread_create =? 0); intros [= _ <-]; reflexivity.
Qed.

(** C10: after a successful [Initialize], whatever sequence of [NewBucket],
    writes, [CommitBucket], [WaitForUpload], passes of the upload worker
    and [Finalize] has run, and also after a further [Dispatch], the four
    lease credentials are the values passed to [Initialize]. *)
Theorem credentials_immutable fuel ops lock pthread_create api_url
    session_token key_id secret drop_lease max_pack_size s0 s s' :
  Initialize lock pthread_create api_url session_token key_id secret drop_lease
    max_pack_size s0 = (true, s) ->
  run fuel net ops s = Ret s' ->
  credentials s' = (api_url, session_token, key_id, secret) /\
  credentials (Dispatch s') = (api_url, session_token, key_id, secret).
Proof.
  intros Hinit Hrun. apply Initialize_credentials in Hinit.
  apply run_credentials in Hrun.
  destruct (Dispatch_fields s') as (Hd & _).
  rewrite Hd, Hrun, Hinit. auto.
Qed.

End Credentials.

Lemma credentials_immutable_witness :
  Initialize true 0 "https://gw/api/v1" "token" "key" "secret" true 100
    (@SessionContext_new sample_collaborators 0 0 0 0) = (true, sample_session) /\
  @run sample_collaborators 2 accepting whole_session sample_session
    = Ret (state_after whole_session) /\
  credentials (state_after whole_session)
    = ("https://gw/api/v1", "token", "key", "secret")%string /\
  credentials (Dispatch (state_after whole_session))
    = ("https://gw/api/v1", "token", "key", "secret")%string.
Proof.
  assert (Hi : Initialize true 0 "https://gw/api/v1" "token" "key" "secret" true 100
                 (@SessionContext_new sample_collaborators 0 0 0 0)
               = (true, sample_session)) by reflexivity.
  assert (Hr : @run sample_collaborators 2 accepting whole_session sample_session
               = Ret (state_after whole_session)) by (vm_compute; reflexivity).
  split; [exact Hi |]. split; [exact Hr |].
  exact (@credentials_immutable sample_collaborators accepting 2 whole_session
           true 0 _ _ _ _ true 100 _ _ _ Hi Hr).
Defined.

(** ** The commit of a bucket larger than the ceiling *)

(** C4 (failing input): under a ceiling of 100 bytes the current pack holds
    60 bytes and the bucket to commit has 150 bytes.  The current pack
    rejects the commit, the new pack installed by the rotation is empty and
    rejects the same commit again, and whatever depth of recursion is
    allowed [CommitBucket] does not come to a result. *)
Theorem oversize_commit_recurses_forever :
  exists p np,
    current_pack_ (state_after oversize_bucket_open) = Some p /\
    max_pack_size_ (state_after oversize_bucket_open) = 100 /\
    ObjectPack.size p = 60 /\
    ObjectPack.open_buckets_ p !! 2%positive = Some (bytes_of 150) /\
    ObjectPack.CommitBucket ObjectPack.kRegular [] 2 "" p = Some (false, p) /\
    current_pack_ (after_rotation p (state_after oversize_bucket_open)) = Some np /\
    ObjectPack.size np = 0 /\ ObjectPack.buckets_ np = [] /\
    ObjectPack.CommitBucket ObjectPack.kRegular [] 2 "" np = Some (false, np) /\
    forall fuel force_dispatch,
      CommitBucket fuel ObjectPack.kRegular [] 2 "" force_dispatch
        (state_after oversize_bucket_open) = OutOfFuel.
Proof.
  destruct (current_pack_ (state_after oversize_bucket_open)) as [p|] eqn:Hp;
    [| vm_compute in Hp; discriminate].
  exists p, (ObjectPack.mkPack 100 0 (ObjectPack.open_buckets_ p) []).
  assert (Hopen : ObjectPack.open_buckets_ p !! 2%positive = Some (bytes_of 150)).
  { vm_compute in Hp. injection Hp as <-. vm_compute. reflexivity. }
  assert (Hsize : ObjectPack.size p = 60 /\ ObjectPack.limit_ p = 100).
  { vm_compute in Hp. injection Hp as <-. vm_compute. auto. }
  destruct Hsize as [Hsize Hlimit]. unfold ObjectPack.size in Hsize.
  assert (Hbig : ObjectPack.bucket_size (bytes_of 150) = 150) by reflexivity.
  split; [reflexivity |]. split; [reflexivity |]. split; [exact Hsize |].
  split; [exact Hopen |].
  split; [apply (ObjectPack_CommitBucket_full _ _ _ _ _ _ Hopen); lia |].
  split; [reflexivity |]. split; [reflexivity |]. split; [reflexivity |].
  split; [apply (ObjectPack_CommitBucket_full _ _ _ _
                    (ObjectPack.mkPack 100 0 (ObjectPack.open_buckets_ p) [])
                    (bytes_of 150) Hopen);
          cbn [ObjectPack.limit_ ObjectPack.size_]; lia |].
  intros fuel force_dispatch.
  apply (oversize_never_returns ObjectPack.kRegular [] 2 "" fuel force_dispatch
           (state_after oversize_bucket_open) p (bytes_of 150) Hp
           oversize_bucket_open_handles Hopen); [lia |].
  change (max_pack_size_ (state_after oversize_bucket_open)) with 100. lia.
Qed.

(** ** Rotation safety on the sample session *)

Example rotation_with_open_bucket_objects :
  ledger_committed (ledger_after rotation_with_open_bucket) =
    [ ObjectPack.mkBucket 2 (bytes_of 60) ObjectPack.kRegular [] "";
      ObjectPack.mkBucket 3 (bytes_of 60) ObjectPack.kRegular [] "";
      ObjectPack.mkBucket 1 [x61; x62; x63; x64; x65] ObjectPack.kRegular [] "" ].
Proof. vm_compute. reflexivity. Qed.



(** ** The result of an upload is not passed on *)

Section Masked.

Context `{Collaborators}.

Lemma UploadLoop_jobs_blind net net' queued : forall jp s,
  UploadLoop_jobs net queued jp s = UploadLoop_jobs net' queued jp s.
Proof.
  induction queued as [|job queued IH]; intros jp s; cbn [UploadLoop_jobs].
  - reflexivity.
  - destruct (jp <? NumJobsSubmitted _); [| reflexivity].
    destruct (Future_Set _ _ _); cbn; auto.
Qed.

Lemma UploadLoop_blind net net' s : UploadLoop net s = UploadLoop net' s.
Proof.
  unfold UploadLoop. destruct (worker_ s); try reflexivity.
  rewrite (UploadLoop_jobs_blind net net'). reflexivity.
Qed.

Lemma collect_results_blind net net' queue : forall results jf s,
  collect_results net queue results jf s = collect_results net' queue results jf s.
Proof.
  induction queue as [|f queue IH]; intros results jf s; cbn [collect_results].
  - reflexivity.
  - unfold Future_Get. rewrite (UploadLoop_blind net net').
    destruct (Future_value f _); cbn; [apply IH |].
    destruct (UploadLoop net' _) as [s1| | | |]; cbn; try reflexivity.
    destruct (Future_value f s1); cbn; [apply IH | reflexivity].
Qed.

(** Whatever the transport does, [Finalize] gives the same result. *)
Lemma Finalize_blind net net' s : Finalize net s = Finalize net' s.
Proof.
  unfold Finalize. destruct (active_handles_ s); [| reflexivity].
  rewrite (collect_results_blind net net'). reflexivity.
Qed.

(** C1 (failing input): one pack is committed with a forced dispatch and
    the transport cannot connect.  [DoUpload] returns false for the job,
    yet the future of the job holds true after [Finalize], which returns
    true; the lease is set to be dropped. *)
Theorem transport_failure_masked :
  let s0 := snd (Initialize true 0 "https://gw/api/v1" "token" "key" "secret"
                   true 100 (SessionContext_new 0 0 0 0)) in
  let hd := fst (NewBucket s0) in
  exists s1 s2 job s3,
    WriteBucket hd [x01; x02; x03] (snd (NewBucket s0)) = Ret s1 /\
    CommitBucket 1 ObjectPack.kRegular [] hd "" true s1 = Ret (true, s2) /\
    upload_jobs_ s2 = [job] /\
    DoUpload (refused 0) s2 job = false /\
    Finalize refused s2 = Ret (true, s3) /\
    drop_lease_ s3 = true /\
    Future_value (result job) s3 = Some true.
Proof.
  cbv zeta. do 4 eexists.
  split; [vm_compute; reflexivity |]. split; [vm_compute; reflexivity |].
  split; [vm_compute; reflexivity |]. split; [vm_compute; reflexivity |].
  split; [vm_compute; reflexivity |]. split; vm_compute; reflexivity.
Qed.

End Masked.

(** ** Readiness is an invariant of the session *)

Lemma session_ready_view (s s' : SessionContext) :
  worker_view s' = worker_view s -> session_ready s -> session_ready s'.
Proof.
  unfold worker_view. intros [= Hr Hj Hd Ht Hw Hf].
  intros [[Hrun Hwrap Hflag Hunset Hdist] Hcount (completed & Hres & Hset)].
  split; [split |..].
  - rewrite Hw, Hj, Hd. exact Hrun.
  - rewrite Hd. exact Hwrap.
  - rewrite Ht. exact Hflag.
  - rewrite Hj, Hf. exact Hunset.
  - rewrite Hj. exact Hdist.
  - rewrite Hd, Hr. exact Hcount.
  - exists completed. rewrite Hr, Hj. split; [exact Hres |].
    intros f Hin. unfold Future_value. rewrite Hf. apply Hset, Hin.
Qed.

Lemma worker_view_set_current_pack v s :
  worker_view (set_current_pack v s) = worker_view s.
Proof. reflexivity. Qed.

Lemma objects_dispatched_set_current_pack v s :
  objects_dispatched_ (set_current_pack v s) = objects_dispatched_ s.
Proof. reflexivity. Qed.

Section Ready.

Context `{Collaborators}.
Variable net : Z -> Curl.

Lemma Initialize_ready lock pthread_create api_url session_token key_id secret
    drop_lease max_pack_size s0 s :
  Initialize lock pthread_create api_url session_token key_id secret drop_lease
    max_pack_size s0 = (true, s) ->
  session_ready s /\ objects_dispatched_ s = 0.
Proof.
  unfold Initialize. destruct lock; cbn [negb]; [| discriminate].
  unfold InitializeDerived. cbn.
  destruct (pthread_create =? 0); [| discriminate].
  destruct (current_pack_ s0); [discriminate |].
  intros [= <-]. split; [| reflexivity].
  split; [split |..]; cbn.
  - exists 0. repeat split; lia.
  - lia.
  - reflexivity.
  - intros job Hin. inversion Hin.
  - constructor.
  - reflexivity.
  - exists []. split; [reflexivity |]. intros f Hin. inversion Hin.
Qed.

Lemma Dispatch_count s :
  objects_dispatched_ s < 2 ^ 63 - 1 -> 0 <= objects_dispatched_ s ->
  objects_dispatched_ s <= objects_dispatched_ (Dispatch s)
    <= objects_dispatched_ s + 1.
Proof.
  intros Hroom Hpos. unfold Dispatch. destruct (current_pack_ s); [| lia].
  cbn. rewrite s64_small; lia.
Qed.

Lemma session_ready_count s : session_ready s -> 0 <= objects_dispatched_ s.
Proof. intros [_ Hc _]. rewrite Hc. lia. Qed.

Lemma CommitBucket_ready fuel : forall type hash hd nm force_dispatch s b s',
  session_ready s ->
  objects_dispatched_ s + Z.of_nat fuel < 2 ^ 63 ->
  CommitBucket fuel type hash hd nm force_dispatch s = Ret (b, s') ->
  session_ready s' /\
  objects_dispatched_ s' <= objects_dispatched_ s + Z.of_nat fuel.
Proof.
  induction fuel as [|fuel IH]; intros type hash hd nm force_dispatch s b s'
    Hready Hroom; [discriminate |].
  pose proof (session_ready_count s Hready) as Hpos.
  cbn [CommitBucket]. destruct (current_pack_ s) as [p|].
  2:{ intros [= _ <-]. split; [exact Hready | lia]. }
  destruct (ObjectPack.CommitBucket type hash hd nm p) as [[[] p']|];
    [| | discriminate].
  - intros [= _ <-].
    match goal with |- context [if force_dispatch then _ else ?x] => set (s1 := x) end.
    assert (Hready1 : session_ready s1)
      by (apply (session_ready_view s s1); [reflexivity | exact Hready]).
    assert (Hod1 : objects_dispatched_ s1 = objects_dispatched_ s) by reflexivity.
    destruct force_dispatch; [| split; [exact Hready1 | lia]].
    assert (Hready2 : session_ready (Dispatch s1))
      by (apply Dispatch_ready; [exact Hready1 | lia]).
    pose proof (Dispatch_count s1 ltac:(lia) ltac:(lia)) as Hcount.
    split.
    + apply (session_ready_view (Dispatch s1));
        [apply worker_view_set_current_pack | exact Hready2].
    + rewrite objects_dispatched_set_current_pack. lia.
  - destruct (transfer_buckets _ _ _) as [[p'' np]|]; [| discriminate].
    set (s1 := set_current_pack (Some p'') s).
    assert (Hready1 : session_ready s1)
      by (apply (session_ready_view s s1); [reflexivity | exact Hready]).
    assert (Hod1 : objects_dispatched_ s1 = objects_dispatched_ s) by reflexivity.
    assert (Hready2 : session_ready (Dispatch s1))
      by (apply Dispatch_ready; [exact Hready1 | lia]).
    pose proof (Dispatch_count s1 ltac:(lia) ltac:(lia)) as Hcount.
    set (s2 := set_current_pack (Some np) (Dispatch s1)).
    assert (Hready3 : session_ready s2)
      by (apply (session_ready_view (Dispatch s1));
          [apply worker_view_set_current_pack | exact Hready2]).
    assert (Hod2 : objects_dispatched_ s2 = objects_dispatched_ (Dispatch s1))
      by apply objects_dispatched_set_current_pack.
    destruct (CommitBucket fuel type hash hd nm false s2) as [[b1 s3]| | | |] eqn:E;
      cbn; try discriminate.
    intros [= _ <-].
    destruct (IH _ _ _ _ _ _ _ _ Hready3 ltac:(lia) E) as [Hready4 Hod4].
    split; [exact Hready4 | lia].
Qed.


Lemma UploadLoop_session_ready s :
  session_ready s ->
  exists s',
    UploadLoop net s = Ret s' /\ session_ready s' /\
    objects_dispatched_ s' = objects_dispatched_ s.
Proof.
  intros [Hworker Hcount (completed & Hres & Hset)].
  destruct (UploadLoop_ready net s Hworker) as (s' & Hrun & Hworker' & Hjobs & Hdone).
  pose proof Hrun as Hinv. apply UploadLoop_inv in Hinv as (Ha & Hr & Hm).
  apply accounts_fields in Ha as (_ & _ & Hod & _).
  exists s'. split; [exact Hrun |]. split; [| exact Hod].
  split; [exact Hworker' | congruence |].
  exists (upload_results_ s). rewrite Hjobs, app_nil_r. split; [exact Hr |].
  intros f Hin. rewrite Hres in Hin. apply elem_of_app in Hin as [Hin|Hin].
  - destruct (Hset f Hin) as [v Hv]. exists v. apply Hm, Hv.
  - apply list_elem_of_fmap in Hin as (job & -> & Hin). exists true.
    apply Hdone, Hin.
Qed.

Lemma WaitForUpload_ready s s' :
  session_ready s -> WaitForUpload net s = Ret s' ->
  session_ready s' /\ objects_dispatched_ s' = objects_dispatched_ s.
Proof.
  intros Hready. unfold WaitForUpload.
  destruct (upload_results_ s); [intros [= <-]; auto |].
  destruct (queue_was_flushed_ s) as [|b q] eqn:Hq; cbn.
  - destruct (UploadLoop_session_ready s Hready) as (s1 & Hrun & Hready1 & Hod).
    rewrite Hrun. cbn. destruct (queue_was_flushed_ s1); [discriminate |].
    intros [= <-]. split; [| exact Hod].
    apply (session_ready_view s1); [reflexivity | exact Hready1].
  - rewrite Hq. intros [= <-]. split; [| reflexivity].
    apply (session_ready_view s); [reflexivity | exact Hready].
Qed.

Lemma exec_ready fuel op s s' :
  op <> OFinalize ->
  session_ready s ->
  objects_dispatched_ s + Z.of_nat fuel < 2 ^ 63 ->
  exec fuel net op s = Ret s' ->
  session_ready s' /\
  objects_dispatched_ s' <= objects_dispatched_ s + Z.of_nat fuel.
Proof.
  intros Hop Hready Hroom. destruct op; cbn [exec]; try congruence.
  - intros [= <-]. split; [| cbn; lia].
    apply (session_ready_view s); [reflexivity | exact Hready].
  - unfold WriteBucket. destruct (current_pack_ s) as [p|]; [| discriminate].
    destruct (ObjectPack.Write hd data p); [| discriminate].
    intros [= <-]. split; [| cbn; lia].
    apply (session_ready_view s); [reflexivity | exact Hready].
  - destruct (CommitBucket fuel type hash hd nm force_dispatch s)
      as [[b s1]| | | |] eqn:E; cbn; try discriminate.
    intros [= <-]. apply (CommitBucket_ready _ _ _ _ _ _ _ _ _ Hready Hroom E).
  - intros E. destruct (WaitForUpload_ready s s' Hready E) as [? Hod].
    split; [assumption | lia].
  - intros E. destruct (UploadLoop_session_ready s Hready) as (s1 & Hrun & ? & Hod).
    rewrite Hrun in E. injection E as <-. split; [assumption | lia].
Qed.

Lemma run_ready fuel ops : forall s s',
  OFinalize ∉ ops ->
  session_ready s ->
  objects_dispatched_ s + Z.of_nat fuel * Z.of_nat (length ops) < 2 ^ 63 ->
  run fuel net ops s = Ret s' ->
  session_ready s' /\
  objects_dispatched_ s' <=
    objects_dispatched_ s + Z.of_nat fuel * Z.of_nat (length ops).
Proof.
  induction ops as [|op ops IH]; intros s s' Hops Hready Hroom; cbn [run].
  - intros [= <-]. split; [exact Hready | lia].
  - apply not_elem_of_cons in Hops as [Hop Hops]. cbn [length] in *.
    destruct (exec fuel net op s) as [s1| | | |] eqn:E; cbn; try discriminate.
    destruct (exec_ready fuel op s s1) as [Hready1 Hod1];
      [congruence | exact Hready | nia | exact E |].
    intros Hrun. destruct (IH s1 s' Hops Hready1 ltac:(nia) Hrun) as [Hready' Hod'].
    split; [exact Hready' | nia].
Qed.

(** Every state reached from a successful [Initialize] by calls other
    than [Finalize] is ready, as long as the counter of dispatched packs
    cannot have wrapped. *)
Lemma reachable_ready fuel ops lock pthread_create api_url session_token key_id
    secret drop_lease max_pack_size s0 s s' :
  Initialize lock pthread_create api_url session_token key_id secret drop_lease
    max_pack_size s0 = (true, s) ->
  OFinalize ∉ ops ->
  Z.of_nat fuel * Z.of_nat (length ops) < 2 ^ 63 - 1 ->
  run fuel net ops s = Ret s' ->
  session_ready s' /\ objects_dispatched_ s' < 2 ^ 63 - 1.
Proof.
  intros Hinit Hops Hroom Hrun.
  apply Initialize_ready in Hinit as [Hready Hzero].
  destruct (run_ready fuel ops s s' Hops Hready ltac:(lia) Hrun) as [Hready' Hod].
  split; [exact Hready' | lia].
Qed.

End Ready.

Lemma three_commits_ready :
  session_ready (state_after three_commits) /\
  objects_dispatched_ (state_after three_commits) < 2 ^ 63 - 1.
Proof.
  apply (@reachable_ready sample_collaborators accepting 2 three_commits
           true 0 "https://gw/api/v1" "token" "key" "secret" true 100
           (@SessionContext_new sample_collaborators 0 0 0 0) sample_session).
  - reflexivity.
  - unfold three_commits, third_bucket_open, commit.
    intros Hin. repeat (apply elem_of_cons in Hin as [Hin|Hin]; [discriminate |]).
    inversion Hin.
  - vm_compute. reflexivity.
  - vm_compute. reflexivity.
Qed.

Lemma Finalize_accounting_witness :
  session_ready (state_after three_commits) /\
  active_handles_ (state_after three_commits) = [] /\
  Z.of_nat (length (upload_results_ (dispatch_last_pack (state_after three_commits))))
    <= channel_capacity /\
  exists b s',
    @Finalize sample_collaborators accepting (state_after three_commits) = Ret (b, s') /\
    Z.of_nat (length (upload_results_ (dispatch_last_pack (state_after three_commits))))
      = NumJobsSubmitted s' /\
    upload_results_ s' = [] /\
    (bytes_committed_ s' <> bytes_dispatched_ s' -> b = false).
Proof.
  destruct three_commits_ready as [Hready _].
  assert (Hact : active_handles_ (state_after three_commits) = [])
    by (vm_compute; reflexivity).
  assert (Hcap : Z.of_nat (length (upload_results_
                                    (dispatch_last_pack (state_after three_commits))))
                 <= channel_capacity) by (vm_compute; discriminate).
  split; [exact Hready |]. split; [exact Hact |]. split; [exact Hcap |].
  destruct (@Finalize_accounting sample_collaborators accepting
              (state_after three_commits) Hready Hact Hcap)
    as (b & s1 & s' & Hfin & Hn & He & _ & _ & _ & _ & _ & Hne).
  exists b, s'. auto.
Defined.


(** ** Rotation safety under any schedule of the worker *)








Section Schedule.

Context `{Collaborators}.
Variable net : Z -> Curl.







End Schedule.


(** In that schedule the worker has taken the pack of the first object, the
    pack of the second is queued and the third object is in the current
    pack. *)
Lemma worker_between_commits_objects :
  map ObjectPack.handle
    (objects_of (@run_uploads sample_collaborators 2 accepting
                   worker_between_commits sample_session)) = [1%positive] /\
  map ObjectPack.handle (dispatched_objects (state_after worker_between_commits))
    = [2%positive] /\
  map ObjectPack.handle (committed_objects (state_after worker_between_commits))
    = [2; 3]%positive /\
  map ObjectPack.handle (ledger_committed (schedule_after worker_between_commits))
    = [1; 2; 3]%positive.
Proof. repeat split; vm_compute; reflexivity. Qed.

(** ** The byte counters *)

Lemma u64_range (x : Z) : 0 <= u64 x < 2 ^ 64.
Proof. unfold u64. apply Z.mod_pos_bound. lia. Qed.

Lemma u64_add_l (x y : Z) : u64 (u64 x + y) = u64 (x + y).
Proof. unfold u64. apply Zplus_mod_idemp_l. Qed.

Lemma u64_small (x : Z) : 0 <= x < 2 ^ 64 -> u64 x = x.
Proof. intros Hx. unfold u64. apply Z.mod_small. exact Hx. Qed.

Lemma bucket_sizes_app (a b : list ObjectPack.Bucket) :
  bucket_sizes (a ++ b) = bucket_sizes a + bucket_sizes b.
Proof.
  unfold bucket_sizes. induction a as [|x a IH]; cbn [app foldr]; [lia |].
  rewrite IH. lia.
Qed.

(** The transfer of open buckets changes neither the committed size nor the
    committed buckets of the two packs. *)
Lemma transfer_buckets_committed handles : forall p other p' other',
  transfer_buckets handles p other = Some (p', other') ->
  ObjectPack.size_ p' = ObjectPack.size_ p /\
  ObjectPack.buckets_ p' = ObjectPack.buckets_ p /\
  ObjectPack.size_ other' = ObjectPack.size_ other /\
  ObjectPack.buckets_ other' = ObjectPack.buckets_ other.
Proof.
  induction handles as [|hd handles IH]; intros p other p' other'; cbn [transfer_buckets].
  - intros [= <- <-]. auto.
  - unfold ObjectPack.TransferBucket.
    destruct (ObjectPack.open_buckets_ p !! hd) as [c|]; [| discriminate].
    intros E. apply IH in E. cbn in E. exact E.
Qed.

Lemma ObjectPack_CommitBucket_inv type hash hd nm p b p' :
  ObjectPack.CommitBucket type hash hd nm p = Some (b, p') ->
  (b = false /\ p' = p) \/
  (b = true /\ exists c,
     ObjectPack.size_ p' = ObjectPack.size_ p + ObjectPack.bucket_size c /\
     ObjectPack.buckets_ p' =
       ObjectPack.buckets_ p ++ [ObjectPack.mkBucket hd c type hash nm]).
Proof.
  unfold ObjectPack.CommitBucket.
  destruct (ObjectPack.open_buckets_ p !! hd) as [c|]; [| discriminate].
  destruct (_ <? _); intros [= <- <-]; [left; auto |].
  right. split; [reflexivity |]. exists c. cbn. auto.
Qed.

Lemma books_balanced_intro s bc bd :
  bytes_committed_ s = bc -> bytes_dispatched_ s = bd ->
  bc = u64 (bd + pack_size s) -> 0 <= bd < 2 ^ 64 ->
  match current_pack_ s with
  | Some p => ObjectPack.size_ p = bucket_sizes (ObjectPack.buckets_ p)
  | None => True
  end ->
  books_balanced s.
Proof. intros <- <- ? ? ?. split; assumption. Qed.

Lemma Dispatch_books s :
  books_balanced s -> books_balanced (set_current_pack None (Dispatch s)).
Proof.
  intros [Hc Hr Hp]. unfold Dispatch, pack_size in *.
  destruct (current_pack_ s) as [p|] eqn:E.
  - apply (books_balanced_intro _ (bytes_committed_ s)
             (u64 (bytes_dispatched_ s + ObjectPack.size p)));
      [reflexivity | reflexivity | | apply u64_range | exact I].
    cbn. rewrite Hc, Z.add_0_r. unfold u64. rewrite Z.mod_mod by lia. reflexivity.
  - apply (books_balanced_intro _ (bytes_committed_ s) (bytes_dispatched_ s));
      [reflexivity | reflexivity | | exact Hr | exact I].
    cbn. exact Hc.
Qed.

Lemma Dispatch_bytes s p :
  current_pack_ s = Some p ->
  bytes_dispatched_ (Dispatch s) = u64 (bytes_dispatched_ s + ObjectPack.size p) /\
  objects_dispatched_ (Dispatch s) = s64 (objects_dispatched_ s + 1).
Proof. intros Hp. unfold Dispatch. rewrite Hp. cbn. auto. Qed.

Lemma set_current_pack_bytes v s :
  bytes_committed_ (set_current_pack v s) = bytes_committed_ s /\
  bytes_dispatched_ (set_current_pack v s) = bytes_dispatched_ s.
Proof. split; reflexivity. Qed.

Lemma rotation_books s p'' np :
  books_balanced s ->
  ObjectPack.size_ p'' = pack_size s ->
  ObjectPack.size_ np = 0 -> ObjectPack.buckets_ np = [] ->
  books_balanced
    (set_current_pack (Some np) (Dispatch (set_current_pack (Some p'') s))).
Proof.
  intros [Hc Hr Hp] Hsize Hzero Hnil.
  set (s1 := set_current_pack (Some p'') s).
  destruct (Dispatch_bytes s1 p'' eq_refl) as [Hbd _].
  destruct (Dispatch_fields s1) as (_ & _ & _ & _ & _ & Hbc & _).
  apply (books_balanced_intro _ (bytes_committed_ s)
           (u64 (bytes_dispatched_ s + pack_size s))).
  - rewrite (proj1 (set_current_pack_bytes _ _)), Hbc. reflexivity.
  - rewrite (proj2 (set_current_pack_bytes _ _)), Hbd.
    unfold ObjectPack.size. rewrite Hsize. reflexivity.
  - unfold pack_size at 2. cbn [current_pack_ set_current_pack].
    unfold ObjectPack.size. rewrite Hzero, Z.add_0_r.
    unfold u64 at 2. unfold u64. rewrite Z.mod_mod by lia. exact Hc.
  - apply u64_range.
  - cbn [current_pack_ set_current_pack]. rewrite Hzero, Hnil. reflexivity.
Qed.

Lemma CommitBucket_books fuel : forall type hash hd nm force_dispatch s b s',
  books_balanced s ->
  CommitBucket fuel type hash hd nm force_dispatch s = Ret (b, s') ->
  books_balanced s'.
Proof.
  induction fuel as [|fuel IH]; intros type hash hd nm force_dispatch s b s' Hbooks;
    [discriminate |].
  cbn [CommitBucket]. destruct (current_pack_ s) as [p|] eqn:Hp.
  2:{ intros [= _ <-]. exact Hbooks. }
  destruct (ObjectPack.CommitBucket type hash hd nm p) as [[committed p']|] eqn:Hcommit;
    [| discriminate].
  apply ObjectPack_CommitBucket_inv in Hcommit as [[-> ->]|[-> (c & Hsize & Hbuckets)]].
  - destruct (transfer_buckets _ _ _) as [[p'' np]|] eqn:Ht; [| discriminate].
    apply transfer_buckets_committed in Ht as (Hs1 & _ & Hs2 & Hb2).
    match goal with |- context [CommitBucket fuel _ _ _ _ _ ?x] =>
      destruct (CommitBucket fuel type hash hd nm false x) as [[b1 s1]| | | |] eqn:E
    end; cbn; try discriminate.
    intros [= _ <-]. apply IH in E; [exact E |].
    apply rotation_books; try assumption.
    unfold pack_size. rewrite Hp. exact Hs1.
  - intros [= _ <-].
    destruct Hbooks as [Hc Hr Hpk]. unfold pack_size in Hc. rewrite Hp in Hc, Hpk.
    match goal with |- context [if force_dispatch then _ else ?x] => set (s1 := x) end.
    assert (Hbooks1 : books_balanced s1).
    { apply (books_balanced_intro _
               (u64 (bytes_committed_ s + (ObjectPack.size p' - ObjectPack.size p)))
               (bytes_dispatched_ s)); [reflexivity | reflexivity | | exact Hr |].
      - unfold pack_size. cbn [current_pack_ set_current_pack set_active_handles
                                 set_bytes_committed s1].
        rewrite Hc, u64_add_l. f_equal. unfold ObjectPack.size. lia.
      - cbn [current_pack_ set_current_pack set_active_handles set_bytes_committed s1].
        rewrite Hsize, Hbuckets, bucket_sizes_app, Hpk. cbn. lia. }
    destruct force_dispatch; [apply Dispatch_books, Hbooks1 | exact Hbooks1].
Qed.

Lemma books_balanced_accounts s s' :
  accounts s' = accounts s -> books_balanced s -> books_balanced s'.
Proof.
  unfold accounts. intros E [Hc Hr Hp].
  assert (Hcp : current_pack_ s' = current_pack_ s) by congruence.
  assert (Hbc : bytes_committed_ s' = bytes_committed_ s) by congruence.
  assert (Hbd : bytes_dispatched_ s' = bytes_dispatched_ s) by congruence.
  split.
  - unfold pack_size in *. rewrite Hbc, Hbd, Hcp. exact Hc.
  - rewrite Hbd. exact Hr.
  - rewrite Hcp. exact Hp.
Qed.

Lemma NewBucket_books s : books_balanced s -> books_balanced (snd (NewBucket s)).
Proof.
  intros [Hc Hr Hp]. unfold NewBucket, pack_size in *.
  apply (books_balanced_intro _ (bytes_committed_ s) (bytes_dispatched_ s));
    [reflexivity | reflexivity | | exact Hr |].
  - unfold pack_size. cbn. destruct (current_pack_ s); exact Hc.
  - cbn. destruct (current_pack_ s); [exact Hp | reflexivity].
Qed.

Lemma WriteBucket_books hd data s s' :
  books_balanced s -> WriteBucket hd data s = Ret s' -> books_balanced s'.
Proof.
  intros [Hc Hr Hp]. unfold WriteBucket, pack_size in *.
  destruct (current_pack_ s) as [p|]; [| discriminate].
  unfold ObjectPack.Write. destruct (ObjectPack.open_buckets_ p !! hd); [| discriminate].
  intros [= <-].
  apply (books_balanced_intro _ (bytes_committed_ s) (bytes_dispatched_ s));
    [reflexivity | reflexivity | exact Hc | exact Hr | exact Hp].
Qed.

Section Books.

Context `{Collaborators}.
Variable net : Z -> Curl.

Lemma WaitForUpload_accounts s s' :
  WaitForUpload net s = Ret s' -> accounts s' = accounts s.
Proof.
  unfold WaitForUpload. destruct (upload_results_ s); [intros [= <-]; reflexivity |].
  destruct (queue_was_flushed_ s) as [|b q] eqn:Hq; cbn.
  - destruct (UploadLoop net s) as [s1| | | |] eqn:E; cbn; try discriminate.
    apply UploadLoop_inv in E as (Ha & _).
    destruct (queue_was_flushed_ s1); [discriminate |].
    intros [= <-]. rewrite <- Ha. reflexivity.
  - rewrite Hq. intros [= <-]. reflexivity.
Qed.

Lemma exec_books fuel op s s' :
  op <> OFinalize -> books_balanced s ->
  exec fuel net op s = Ret s' -> books_balanced s'.
Proof.
  intros Hop Hbooks. destruct op; cbn [exec]; try congruence.
  - intros [= <-]. apply NewBucket_books, Hbooks.
  - apply WriteBucket_books, Hbooks.
  - destruct (CommitBucket fuel type hash hd nm force_dispatch s)
      as [[b s1]| | | |] eqn:E; cbn; try discriminate.
    intros [= <-]. apply (CommitBucket_books _ _ _ _ _ _ _ _ _ Hbooks E).
  - intros E. apply WaitForUpload_accounts in E.
    apply (books_balanced_accounts s s' E Hbooks).
  - intros E. apply UploadLoop_inv in E as (Ha & _).
    apply (books_balanced_accounts s s' Ha Hbooks).
Qed.

Lemma run_books fuel ops : forall s s',
  OFinalize ∉ ops -> books_balanced s ->
  run fuel net ops s = Ret s' -> books_balanced s'.
Proof.
  induction ops as [|op ops IH]; intros s s' Hops Hbooks; cbn [run].
  - intros [= <-]. exact Hbooks.
  - apply not_elem_of_cons in Hops as [Hop Hops].
    destruct (exec fuel net op s) as [s1| | | |] eqn:E; cbn; try discriminate.
    apply IH; [exact Hops |]. apply (exec_books fuel op s s1); congruence.
Qed.

Lemma Initialize_books lock pthread_create api_url session_token key_id secret
    drop_lease max_pack_size s0 s :
  Initialize lock pthread_create api_url session_token key_id secret drop_lease
    max_pack_size s0 = (true, s) ->
  books_balanced s.
Proof.
  unfold Initialize. destruct lock; cbn [negb]; [| discriminate].
  unfold InitializeDerived. cbn.
  destruct (pthread_create =? 0); [| discriminate].
  destruct (current_pack_ s0) eqn:Hp; [discriminate |].
  intros [= <-]. split.
  - unfold pack_size. cbn. rewrite ?Hp. reflexivity.
  - cbn. lia.
  - cbn. rewrite ?Hp. exact I.
Qed.

(** X2: in every state reached from a successful [Initialize] by calls other
    than [Finalize], the bytes committed are the bytes dispatched plus the
    committed size of the current pack (modulo 2^64); without a current pack
    the two counters are equal; and the committed size of the current pack
    is the sum of the sizes of its committed buckets. *)
Theorem bytes_committed_balance fuel ops lock pthread_create api_url
    session_token key_id secret drop_lease max_pack_size s0 s s' :
  Initialize lock pthread_create api_url session_token key_id secret drop_lease
    max_pack_size s0 = (true, s) ->
  OFinalize ∉ ops ->
  run fuel net ops s = Ret s' ->
  bytes_committed_ s' = u64 (bytes_dispatched_ s' + pack_size s') /\
  (current_pack_ s' = None -> bytes_committed_ s' = bytes_dispatched_ s') /\
  (forall p, current_pack_ s' = Some p ->
             ObjectPack.size p = bucket_sizes (ObjectPack.buckets_ p)).
Proof.
  intros Hinit Hops Hrun. apply Initialize_books in Hinit.
  destruct (run_books fuel ops s s' Hops Hinit Hrun) as [Hc Hr Hp].
  split; [exact Hc |]. split.
  - intros Hnone. unfold pack_size in Hc. rewrite Hnone, Z.add_0_r in Hc.
    rewrite Hc. apply u64_small, Hr.
  - intros p Hsome. rewrite Hsome in Hp. exact Hp.
Qed.

End Books.

(** ** [Finalize] reports success *)

Lemma never_false_refl s : never_false s s.
Proof. intros f Hf. exact Hf. Qed.

Lemma never_false_trans s1 s2 s3 :
  never_false s1 s2 -> never_false s2 s3 -> never_false s1 s3.
Proof. intros H12 H23 f Hf. apply H23, H12, Hf. Qed.

Lemma never_false_futures s s' : futures_ s' = futures_ s -> never_false s s'.
Proof. intros E f Hf. unfold Future_value in *. rewrite E. exact Hf. Qed.

Lemma Dispatch_never_false s : never_false s (Dispatch s).
Proof.
  intros f Hf. unfold Dispatch. destruct (current_pack_ s); [| exact Hf].
  unfold Future_value in *. cbn.
  destruct (decide (f < length (futures_ s))%nat) as [Hlt|Hge].
  - rewrite lookup_app_l by exact Hlt. exact Hf.
  - rewrite lookup_app_r by lia.
    destruct (f - length (futures_ s))%nat as [|n]; cbn; discriminate.
Qed.

Section Success.

Context `{Collaborators}.

Lemma UploadLoop_jobs_never_false net queued : forall jp s jp' s',
  UploadLoop_jobs net queued jp s = Ret (jp', s') -> never_false s s'.
Proof.
  induction queued as [|job queued IH]; intros jp s jp' s'; cbn [UploadLoop_jobs].
  - destruct (jp <? NumJobsSubmitted s); [discriminate |].
    intros [= _ <-]. apply never_false_refl.
  - destruct (jp <? NumJobsSubmitted _).
    2:{ intros [= _ <-]. apply never_false_refl. }
    destruct (Future_Set _ _ _) as [s1| | | |] eqn:E; cbn; try discriminate.
    apply Future_Set_inv in E as [Hunset ->]. cbn in Hunset.
    intros E. apply IH in E. intros f Hf. apply E.
    rewrite (Future_value_insert f (result job) true (set_upload_jobs queued s))
      by exact Hunset.
    destruct (decide (f = result job)); [discriminate | exact Hf].
Qed.

Lemma UploadLoop_never_false net s s' : UploadLoop net s = Ret s' -> never_false s s'.
Proof.
  unfold UploadLoop. destruct (worker_ s) as [|jp|].
  - intros [= <-]. apply never_false_refl.
  - destruct (ShouldTerminate s);
      [intros [= <-]; apply never_false_futures; reflexivity |].
    destruct (UploadLoop_jobs _ _ _ _) as [[jp' s1]| | | |] eqn:E;
      cbn; try discriminate.
    apply UploadLoop_jobs_never_false in E. intros [= <-].
    eapply never_false_trans; [exact E |].
    apply never_false_futures. destruct (queue_was_flushed_ s1); reflexivity.
  - intros [= <-]. apply never_false_refl.
Qed.

Lemma Future_Get_never_false net f s v s' :
  Future_Get net f s = Ret (v, s') -> never_false s s'.
Proof.
  unfold Future_Get. destruct (Future_value f s).
  - intros [= _ <-]. apply never_false_refl.
  - destruct (UploadLoop net s) as [s1| | | |] eqn:E; cbn; try discriminate.
    apply UploadLoop_never_false in E.
    destruct (Future_value f s1); [| discriminate]. intros [= _ <-]. exact E.
Qed.

Lemma collect_results_never_false net queue : forall results jf s r jf' s',
  collect_results net queue results jf s = Ret (r, jf', s') -> never_false s s'.
Proof.
  induction queue as [|f queue IH]; intros results jf s r jf' s'; cbn [collect_results].
  - destruct (jf <? NumJobsSubmitted s); [discriminate |].
    intros [= _ _ <-]. apply never_false_refl.
  - destruct (Future_Get net f (set_upload_results queue s)) as [[v s1]| | | |] eqn:E;
      cbn; try discriminate.
    apply Future_Get_never_false in E. intros E'. apply IH in E'.
    eapply never_false_trans; [| exact E'].
    eapply never_false_trans; [| exact E]. apply never_false_futures. reflexivity.
Qed.

Lemma Finalize_never_false net s b s' :
  Finalize net s = Ret (b, s') -> never_false s s'.
Proof.
  unfold Finalize. destruct (active_handles_ s); [| discriminate].
  destruct (collect_results net _ true 0 (dispatch_last_pack s))
    as [[[r jf] s1]| | | |] eqn:E; cbn; try discriminate.
  apply collect_results_never_false in E. intros [= _ <-].
  eapply never_false_trans; [| eapply never_false_trans; [exact E |]].
  - unfold dispatch_last_pack. destruct (current_pack_ s) as [p|];
      [| apply never_false_refl].
    destruct (0 <? ObjectPack.GetNoObjects p); [| apply never_false_refl].
    eapply never_false_trans; [apply Dispatch_never_false |].
    apply never_false_futures. reflexivity.
  - apply never_false_futures.
    destruct (drop_lease_ s1); cbn; destruct (worker_ s1); reflexivity.
Qed.

Lemma dispatch_last_pack_balance s :
  books_balanced s ->
  bytes_committed_ s = bytes_dispatched_ (dispatch_last_pack s).
Proof.
  intros [Hc Hr Hp]. unfold dispatch_last_pack, pack_size in *.
  destruct (current_pack_ s) as [p|] eqn:E.
  - unfold ObjectPack.GetNoObjects.
    destruct (0 <? Z.of_nat (length (ObjectPack.buckets_ p))) eqn:Hn.
    + rewrite (proj2 (set_current_pack_bytes _ _)).
      rewrite (proj1 (Dispatch_bytes s p E)). exact Hc.
    + apply Z.ltb_ge in Hn. unfold ObjectPack.size in Hc.
      destruct (ObjectPack.buckets_ p); [| cbn in Hn; lia].
      cbn in Hp. rewrite Hp, Z.add_0_r in Hc. rewrite Hc. apply u64_small, Hr.
  - rewrite Z.add_0_r in Hc. rewrite Hc. apply u64_small, Hr.
Qed.

Lemma dispatch_last_pack_results s f :
  f ∈ upload_results_ (dispatch_last_pack s) ->
  f ∈ upload_results_ s \/ f = length (futures_ s).
Proof.
  unfold dispatch_last_pack, Dispatch. destruct (current_pack_ s) as [p|]; [| auto].
  destruct (0 <? ObjectPack.GetNoObjects p); [| auto].
  cbn. intros Hin. apply elem_of_app in Hin as [Hin|Hin]; [auto |].
  apply list_elem_of_singleton in Hin. auto.
Qed.

Lemma FinalizeDerived_stops s :
  fst (FinalizeDerived s) = true /\
  worker_terminate_ (snd (FinalizeDerived s)) = 1 /\
  forall jp, worker_ (snd (FinalizeDerived s)) <> Running jp.
Proof.
  unfold FinalizeDerived. cbn. destruct (worker_ s) eqn:E; cbn; rewrite ?E;
    repeat split; intros jp; discriminate.
Qed.

(** What [Finalize] does in a ready session, for the use of the lemmas
    below. *)
Lemma Finalize_collects net s :
  session_ready s ->
  active_handles_ s = [] ->
  objects_dispatched_ s < 2 ^ 63 - 1 ->
  let drained := upload_results_ (dispatch_last_pack s) in
  exists (b : bool) (s1 s' : SessionContext),
    Finalize net s = Ret (b, s') /\
    Z.of_nat (length drained) = NumJobsSubmitted s' /\
    upload_results_ s' = [] /\
    (forall f, f ∈ drained -> is_Some (Future_value f s')) /\
    bytes_committed_ s' = bytes_committed_ s /\
    bytes_dispatched_ s' = bytes_dispatched_ (dispatch_last_pack s) /\
    s' = snd (FinalizeDerived s1) /\
    (b = true <->
       (forall f, f ∈ drained -> Future_value f s' = Some true) /\
       bytes_committed_ s' = bytes_dispatched_ s' /\
       fst (FinalizeDerived s1) = true) /\
    (bytes_committed_ s' <> bytes_dispatched_ s' -> b = false).
Proof.
  intros Hready Hact Hroom drained.
  pose proof (dispatch_last_pack_ready s Hready Hroom) as Hready'.
  destruct (dispatch_last_pack_committed s) as (Hbc & Hah & Hdl).
  subst drained. set (s0 := dispatch_last_pack s) in *.
  destruct Hready' as [Hworker Hcount (completed & Hres & Hset)].
  destruct (collect_results_ready net completed true 0 s0 Hworker Hset)
    as (s2 & Hrun & Hempty & Ha & Hm & Hall); [lia | | exact Hres |].
  { rewrite <- Hres. lia. }
  rewrite <- Hres in Hrun, Hall.
  apply accounts_fields in Ha as (_ & Hdl2 & Hod & Hbc2 & Hbd).
  set (s3 := if drop_lease_ s2 then snd (DropLease s2) else s2).
  assert (Hs3 : s3 = s2) by (subst s3; destruct (drop_lease_ s2); reflexivity).
  exists (fst (FinalizeDerived s3) && (bytes_committed_ s2 =? bytes_dispatched_ s2)
            && forallb (succeeded s2) (upload_results_ s0)),
         s3, (snd (FinalizeDerived s3)).
  assert (Hval : forall f, Future_value f (snd (FinalizeDerived s3)) = Future_value f s2).
  { intros f. rewrite Hs3. unfold FinalizeDerived, Future_value. cbn.
    destruct (worker_ s2); reflexivity. }
  assert (Hfields : bytes_committed_ (snd (FinalizeDerived s3)) = bytes_committed_ s2 /\
                    bytes_dispatched_ (snd (FinalizeDerived s3)) = bytes_dispatched_ s2 /\
                    upload_results_ (snd (FinalizeDerived s3)) = upload_results_ s2 /\
                    objects_dispatched_ (snd (FinalizeDerived s3)) = objects_dispatched_ s2).
  { rewrite Hs3. unfold FinalizeDerived. cbn. destruct (worker_ s2); cbn; auto. }
  destruct Hfields as (Fbc & Fbd & Fur & Fod).
  split.
  { unfold Finalize. rewrite Hact. fold s0. rewrite Hrun. clear Hs3. subst s3.
    cbn. destruct (drop_lease_ s2); cbn; destruct (worker_ s2); cbn;
      rewrite ?andb_true_r; reflexivity. }
  rewrite Fbc, Fbd. unfold NumJobsSubmitted. rewrite Fod, Fur.
  split; [congruence |]. split; [exact Hempty |].
  split; [intros f Hin; rewrite Hval; apply Hall, Hin |].
  split; [congruence |]. split; [congruence |]. split; [reflexivity |].
  split; [split |].
  - intros Hb. apply andb_true_iff in Hb as [Hb Hfa].
    apply andb_true_iff in Hb as [Hfd Heq]. apply Z.eqb_eq in Heq.
    split; [| split; [exact Heq | exact Hfd]].
    intros f Hin. rewrite Hval. rewrite forallb_forall in Hfa.
    apply list_elem_of_In, Hfa in Hin.
    apply bool_decide_eq_true in Hin. exact Hin.
  - intros (Hfa & Heq & Hfd). rewrite Hfd. apply Z.eqb_eq in Heq. rewrite Heq. cbn.
    apply forallb_forall. intros f Hin. apply bool_decide_eq_true.
    rewrite <- Hval. apply Hfa, list_elem_of_In, Hin.
  - intros Hne. apply Z.eqb_neq in Hne. rewrite Hne, andb_false_r. reflexivity.
Qed.

(** In a ready session whose books are balanced and whose collected
    futures do not hold false, [Finalize] returns true. *)
Lemma Finalize_true net s :
  session_ready s -> books_balanced s -> no_failed_result s ->
  active_handles_ s = [] -> objects_dispatched_ s < 2 ^ 63 - 1 ->
  exists s',
    Finalize net s = Ret (true, s') /\ upload_results_ s' = [] /\
    worker_terminate_ s' = 1 /\ forall jp, worker_ s' <> Running jp.
Proof.
  intros Hready Hbooks Hok Hact Hroom.
  destruct (Finalize_collects net s Hready Hact Hroom)
    as (b & s1 & s' & Hfin & _ & Hempty & Hall & Hbc & Hbd & -> & Hiff & _).
  destruct (FinalizeDerived_stops s1) as (Hfd & Hterm & Hworker).
  exists (snd (FinalizeDerived s1)).
  split; [| split; [exact Hempty | split; [exact Hterm | exact Hworker]]].
  rewrite Hfin. do 2 f_equal.
  apply Hiff. split; [| split].
  - intros f Hin. destruct (Hall f Hin) as [[] Hv]; [exact Hv |].
    exfalso. revert Hv. apply (Finalize_never_false net s _ _ Hfin).
    apply dispatch_last_pack_results in Hin as [Hin| ->]; [apply Hok, Hin |].
    unfold Future_value. rewrite lookup_ge_None_2 by lia. discriminate.
  - rewrite Hbc, Hbd. apply dispatch_last_pack_balance, Hbooks.
  - exact Hfd.
Qed.

End Success.

(** ** Invariants of the states a session reaches *)

Lemma no_failed_result_view s s' :
  upload_results_ s' = upload_results_ s -> never_false s s' ->
  no_failed_result s -> no_failed_result s'.
Proof. intros Hr Hn Hok f Hin. rewrite Hr in Hin. apply Hn, Hok, Hin. Qed.

Lemma Dispatch_no_failed_result s :
  no_failed_result s -> no_failed_result (Dispatch s).
Proof.
  intros Hok f. pose proof (Dispatch_never_false s) as Hn.
  unfold Dispatch in *. destruct (current_pack_ s); [| apply Hok].
  cbn. intros Hin. apply elem_of_app in Hin as [Hin|Hin].
  - apply Hn, Hok, Hin.
  - apply list_elem_of_singleton in Hin as ->. unfold Future_value. cbn.
    rewrite (list_lookup_middle (futures_ s) [] None) by reflexivity. discriminate.
Qed.

Lemma set_current_pack_results v s :
  upload_results_ (set_current_pack v s) = upload_results_ s /\
  futures_ (set_current_pack v s) = futures_ s.
Proof. split; reflexivity. Qed.

Lemma no_failed_result_set_current_pack v s :
  no_failed_result s -> no_failed_result (set_current_pack v s).
Proof.
  apply no_failed_result_view; [apply set_current_pack_results |].
  apply never_false_futures, set_current_pack_results.
Qed.

Lemma CommitBucket_no_failed_result fuel :
  forall type hash hd nm force_dispatch s b s',
  no_failed_result s ->
  CommitBucket fuel type hash hd nm force_dispatch s = Ret (b, s') ->
  no_failed_result s'.
Proof.
  induction fuel as [|fuel IH]; intros type hash hd nm force_dispatch s b s' Hok;
    [discriminate |].
  cbn [CommitBucket]. destruct (current_pack_ s) as [p|].
  2:{ intros [= _ <-]. exact Hok. }
  destruct (ObjectPack.CommitBucket type hash hd nm p) as [[[] p']|];
    [| | discriminate].
  - intros [= _ <-].
    match goal with |- context [if force_dispatch then _ else ?x] => set (s1 := x) end.
    assert (Hok1 : no_failed_result s1)
      by (apply (no_failed_result_view s s1);
          [reflexivity | apply never_false_futures; reflexivity | exact Hok]).
    destruct force_dispatch; [| exact Hok1].
    apply no_failed_result_set_current_pack, Dispatch_no_failed_result, Hok1.
  - destruct (transfer_buckets _ _ _) as [[p'' np]|]; [| discriminate].
    set (s1 := set_current_pack (Some p'') s).
    assert (Hok1 : no_failed_result s1)
      by (apply (no_failed_result_view s s1);
          [reflexivity | apply never_false_futures; reflexivity | exact Hok]).
    assert (Hok2 : no_failed_result (set_current_pack (Some np) (Dispatch s1))).
    { apply no_failed_result_set_current_pack, Dispatch_no_failed_result, Hok1. }
    destruct (CommitBucket fuel type hash hd nm false _) as [[b1 s3]| | | |] eqn:E;
      cbn; try discriminate.
    intros [= _ <-]. apply (IH _ _ _ _ _ _ _ _ Hok2 E).
Qed.

Section Invariants.

Context `{Collaborators}.
Variable net : Z -> Curl.

Lemma exec_no_failed_result fuel op s s' :
  op <> OFinalize -> no_failed_result s ->
  exec fuel net op s = Ret s' -> no_failed_result s'.
Proof.
  intros Hop Hok. destruct op; cbn [exec]; try congruence.
  - intros [= <-]. apply (no_failed_result_view s);
      [reflexivity | apply never_false_futures; reflexivity | exact Hok].
  - unfold WriteBucket. destruct (current_pack_ s) as [p|]; [| discriminate].
    destruct (ObjectPack.Write hd data p); [| discriminate].
    intros [= <-]. apply (no_failed_result_view s);
      [reflexivity | apply never_false_futures; reflexivity | exact Hok].
  - destruct (CommitBucket fuel type hash hd nm force_dispatch s)
      as [[b s1]| | | |] eqn:E; cbn; try discriminate.
    intros [= <-]. apply (CommitBucket_no_failed_result _ _ _ _ _ _ _ _ _ Hok E).
  - unfold WaitForUpload. destruct (upload_results_ s) eqn:Hr;
      [intros [= <-]; exact Hok |].
    destruct (queue_was_flushed_ s) as [|b q] eqn:Hq; cbn.
    + destruct (UploadLoop net s) as [s1| | | |] eqn:E; cbn; try discriminate.
      pose proof (UploadLoop_never_false net s s1 E) as Hn.
      apply UploadLoop_inv in E as (_ & Hr1 & _).
      destruct (queue_was_flushed_ s1); [discriminate |].
      intros [= <-]. apply (no_failed_result_view s); [exact Hr1 | | exact Hok].
      eapply never_false_trans; [exact Hn |]. apply never_false_futures. reflexivity.
    + rewrite Hq. intros [= <-]. apply (no_failed_result_view s);
        [reflexivity | apply never_false_futures; reflexivity | exact Hok].
  - intros E. pose proof (UploadLoop_never_false net s s' E) as Hn.
    apply UploadLoop_inv in E as (_ & Hr1 & _).
    apply (no_failed_result_view s s' Hr1 Hn Hok).
Qed.

Lemma run_no_failed_result fuel ops : forall s s',
  OFinalize ∉ ops -> no_failed_result s ->
  run fuel net ops s = Ret s' -> no_failed_result s'.
Proof.
  induction ops as [|op ops IH]; intros s s' Hops Hok; cbn [run].
  - intros [= <-]. exact Hok.
  - apply not_elem_of_cons in Hops as [Hop Hops].
    destruct (exec fuel net op s) as [s1| | | |] eqn:E; cbn; try discriminate.
    apply IH; [exact Hops |].
    apply (exec_no_failed_result fuel op s s1); [| exact Hok | exact E].
    intros ->. apply Hop. reflexivity.
Qed.

Lemma Initialize_no_failed_result lock pthread_create api_url session_token key_id
    secret drop_lease max_pack_size s0 s :
  Initialize lock pthread_create api_url session_token key_id secret drop_lease
    max_pack_size s0 = (true, s) ->
  no_failed_result s /\ queue_was_flushed_ s = [true].
Proof.
  unfold Initialize. destruct lock; cbn [negb]; [| discriminate].
  unfold InitializeDerived. cbn.
  destruct (pthread_create =? 0); [| discriminate].
  destruct (current_pack_ s0); [discriminate |].
  intros [= <-]. split; [| reflexivity]. intros f Hin. inversion Hin.
Qed.

End Invariants.

(** ** What the producers leave to the worker *)

Lemma idle_view_set_current_pack v s : idle_view (set_current_pack v s) = idle_view s.
Proof. reflexivity. Qed.

Lemma Dispatch_idle s : idle_view (Dispatch s) = idle_view s.
Proof. unfold Dispatch. destruct (current_pack_ s); reflexivity. Qed.

Lemma CommitBucket_idle fuel : forall type hash hd nm force_dispatch s b s',
  CommitBucket fuel type hash hd nm force_dispatch s = Ret (b, s') ->
  idle_view s' = idle_view s.
Proof.
  induction fuel as [|fuel IH]; intros type hash hd nm force_dispatch s b s';
    [discriminate |].
  cbn [CommitBucket]. destruct (current_pack_ s) as [p|].
  2:{ intros [= _ <-]. reflexivity. }
  destruct (ObjectPack.CommitBucket type hash hd nm p) as [[[] p']|];
    [| | discriminate].
  - intros [= _ <-]. destruct force_dispatch; [| reflexivity].
    rewrite idle_view_set_current_pack, Dispatch_idle. reflexivity.
  - destruct (transfer_buckets _ _ _) as [[p'' np]|]; [| discriminate].
    destruct (CommitBucket fuel type hash hd nm false _) as [[b1 s3]| | | |] eqn:E;
      cbn; try discriminate.
    intros [= _ <-]. apply IH in E. rewrite E.
    rewrite idle_view_set_current_pack, Dispatch_idle. reflexivity.
Qed.

Section Idle.

Context `{Collaborators}.
Variable net : Z -> Curl.

Lemma exec_producer_idle fuel op s s' :
  producer_op op = true -> exec fuel net op s = Ret s' ->
  idle_view s' = idle_view s.
Proof.
  destruct op; cbn [producer_op exec]; try discriminate; intros _.
  - intros [= <-]. reflexivity.
  - unfold WriteBucket. destruct (current_pack_ s) as [p|]; [| discriminate].
    destruct (ObjectPack.Write hd data p); [| discriminate].
    intros [= <-]. reflexivity.
  - destruct (CommitBucket fuel type hash hd nm force_dispatch s)
      as [[b s1]| | | |] eqn:E; cbn; try discriminate.
    intros [= <-]. apply (CommitBucket_idle _ _ _ _ _ _ _ _ _ E).
Qed.

Lemma run_producer_idle fuel ops : forall s s',
  forallb producer_op ops = true -> run fuel net ops s = Ret s' ->
  idle_view s' = idle_view s.
Proof.
  induction ops as [|op ops IH]; intros s s'; cbn [forallb run].
  - intros _ [= <-]. reflexivity.
  - intros Hops. apply andb_true_iff in Hops as [Hop Hops].
    destruct (exec fuel net op s) as [s1| | | |] eqn:E; cbn; try discriminate.
    intros Hrun. rewrite (IH s1 s' Hops Hrun).
    apply (exec_producer_idle fuel op s s1 Hop E).
Qed.

Lemma producer_ops_no_Finalize ops :
  forallb producer_op ops = true -> OFinalize ∉ ops.
Proof.
  intros Hops Hin. rewrite forallb_forall in Hops.
  apply list_elem_of_In, Hops in Hin. discriminate.
Qed.

(** X4: when, after a successful [Initialize], only [NewBucket], writes
    and [CommitBucket] were called, the worker has not made a pass yet
    and no more than the 1000 packs that the channels hold were
    dispatched, [WaitForUpload] returns at once, on the token [Initialize]
    left in [queue_was_flushed_]: every dispatched job is still queued and
    its future is unset. *)
Theorem WaitForUpload_returns_before_upload fuel ops lock pthread_create api_url
    session_token key_id secret drop_lease max_pack_size s0 s s' :
  Initialize lock pthread_create api_url session_token key_id secret drop_lease
    max_pack_size s0 = (true, s) ->
  forallb producer_op ops = true ->
  Z.of_nat fuel * Z.of_nat (length ops) < 2 ^ 63 - 1 ->
  run fuel net ops s = Ret s' ->
  objects_dispatched_ s' <= 1000 ->
  exists s'',
    WaitForUpload net s' = Ret s'' /\
    upload_jobs_ s'' = upload_jobs_ s' /\
    length (upload_jobs_ s'') = length (upload_results_ s') /\
    (forall job, job ∈ upload_jobs_ s'' -> Future_value (result job) s'' = None) /\
    worker_ s'' = Running 0.
Proof.
  intros Hinit Hops Hroom Hrun _.
  pose proof (producer_ops_no_Finalize ops Hops) as Hnf.
  destruct (reachable_ready net fuel ops _ _ _ _ _ _ _ _ _ _ _ Hinit Hnf Hroom Hrun)
    as [Hready _].
  pose proof (run_producer_idle fuel ops s s' Hops Hrun) as Hidle.
  destruct (Initialize_no_failed_result _ _ _ _ _ _ _ _ _ _ Hinit) as [_ Hq].
  assert (Hw : worker_ s = Running 0).
  { revert Hinit. unfold Initialize. destruct lock; cbn [negb]; [| discriminate].
    unfold InitializeDerived. cbn. destruct (pthread_create =? 0); [| discriminate].
    intros [= _ <-]. reflexivity. }
  unfold idle_view in Hidle. injection Hidle as Hq' Hw' _.
  rewrite Hq in Hq'. rewrite Hw in Hw'.
  destruct Hready as [[(jp & Hjp & _ & Hn) _ _ Hunset _] Hcount _].
  rewrite Hw' in Hjp. injection Hjp as <-.
  assert (Hlen : length (upload_jobs_ s') = length (upload_results_ s')) by lia.
  assert (Hnone : forall job, job ∈ upload_jobs_ s' ->
                              Future_value (result job) s' = None).
  { intros job Hin. unfold Future_value. rewrite (Hunset job Hin). reflexivity. }
  unfold WaitForUpload.
  destruct (upload_results_ s') as [|f results].
  - exists s'. auto.
  - rewrite Hq'. cbn. rewrite Hq'.
    eexists. split; [reflexivity |]. cbn. auto.
Qed.

End Idle.

(** ** The invariants together *)

Section Reached.

Context `{Collaborators}.
Variable net : Z -> Curl.

Lemma UploadLoop_flushed s s' :
  UploadLoop net s = Ret s' ->
  (length (queue_was_flushed_ s) <= 1)%nat ->
  (length (queue_was_flushed_ s') <= 1)%nat.
Proof.
  unfold UploadLoop. destruct (worker_ s) as [|jp|]; [intros [= <-]; auto | |
                                                     intros [= <-]; auto].
  destruct (ShouldTerminate s); [intros [= <-]; auto |].
  destruct (UploadLoop_jobs _ _ _ _) as [[jp' s1]| | | |] eqn:E; cbn; try discriminate.
  apply UploadLoop_jobs_inv in E as (_ & _ & _ & Hq & _).
  intros [= <-] Hlen. rewrite <- Hq in Hlen.
  destruct (queue_was_flushed_ s1) eqn:E; cbn; [lia | rewrite E; exact Hlen].
Qed.

Lemma exec_flushed fuel op s s' :
  op <> OFinalize -> exec fuel net op s = Ret s' ->
  (length (queue_was_flushed_ s) <= 1)%nat ->
  (length (queue_was_flushed_ s') <= 1)%nat.
Proof.
  intros Hop He Hq.
  destruct (producer_op op) eqn:Hp.
  - pose proof (exec_producer_idle net fuel op s s' Hp He) as Hidle.
    unfold idle_view in Hidle. injection Hidle as -> _ _. exact Hq.
  - destruct op; try discriminate; [| | congruence]; cbn [exec] in He.
    + unfold WaitForUpload in He. destruct (upload_results_ s);
        [injection He as <-; exact Hq |].
      destruct (queue_was_flushed_ s) as [|b q] eqn:E; cbn in He.
      * destruct (UploadLoop net s) as [s1| | | |] eqn:E1; cbn in He; try discriminate.
        apply UploadLoop_flushed in E1; [| rewrite E; cbn; lia].
        destruct (queue_was_flushed_ s1); [discriminate |].
        injection He as <-. cbn in *. lia.
      * rewrite E in He. injection He as <-. cbn in *. lia.
    + apply (UploadLoop_flushed s s' He Hq).
Qed.

Lemma run_flushed fuel ops : forall s s',
  OFinalize ∉ ops -> run fuel net ops s = Ret s' ->
  (length (queue_was_flushed_ s) <= 1)%nat ->
  (length (queue_was_flushed_ s') <= 1)%nat.
Proof.
  induction ops as [|op ops IH]; intros s s' Hops; cbn [run].
  - intros [= <-]. auto.
  - apply not_elem_of_cons in Hops as [Hop Hops].
    destruct (exec fuel net op s) as [s1| | | |] eqn:E; cbn; try discriminate.
    intros Hrun Hq. apply (IH s1 s' Hops Hrun).
    apply (exec_flushed fuel op s s1); [| exact E | exact Hq].
    intros ->. apply Hop. reflexivity.
Qed.

(** X1: after a successful [Initialize] and any calls of [NewBucket],
    writes, [CommitBucket], [WaitForUpload] and passes of the worker that
    return, [objects_dispatched_] is the number of futures in
    [upload_results_]; the jobs the worker has processed and the jobs
    still in [upload_jobs_] add up to it; [upload_results_] holds the
    futures of the processed jobs, all set to true, followed by the
    futures of the queued jobs, all unset and pairwise distinct;
    [queue_was_flushed_] holds at most one token and the worker has not
    been told to terminate. *)
Theorem session_invariants fuel ops lock pthread_create api_url session_token
    key_id secret drop_lease max_pack_size s0 s s' :
  Initialize lock pthread_create api_url session_token key_id secret drop_lease
    max_pack_size s0 = (true, s) ->
  OFinalize ∉ ops ->
  Z.of_nat fuel * Z.of_nat (length ops) < 2 ^ 63 - 1 ->
  run fuel net ops s = Ret s' ->
  objects_dispatched_ s' = Z.of_nat (length (upload_results_ s')) /\
  (exists jobs_processed completed,
     worker_ s' = Running jobs_processed /\ 0 <= jobs_processed /\
     jobs_processed + Z.of_nat (length (upload_jobs_ s')) = objects_dispatched_ s' /\
     upload_results_ s' = completed ++ map result (upload_jobs_ s') /\
     forall f, f ∈ completed -> Future_value f s' = Some true) /\
  (forall job, job ∈ upload_jobs_ s' -> Future_value (result job) s' = None) /\
  NoDup (map result (upload_jobs_ s')) /\
  (length (queue_was_flushed_ s') <= 1)%nat /\
  worker_terminate_ s' = 0.
Proof.
  intros Hinit Hops Hroom Hrun.
  destruct (reachable_ready net fuel ops _ _ _ _ _ _ _ _ _ _ _ Hinit Hops Hroom Hrun)
    as [[[(jp & Hw & Hjp & Hn) _ Hflag Hunset Hdist] Hcount (completed & Hres & Hset)] _].
  destruct (Initialize_no_failed_result _ _ _ _ _ _ _ _ _ _ Hinit) as [Hok Hq].
  pose proof (run_no_failed_result net fuel ops s s' Hops Hok Hrun) as Hok'.
  split; [exact Hcount |]. split; [| split; [| split; [exact Hdist | split]]].
  - exists jp, completed. repeat (split; [assumption |]).
    intros f Hin. destruct (Hset f Hin) as [[] Hv]; [exact Hv |].
    exfalso. apply (Hok' f); [| exact Hv]. rewrite Hres. apply elem_of_app. auto.
  - intros job Hin. unfold Future_value. rewrite (Hunset job Hin). reflexivity.
  - apply (run_flushed fuel ops s s' Hops Hrun). rewrite Hq. cbn. lia.
  - exact Hflag.
Qed.

(** X3: after a successful [Initialize] and any calls of [NewBucket],
    writes, [CommitBucket], [WaitForUpload] and passes of the worker that
    return, once every bucket handle is committed and as long as the
    results to collect (the one of the last pack included) do not exceed
    the capacity of [upload_results_], [Finalize] returns true, whatever
    the transport answers to the uploads it still makes; it leaves
    [upload_results_] empty, the terminate flag set and the worker not
    running. *)
Theorem Finalize_reports_success fuel ops lock pthread_create api_url
    session_token key_id secret drop_lease max_pack_size s0 s s' :
  Initialize lock pthread_create api_url session_token key_id secret drop_lease
    max_pack_size s0 = (true, s) ->
  OFinalize ∉ ops ->
  Z.of_nat fuel * Z.of_nat (length ops) < 2 ^ 63 - 1 ->
  run fuel net ops s = Ret s' ->
  active_handles_ s' = [] ->
  Z.of_nat (length (upload_results_ (dispatch_last_pack s'))) <= channel_capacity ->
  forall transport : Z -> Curl,
  exists s'',
    Finalize transport s' = Ret (true, s'') /\
    upload_results_ s'' = [] /\
    worker_terminate_ s'' = 1 /\
    forall jp, worker_ s'' <> Running jp.
Proof.
  intros Hinit Hops Hroom Hrun Hact _ transport.
  destruct (reachable_ready net fuel ops _ _ _ _ _ _ _ _ _ _ _ Hinit Hops Hroom Hrun)
    as [Hready Hod].
  destruct (Initialize_no_failed_result _ _ _ _ _ _ _ _ _ _ Hinit) as [Hok _].
  pose proof (run_no_failed_result net fuel ops s s' Hops Hok Hrun) as Hok'.
  pose proof (run_books net fuel ops s s' Hops
                (Initialize_books _ _ _ _ _ _ _ _ _ _ Hinit) Hrun) as Hbooks.
  apply (Finalize_true transport s' Hready Hbooks Hok' Hact Hod).
Qed.

End Reached.

(** ** The forced dispatch *)

Lemma Dispatch_jobs s p :
  current_pack_ s = Some p ->
  upload_jobs_ (Dispatch s) = upload_jobs_ s ++ [mkJob p (length (futures_ s))] /\
  objects_dispatched_ (Dispatch s) = s64 (objects_dispatched_ s + 1).
Proof. intros Hp. unfold Dispatch. rewrite Hp. cbn. auto. Qed.

Lemma set_current_pack_jobs v s :
  upload_jobs_ (set_current_pack v s) = upload_jobs_ s /\
  objects_dispatched_ (set_current_pack v s) = objects_dispatched_ s /\
  current_pack_ (set_current_pack v s) = v /\
  futures_ (set_current_pack v s) = futures_ s.
Proof. repeat split. Qed.

Lemma after_commit_jobs type hash hd nm c p s :
  upload_jobs_ (after_commit type hash hd nm c p s) = upload_jobs_ s /\
  objects_dispatched_ (after_commit type hash hd nm c p s) = objects_dispatched_ s /\
  futures_ (after_commit type hash hd nm c p s) = futures_ s.
Proof. repeat split. Qed.

Lemma after_rotation_jobs p s :
  upload_jobs_ (after_rotation p s) =
    upload_jobs_ s ++
    [mkJob (ObjectPack.mkPack (ObjectPack.limit_ p) (ObjectPack.size_ p) ∅
              (ObjectPack.buckets_ p)) (length (futures_ s))] /\
  objects_dispatched_ (after_rotation p s) = s64 (objects_dispatched_ s + 1).
Proof.
  unfold after_rotation.
  destruct (set_current_pack_jobs
              (Some (ObjectPack.mkPack (max_pack_size_ s) 0 (ObjectPack.open_buckets_ p) []))
              (Dispatch (set_current_pack
                 (Some (ObjectPack.mkPack (ObjectPack.limit_ p) (ObjectPack.size_ p) ∅
                          (ObjectPack.buckets_ p))) s))) as (-> & -> & _).
  apply (Dispatch_jobs (set_current_pack _ s)). reflexivity.
Qed.

(** X5: with room in both channels, [force_dispatch] takes effect only
    when the current pack accepts the commit: the pack with the new object
    is then queued for upload and no current pack is left.  When the pack
    is full and the commit goes through a rotation, the call gives the
    same result with the flag set as without it: the full pack is queued,
    and the new object stays in the new current pack, undispatched. *)
Theorem force_dispatch_lost_on_rotation type hash hd nm fuel s p c :
  current_pack_ s = Some p ->
  handles_open s ->
  ObjectPack.open_buckets_ p !! hd = Some c ->
  ObjectPack.bucket_size c <= max_pack_size_ s ->
  has_room s ->
  (ObjectPack.size_ p + ObjectPack.bucket_size c <= ObjectPack.limit_ p ->
   exists s',
     CommitBucket (S (S fuel)) type hash hd nm true s = Ret (true, s') /\
     current_pack_ s' = None /\
     map pack (upload_jobs_ s') =
       map pack (upload_jobs_ s) ++ [committed_pack type hash hd nm c p]) /\
  (ObjectPack.limit_ p < ObjectPack.size_ p + ObjectPack.bucket_size c ->
   exists s' p',
     CommitBucket (S (S fuel)) type hash hd nm true s = Ret (true, s') /\
     CommitBucket (S (S fuel)) type hash hd nm false s = Ret (true, s') /\
     current_pack_ s' = Some p' /\
     ObjectPack.buckets_ p' = [ObjectPack.mkBucket hd c type hash nm] /\
     map pack (upload_jobs_ s') =
       map pack (upload_jobs_ s) ++
       [ObjectPack.mkPack (ObjectPack.limit_ p) (ObjectPack.size_ p) ∅
          (ObjectPack.buckets_ p)] /\
     objects_dispatched_ s' = s64 (objects_dispatched_ s + 1)).
Proof.
  intros Hp Hopen Hc Hsmall _. split.
  - intros Hfit. eexists. split; [| split].
    + apply (CommitBucket_fits type hash hd nm (S fuel) true s p c Hp Hc Hfit).
    + reflexivity.
    + destruct (after_commit_fields type hash hd nm c p s) as (_ & _ & _ & Hcur & _).
      destruct (after_commit_jobs type hash hd nm c p s) as (Hjobs & _).
      destruct (set_current_pack_jobs None
                  (Dispatch (after_commit type hash hd nm c p s))) as (-> & _).
      rewrite (proj1 (Dispatch_jobs _ _ Hcur)), Hjobs, map_app. reflexivity.
  - intros Hfull. do 2 eexists. split; [| split; [| split; [| split; [| split]]]].
    + apply (CommitBucket_rotates type hash hd nm fuel true s p c); assumption.
    + apply (CommitBucket_rotates type hash hd nm fuel false s p c); assumption.
    + apply after_commit_fields.
    + reflexivity.
    + rewrite (proj1 (after_commit_jobs _ _ _ _ _ _ _)).
      rewrite (proj1 (after_rotation_jobs p s)), map_app. reflexivity.
    + rewrite (proj1 (proj2 (after_commit_jobs _ _ _ _ _ _ _))).
      apply after_rotation_jobs.
Qed.

(** ** [Initialize] *)

(** X6: [Initialize] returns true exactly when the lock could be set up,
    the worker thread could be created and no pack was open.  When the
    lock cannot be set up it leaves the session as it was.  Otherwise it
    stores the credentials and the ceiling, zeroes the three counters,
    empties the two queues, leaves one token in [queue_was_flushed_] and
    clears the terminate flag, also when it returns false; and when the
    thread could be created the worker runs, even if [Initialize] returns
    false because a pack was open. *)
Theorem Initialize_result lock pthread_create api_url
    session_token key_id secret drop_lease max_pack_size s :
  let r := Initialize lock pthread_create api_url session_token key_id secret
             drop_lease max_pack_size s in
  (fst r = true <-> lock = true /\ pthread_create = 0 /\ current_pack_ s = None) /\
  (lock = false -> r = (false, s)) /\
  (lock = true ->
     credentials (snd r) = (api_url, session_token, key_id, secret) /\
     drop_lease_ (snd r) = drop_lease /\
     max_pack_size_ (snd r) = max_pack_size /\
     objects_dispatched_ (snd r) = 0 /\
     bytes_committed_ (snd r) = 0 /\
     bytes_dispatched_ (snd r) = 0 /\
     upload_results_ (snd r) = [] /\
     upload_jobs_ (snd r) = [] /\
     queue_was_flushed_ (snd r) = [true] /\
     worker_terminate_ (snd r) = 0 /\
     current_pack_ (snd r) = current_pack_ s /\
     active_handles_ (snd r) = active_handles_ s /\
     (pthread_create = 0 -> worker_ (snd r) = Running 0) /\
     (pthread_create <> 0 -> worker_ (snd r) = worker_ s)).
Proof.
  cbv zeta. unfold Initialize, InitializeDerived.
  destruct lock; cbn [negb].
  - destruct (Z.eqb_spec pthread_create 0) as [->|Hne]; cbn.
    + split; [| split; [discriminate |]].
      * destruct (current_pack_ s); split; try tauto; try discriminate.
        intros (_ & _ & Hp); discriminate.
      * intros _. repeat split. intros Hne. congruence.
    + split; [| split; [discriminate |]].
      * split; [discriminate | tauto].
      * intros _. repeat split. intros He. congruence.
  - cbn. split; [| split; [reflexivity | discriminate]].
    split; [discriminate | intros [Hl _]; discriminate].
Qed.

(** ** The write callback *)

Lemma string_of_list_byte_length (l : list byte) :
  String.length (string_of_list_byte l) = length l.
Proof. induction l as [|b l IH]; cbn; [reflexivity | f_equal; exact IH]. Qed.

(** The C string stops at the first NUL byte. *)
Lemma c_string_length memory : forall n,
  x00 ∈ memory ->
  (length (c_string memory) = n <->
   (x00 ∉ take n memory) /\ memory !! n = Some x00).
Proof.
  induction memory as [|b memory IH]; intros n Hin; [inversion Hin |].
  cbn [c_string]. destruct (Byte.eqb b x00) eqn:E.
  - apply Byte.byte_dec_bl in E. subst b. cbn [length]. split.
    + intros <-. split; [cbn; apply not_elem_of_nil | reflexivity].
    + intros [Hno _]. destruct n as [|n]; [reflexivity |].
      exfalso. apply Hno. cbn. apply elem_of_cons. auto.
  - assert (Hb : b <> x00).
    { intros ->. rewrite (Byte.byte_dec_lb eq_refl) in E. discriminate. }
    apply elem_of_cons in Hin as [Hin|Hin]; [congruence |].
    cbn [length]. destruct n as [|n].
    + split; [discriminate |]. intros [_ [= Hx]]. congruence.
    + cbn [take lookup]. rewrite not_elem_of_cons.
      specialize (IH n Hin). cbn. split.
      * intros [= Hlen]. apply IH in Hlen as [? ?]. auto.
      * intros [[_ Hno] Hn]. f_equal. apply IH. auto.
Qed.

(** X7: [RecvCB] does not append to the reply: it replaces the reply by
    the C string found at the address of the chunk, whatever the reply
    held.  For a chunk of [size * nmemb >= 1] bytes it returns that count,
    which is what libcurl takes for success, exactly when the chunk holds
    no NUL byte and the byte after the chunk is NUL. *)
Theorem RecvCB_accepts memory size nmemb reply :
  1 <= size * nmemb < 2 ^ 64 ->
  x00 ∈ memory ->
  snd (RecvCB memory size nmemb reply) = string_of_list_byte (c_string memory) /\
  (forall reply', RecvCB memory size nmemb reply' = RecvCB memory size nmemb reply) /\
  (fst (RecvCB memory size nmemb reply) = size * nmemb <->
   (x00 ∉ take (Z.to_nat (size * nmemb)) memory) /\
   memory !! Z.to_nat (size * nmemb) = Some x00).
Proof.
  intros Hn Hin. unfold RecvCB. rewrite u64_small by lia.
  destruct (Z.ltb_spec (size * nmemb) 1) as [Hlt|_]; [lia |].
  cbn [fst snd]. split; [reflexivity |]. split; [reflexivity |].
  rewrite string_of_list_byte_length.
  rewrite <- (c_string_length memory (Z.to_nat (size * nmemb)) Hin). lia.
Qed.

(** ** Without a running worker *)

Section Stalled.

Context `{Collaborators}.
Variable net : Z -> Curl.

Lemma UploadLoop_not_running s :
  (forall jp, worker_ s <> Running jp) -> UploadLoop net s = Ret s.
Proof.
  intros Hw. unfold UploadLoop. destruct (worker_ s) as [|jp|] eqn:E;
    [reflexivity | destruct (Hw jp eq_refl) | reflexivity].
Qed.

Lemma collect_results_blocked queue : forall results jf s f,
  (forall jp, worker_ s <> Running jp) ->
  f ∈ queue -> Future_value f s = None ->
  collect_results net queue results jf s = Blocked.
Proof.
  induction queue as [|future queue IH]; intros results jf s f Hw Hin Hf;
    [inversion Hin |].
  cbn [collect_results]. unfold Future_Get.
  assert (Hv : forall g, Future_value g (set_upload_results queue s) = Future_value g s)
    by reflexivity.
  assert (Hw' : forall jp, worker_ (set_upload_results queue s) <> Running jp)
    by exact Hw.
  rewrite Hv. destruct (Future_value future s) as [v|] eqn:E.
  - cbn. apply (IH _ _ _ f Hw'); [| rewrite Hv; exact Hf].
    apply elem_of_cons in Hin as [->|Hin]; [congruence | exact Hin].
  - rewrite (UploadLoop_not_running _ Hw'). cbn. rewrite Hv, E. reflexivity.
Qed.

Lemma Dispatch_keeps_unset s f :
  Future_value f s = None -> Future_value f (Dispatch s) = None.
Proof.
  unfold Dispatch. destruct (current_pack_ s); [| auto].
  unfold Future_value. cbn. intros Hf.
  destruct (decide (f < length (futures_ s))%nat) as [Hlt|Hge].
  - rewrite lookup_app_l by exact Hlt. exact Hf.
  - rewrite lookup_app_r by lia.
    destruct (f - length (futures_ s))%nat as [|n]; reflexivity.
Qed.

(** X8: when the worker is not running, as when its thread could not be
    created and the session is used regardless, [Finalize] never returns
    once a dispatched pack is waiting for its result or the current pack
    holds an object: it waits for a future that nobody sets. *)
Theorem Finalize_blocks_without_worker s :
  (forall jp, worker_ s <> Running jp) ->
  active_handles_ s = [] ->
  (exists f, f ∈ upload_results_ s /\ Future_value f s = None) \/
  (exists p, current_pack_ s = Some p /\ 0 < ObjectPack.GetNoObjects p) ->
  Finalize net s = Blocked.
Proof.
  intros Hw Hact Hwait. unfold Finalize. rewrite Hact.
  assert (Hblocked : exists f,
            f ∈ upload_results_ (dispatch_last_pack s) /\
            Future_value f (dispatch_last_pack s) = None).
  { unfold dispatch_last_pack.
    destruct (current_pack_ s) as [p|] eqn:Hp.
    - destruct (Z.ltb_spec 0 (ObjectPack.GetNoObjects p)) as [Hpos|Hnone].
      + exists (length (futures_ s)). unfold Dispatch. rewrite Hp.
        unfold Future_value. cbn. split.
        * apply elem_of_app. right. apply list_elem_of_singleton. reflexivity.
        * rewrite lookup_app_r by lia. rewrite Nat.sub_diag. reflexivity.
      + destruct Hwait as [Hwait|(p' & [= <-] & Hpos)]; [exact Hwait | lia].
    - destruct Hwait as [Hwait|(p' & [=] & _)]. exact Hwait. }
  destruct Hblocked as (f & Hin & Hf).
  rewrite (collect_results_blocked _ true 0 (dispatch_last_pack s) f); [reflexivity | | exact Hin | exact Hf].
  assert (Hidle : idle_view (dispatch_last_pack s) = idle_view s).
  { unfold dispatch_last_pack. destruct (current_pack_ s) as [p|]; [| reflexivity].
    destruct (0 <? ObjectPack.GetNoObjects p); [| reflexivity].
    rewrite idle_view_set_current_pack. apply Dispatch_idle. }
  unfold idle_view in Hidle. injection Hidle as _ Hwk _. rewrite Hwk. exact Hw.
Qed.

(** X9: in a ready session one pass of the worker returns whatever the
    transport does: it takes every job out of [upload_jobs_], leaves
    every future of [upload_results_] set to true and a token in
    [queue_was_flushed_], and touches nothing the producers write. *)
Theorem UploadLoop_pass s :
  session_ready s ->
  no_failed_result s ->
  exists s',
    UploadLoop net s = Ret s' /\
    upload_jobs_ s' = [] /\
    worker_ s' = Running (objects_dispatched_ s) /\
    (forall f, f ∈ upload_results_ s' -> Future_value f s' = Some true) /\
    queue_was_flushed_ s' <> [] /\
    upload_results_ s' = upload_results_ s /\
    accounts s' = accounts s.
Proof.
  intros [[(jp & Hw & Hjp & Hn) Hwrap Hflag Hunset Hdist] Hcount (completed & Hres & Hset)] Hok.
  destruct (UploadLoop_jobs_ready net (upload_jobs_ s) jp s Hjp Hn Hwrap Hdist Hunset
              eq_refl) as (s1 & Hrun & Hjobs & Hdone).
  pose proof (UploadLoop_jobs_inv _ _ _ _ _ _ Hrun) as (Ha & Hr & Hw1 & Hq & Hm).
  pose proof (UploadLoop_jobs_never_false _ _ _ _ _ _ Hrun) as Hnf.
  assert (Hall : forall f, f ∈ upload_results_ s -> Future_value f s1 = Some true).
  { intros f Hin. pose proof (Hok f Hin) as Hf. apply Hnf in Hf.
    rewrite Hres in Hin. apply elem_of_app in Hin as [Hin|Hin].
    - destruct (Hset f Hin) as [v Hv]. apply Hm in Hv.
      destruct v; [exact Hv | congruence].
    - apply list_elem_of_fmap in Hin as (job & -> & Hin). apply Hdone, Hin. }
  unfold UploadLoop. rewrite Hw. unfold ShouldTerminate. rewrite Hflag. cbn [Z.eqb negb].
  rewrite Hrun. cbn.
  destruct (queue_was_flushed_ s1) as [|b q] eqn:E; eexists; (split; [reflexivity |]); cbn;
    rewrite ?E; repeat split; try assumption; try discriminate.
  all: intros f Hin; rewrite Hr in Hin; apply (Hall f Hin).
Qed.

End Stalled.

(** ** The properties at work on the sample session *)

Lemma sample_session_initialized :
  Initialize true 0 "https://gw/api/v1" "token" "key" "secret" true 100
    (@SessionContext_new sample_collaborators 0 0 0 0) = (true, sample_session).
Proof. reflexivity. Qed.

Lemma busy_session_no_Finalize : OFinalize ∉ busy_session.
Proof.
  intros Hin. apply list_elem_of_In in Hin. vm_compute in Hin.
  intuition discriminate.
Qed.

Lemma three_commits_no_Finalize : OFinalize ∉ three_commits.
Proof.
  intros Hin. apply list_elem_of_In in Hin. vm_compute in Hin.
  intuition discriminate.
Qed.

Lemma session_invariants_witness :
  Initialize true 0 "https://gw/api/v1" "token" "key" "secret" true 100
    (@SessionContext_new sample_collaborators 0 0 0 0) = (true, sample_session) /\
  (OFinalize ∉ busy_session) /\
  Z.of_nat 2 * Z.of_nat (length busy_session) < 2 ^ 63 - 1 /\
  @run sample_collaborators 2 accepting busy_session sample_session
    = Ret (state_after busy_session) /\
  objects_dispatched_ (state_after busy_session)
    = Z.of_nat (length (upload_results_ (state_after busy_session))) /\
  NoDup (map result (upload_jobs_ (state_after busy_session))) /\
  (length (queue_was_flushed_ (state_after busy_session)) <= 1)%nat /\
  worker_terminate_ (state_after busy_session) = 0.
Proof.
  assert (Hroom : Z.of_nat 2 * Z.of_nat (length busy_session) < 2 ^ 63 - 1)
    by (vm_compute; reflexivity).
  assert (Hr : @run sample_collaborators 2 accepting busy_session sample_session
               = Ret (state_after busy_session)) by (vm_compute; reflexivity).
  split; [exact sample_session_initialized |].
  split; [exact busy_session_no_Finalize |]. split; [exact Hroom |].
  split; [exact Hr |].
  destruct (@session_invariants sample_collaborators accepting 2 busy_session
              true 0 _ _ _ _ true 100 _ _ _ sample_session_initialized
              busy_session_no_Finalize Hroom Hr)
    as (Hc & _ & _ & Hd & Hq & Ht).
  auto.
Defined.

Lemma bytes_committed_balance_witness :
  Initialize true 0 "https://gw/api/v1" "token" "key" "secret" true 100
    (@SessionContext_new sample_collaborators 0 0 0 0) = (true, sample_session) /\
  (OFinalize ∉ busy_session) /\
  @run sample_collaborators 2 accepting busy_session sample_session
    = Ret (state_after busy_session) /\
  bytes_committed_ (state_after busy_session)
    = u64 (bytes_dispatched_ (state_after busy_session)
           + pack_size (state_after busy_session)).
Proof.
  assert (Hr : @run sample_collaborators 2 accepting busy_session sample_session
               = Ret (state_after busy_session)) by (vm_compute; reflexivity).
  split; [exact sample_session_initialized |].
  split; [exact busy_session_no_Finalize |]. split; [exact Hr |].
  exact (proj1 (@bytes_committed_balance sample_collaborators accepting 2 busy_session
                  true 0 _ _ _ _ true 100 _ _ _ sample_session_initialized
                  busy_session_no_Finalize Hr)).
Defined.

Lemma Finalize_reports_success_witness :
  Initialize true 0 "https://gw/api/v1" "token" "key" "secret" true 100
    (@SessionContext_new sample_collaborators 0 0 0 0) = (true, sample_session) /\
  (OFinalize ∉ three_commits) /\
  Z.of_nat 2 * Z.of_nat (length three_commits) < 2 ^ 63 - 1 /\
  @run sample_collaborators 2 accepting three_commits sample_session
    = Ret (state_after three_commits) /\
  active_handles_ (state_after three_commits) = [] /\
  Z.of_nat (length (upload_results_ (dispatch_last_pack (state_after three_commits))))
    <= channel_capacity /\
  exists s'',
    @Finalize sample_collaborators refused (state_after three_commits)
      = Ret (true, s'') /\
    upload_results_ s'' = [] /\ worker_terminate_ s'' = 1.
Proof.
  assert (Hroom : Z.of_nat 2 * Z.of_nat (length three_commits) < 2 ^ 63 - 1)
    by (vm_compute; reflexivity).
  assert (Hr : @run sample_collaborators 2 accepting three_commits sample_session
               = Ret (state_after three_commits)) by (vm_compute; reflexivity).
  assert (Hact : active_handles_ (state_after three_commits) = [])
    by (vm_compute; reflexivity).
  split; [exact sample_session_initialized |].
  split; [exact three_commits_no_Finalize |]. split; [exact Hroom |].
  assert (Hcap : Z.of_nat (length (upload_results_
                                    (dispatch_last_pack (state_after three_commits))))
                 <= channel_capacity) by (vm_compute; discriminate).
  split; [exact Hr |]. split; [exact Hact |]. split; [exact Hcap |].
  destruct (@Finalize_reports_success sample_collaborators accepting 2 three_commits
              true 0 _ _ _ _ true 100 _ _ _ sample_session_initialized
              three_commits_no_Finalize Hroom Hr Hact Hcap refused)
    as (s'' & Hfin & He & Ht & _).
  exists s''. auto.
Defined.

Lemma WaitForUpload_returns_before_upload_witness :
  Initialize true 0 "https://gw/api/v1" "token" "key" "secret" true 100
    (@SessionContext_new sample_collaborators 0 0 0 0) = (true, sample_session) /\
  forallb producer_op three_commits = true /\
  Z.of_nat 2 * Z.of_nat (length three_commits) < 2 ^ 63 - 1 /\
  @run sample_collaborators 2 accepting three_commits sample_session
    = Ret (state_after three_commits) /\
  objects_dispatched_ (state_after three_commits) <= 1000 /\
  exists s'',
    @WaitForUpload sample_collaborators accepting (state_after three_commits)
      = Ret s'' /\
    upload_jobs_ s'' = upload_jobs_ (state_after three_commits) /\
    forall job, job ∈ upload_jobs_ s'' -> Future_value (result job) s'' = None.
Proof.
  assert (Hp : forallb producer_op three_commits = true) by (vm_compute; reflexivity).
  assert (Hroom : Z.of_nat 2 * Z.of_nat (length three_commits) < 2 ^ 63 - 1)
    by (vm_compute; reflexivity).
  assert (Hr : @run sample_collaborators 2 accepting three_commits sample_session
               = Ret (state_after three_commits)) by (vm_compute; reflexivity).
  assert (Hcap : objects_dispatched_ (state_after three_commits) <= 1000)
    by (vm_compute; discriminate).
  split; [exact sample_session_initialized |]. split; [exact Hp |].
  split; [exact Hroom |]. split; [exact Hr |]. split; [exact Hcap |].
  destruct (@WaitForUpload_returns_before_upload sample_collaborators accepting 2
              three_commits true 0 _ _ _ _ true 100 _ _ _
              sample_session_initialized Hp Hroom Hr Hcap)
    as (s'' & Hw & Hj & _ & Hu & _).
  exists s''. auto.
Defined.

Lemma force_dispatch_lost_on_rotation_witness :
  current_pack_ (state_after third_bucket_open) = Some third_bucket_pack /\
  handles_open (state_after third_bucket_open) /\
  ObjectPack.open_buckets_ third_bucket_pack !! 3%positive = Some (bytes_of 40) /\
  ObjectPack.bucket_size (bytes_of 40) <= max_pack_size_ (state_after third_bucket_open) /\
  has_room (state_after third_bucket_open) /\
  ObjectPack.limit_ third_bucket_pack
    < ObjectPack.size_ third_bucket_pack + ObjectPack.bucket_size (bytes_of 40) /\
  exists s' p',
    CommitBucket 2 ObjectPack.kRegular [] 3 "" true (state_after third_bucket_open)
      = Ret (true, s') /\
    CommitBucket 2 ObjectPack.kRegular [] 3 "" false (state_after third_bucket_open)
      = Ret (true, s') /\
    current_pack_ s' = Some p' /\
    ObjectPack.buckets_ p'
      = [ObjectPack.mkBucket 3 (bytes_of 40) ObjectPack.kRegular [] ""].
Proof.
  assert (Hp : current_pack_ (state_after third_bucket_open) = Some third_bucket_pack)
    by (vm_compute; reflexivity).
  assert (Hc : ObjectPack.open_buckets_ third_bucket_pack !! 3%positive
               = Some (bytes_of 40)) by (vm_compute; reflexivity).
  assert (Hs : ObjectPack.bucket_size (bytes_of 40)
               <= max_pack_size_ (state_after third_bucket_open))
    by (vm_compute; discriminate).
  assert (Hfull : ObjectPack.limit_ third_bucket_pack
                  < ObjectPack.size_ third_bucket_pack
                    + ObjectPack.bucket_size (bytes_of 40))
    by (vm_compute; reflexivity).
  assert (Hroom : has_room (state_after third_bucket_open))
    by (split; vm_compute; reflexivity).
  split; [exact Hp |]. split; [exact third_bucket_open_handles |].
  split; [exact Hc |]. split; [exact Hs |]. split; [exact Hroom |].
  split; [exact Hfull |].
  destruct (proj2 (force_dispatch_lost_on_rotation ObjectPack.kRegular [] 3 "" 0
                     (state_after third_bucket_open) third_bucket_pack (bytes_of 40)
                     Hp third_bucket_open_handles Hc Hs Hroom) Hfull)
    as (s' & p' & Ht & Hf & Hcur & Hb & _).
  exists s', p'. auto.
Defined.

Lemma RecvCB_accepts_witness :
  1 <= 1 * 15 < 2 ^ 64 /\
  (x00 ∈ status_ok_chunk) /\
  snd (RecvCB status_ok_chunk 1 15 "") = string_of_list_byte (c_string status_ok_chunk) /\
  fst (RecvCB status_ok_chunk 1 15 "") = 1 * 15.
Proof.
  assert (Hn : 1 <= 1 * 15 < 2 ^ 64) by lia.
  assert (Hin : x00 ∈ status_ok_chunk).
  { apply list_elem_of_In. vm_compute. tauto. }
  split; [exact Hn |]. split; [exact Hin |].
  destruct (RecvCB_accepts status_ok_chunk 1 15 "" Hn Hin) as (Hs & _ & Hf).
  split; [exact Hs |]. apply Hf. split.
  - intros Hno. apply list_elem_of_In in Hno. vm_compute in Hno.
    intuition discriminate.
  - vm_compute. reflexivity.
Defined.

Lemma Finalize_blocks_without_worker_witness :
  (forall jp, worker_ stalled_session <> Running jp) /\
  active_handles_ stalled_session = [] /\
  (exists p, current_pack_ stalled_session = Some p /\
             0 < ObjectPack.GetNoObjects p) /\
  @Finalize sample_collaborators accepting stalled_session = Blocked.
Proof.
  assert (Hw : forall jp, worker_ stalled_session <> Running jp)
    by (intros jp; vm_compute; discriminate).
  assert (Hact : active_handles_ stalled_session = []) by (vm_compute; reflexivity).
  assert (Hp : exists p, current_pack_ stalled_session = Some p /\
                         0 < ObjectPack.GetNoObjects p).
  { eexists. split; vm_compute; reflexivity. }
  split; [exact Hw |]. split; [exact Hact |]. split; [exact Hp |].
  exact (@Finalize_blocks_without_worker sample_collaborators accepting
           stalled_session Hw Hact (or_intror Hp)).
Defined.

Lemma UploadLoop_pass_witness :
  session_ready (state_after three_commits) /\
  no_failed_result (state_after three_commits) /\
  exists s',
    @UploadLoop sample_collaborators refused (state_after three_commits) = Ret s' /\
    upload_jobs_ s' = [] /\
    forall f, f ∈ upload_results_ s' -> Future_value f s' = Some true.
Proof.
  assert (Hok : no_failed_result (state_after three_commits)).
  { apply (@run_no_failed_result sample_collaborators accepting 2 three_commits
             sample_session (state_after three_commits) three_commits_no_Finalize).
    - apply (Initialize_no_failed_result _ _ _ _ _ _ _ _ _ _ sample_session_initialized).
    - vm_compute. reflexivity. }
  split; [exact (proj1 three_commits_ready) |]. split; [exact Hok |].
  destruct (@UploadLoop_pass sample_collaborators refused (state_after three_commits)
              (proj1 three_commits_ready) Hok)
    as (s' & Hrun & Hj & _ & Hall & _).
  exists s'. auto.
Defined.

(** ** The forced dispatch with other buckets open *)

Section Stranded.

Context `{Collaborators}.

(** X10: a forced dispatch takes the buckets that are still open away
    with the pack.  After [CommitBucket] with [force_dispatch] on a pack
    that accepts the commit, with room in both channels, another active
    handle stays in
    [active_handles_] while no current pack is left; its bucket, with the
    bytes written so far, is an open bucket of the pack just queued; a
    [CommitBucket] on it then returns false and changes nothing; and
    [Finalize] fails its assertion. *)
Theorem forced_dispatch_strands_open_buckets type hash hd nm fuel s p c other :
  current_pack_ s = Some p ->
  ObjectPack.open_buckets_ p !! hd = Some c ->
  ObjectPack.size_ p + ObjectPack.bucket_size c <= ObjectPack.limit_ p ->
  other ∈ active_handles_ s ->
  other <> hd ->
  has_room s ->
  exists s' job,
    CommitBucket (S fuel) type hash hd nm true s = Ret (true, s') /\
    current_pack_ s' = None /\
    other ∈ active_handles_ s' /\
    last (upload_jobs_ s') = Some job /\
    ObjectPack.open_buckets_ (pack job) !! other = ObjectPack.open_buckets_ p !! other /\
    (forall n type' hash' nm' force_dispatch,
       CommitBucket (S n) type' hash' other nm' force_dispatch s' = Ret (false, s')) /\
    (forall net, Finalize net s' = AssertFailed).
Proof.
  intros Hp Hc Hfit Hin Hne _.
  destruct (after_commit_fields type hash hd nm c p s) as (_ & _ & Hact & Hcur & _).
  destruct (forced_dispatch_fields (after_commit type hash hd nm c p s))
    as (_ & Fact & Fcur & _).
  assert (Hother : other ∈ active_handles_
                     (set_current_pack None (Dispatch (after_commit type hash hd nm c p s)))).
  { rewrite Fact, Hact. apply list_elem_of_filter. auto. }
  exists (set_current_pack None (Dispatch (after_commit type hash hd nm c p s))),
         (mkJob (committed_pack type hash hd nm c p) (length (futures_ s))).
  split; [apply (CommitBucket_fits type hash hd nm fuel true s p c Hp Hc Hfit) |].
  split; [exact Fcur |]. split; [exact Hother |].
  split; [| split; [| split]].
  - destruct (set_current_pack_jobs None
                (Dispatch (after_commit type hash hd nm c p s))) as (-> & _).
    rewrite (proj1 (Dispatch_jobs _ _ Hcur)).
    rewrite (proj2 (proj2 (after_commit_jobs type hash hd nm c p s))).
    apply last_snoc.
  - cbn. apply lookup_delete_ne. congruence.
  - intros n type' hash' nm' force_dispatch. cbn [CommitBucket].
    rewrite Fcur. reflexivity.
  - intros net. unfold Finalize.
    destruct (active_handles_
                (set_current_pack None (Dispatch (after_commit type hash hd nm c p s))))
      as [|h l]; [inversion Hother | reflexivity].
Qed.

End Stranded.

Lemma forced_dispatch_strands_open_buckets_witness :
  current_pack_ (state_after two_buckets_open) = Some two_buckets_pack /\
  ObjectPack.open_buckets_ two_buckets_pack !! 1%positive = Some (bytes_of 10) /\
  ObjectPack.size_ two_buckets_pack + ObjectPack.bucket_size (bytes_of 10)
    <= ObjectPack.limit_ two_buckets_pack /\
  (2%positive ∈ active_handles_ (state_after two_buckets_open)) /\
  2%positive <> 1%positive /\
  has_room (state_after two_buckets_open) /\
  exists s',
    CommitBucket 1 ObjectPack.kRegular [] 1 "" true (state_after two_buckets_open)
      = Ret (true, s') /\
    current_pack_ s' = None /\
    (2%positive ∈ active_handles_ s') /\
    @Finalize sample_collaborators accepting s' = AssertFailed.
Proof.
  assert (Hp : current_pack_ (state_after two_buckets_open) = Some two_buckets_pack)
    by (vm_compute; reflexivity).
  assert (Hc : ObjectPack.open_buckets_ two_buckets_pack !! 1%positive
               = Some (bytes_of 10)) by (vm_compute; reflexivity).
  assert (Hfit : ObjectPack.size_ two_buckets_pack + ObjectPack.bucket_size (bytes_of 10)
                 <= ObjectPack.limit_ two_buckets_pack) by (vm_compute; discriminate).
  assert (Hin : 2%positive ∈ active_handles_ (state_after two_buckets_open)).
  { apply list_elem_of_In. vm_compute. tauto. }
  assert (Hne : 2%positive <> 1%positive) by discriminate.
  split; [exact Hp |]. split; [exact Hc |]. split; [exact Hfit |].
  assert (Hroom : has_room (state_after two_buckets_open))
    by (split; vm_compute; reflexivity).
  split; [exact Hin |]. split; [exact Hne |]. split; [exact Hroom |].
  destruct (@forced_dispatch_strands_open_buckets sample_collaborators
              ObjectPack.kRegular [] 1 "" 0 (state_after two_buckets_open)
              two_buckets_pack (bytes_of 10) 2 Hp Hc Hfit Hin Hne Hroom)
    as (s' & job & Hrun & Hcur & Hact & _ & _ & _ & Hfin).
  exists s'. auto.
Defined.
